(** * SEMFE heat-transfer solver: assembly and boundary-condition engine

    A shallow embedding of [Solver.py], of the pipeline of [main.py], and
    of the numbering and the boundary detection of [write_chimneyfile.py].

    Numbers.  The arrays of the program hold IEEE doubles; they are read
    here as real numbers, so every statement below is a statement in exact
    arithmetic.  Integer indices are [Z], and numpy's treatment of an index
    (negative indices count from the end, anything else out of bounds
    raises [IndexError]) is written out in [np_index].

    Objects.  [K] and [f] are numpy arrays that the program copies, mutates
    and passes around; they live in a store ([heap]) and are referred to by
    location, so that "the same object" and "a copy" are different things.
    The mesh arrays [nodes] and [elems] are only ever read and are passed by
    value. *)

From Stdlib Require Import Reals Lra ZArith Lia List.
From stdpp Require Import base list option gmap.

Local Open Scope R_scope.

(** ** Dense arrays *)

Abbreviation vector := (list R).
Abbreviation matrix := (list (list R)).

(** [v[i]] and [m[i,j]] for indices already known to be in range. *)
Definition vget (v : vector) (i : nat) : R := default 0 (v !! i).
Definition mget (m : matrix) (i j : nat) : R := vget (default [] (m !! i)) j.

(** Second component of [m.shape]. *)
Definition ncols (m : matrix) : nat :=
  match m with [] => 0%nat | r :: _ => length r end.

(** [m] has shape [(n, c)]. *)
Definition has_shape (n c : nat) (m : matrix) : Prop :=
  length m = n ∧ Forall (λ r, length r = c) m.

Definition dot (u v : vector) : R :=
  foldr Rplus 0 (zip_with Rmult u v).

Definition transpose (m : matrix) : matrix :=
  (λ j, (λ r, vget r j) <$> m) <$> seq 0 (ncols m).

(** [a @ b] *)
Definition matmul (a b : matrix) : matrix :=
  (λ r, (λ c, dot r c) <$> transpose b) <$> a.

(** [c * m], a scalar times an array *)
Definition mscale (c : R) (m : matrix) : matrix :=
  (λ r : vector, Rmult c <$> r) <$> m.
Definition vscale (c : R) (v : vector) : vector := Rmult c <$> v.

(** [K @ u] for a vector [u] *)
Definition mat_vec (m : matrix) (u : vector) : vector := (λ r, dot r u) <$> m.

Definition symmetric_matrix (n : nat) (m : matrix) : Prop :=
  ∀ i j, (i < n)%nat → (j < n)%nat → mget m i j = mget m j i.

(** ** Exceptions and numpy indexing *)

Inductive exn := IndexError | KeyError | ValueError | TypeError.

Inductive outcome (A : Type) :=
  | Ok (a : A)
  | Raise (e : exn).
Arguments Ok {A} a.
Arguments Raise {A} e.

(** An index [i] into an axis of size [n]: [0 <= i < n] is itself,
    [-n <= i < 0] counts from the end, everything else is an [IndexError]. *)
Definition np_index (n : nat) (i : Z) : outcome nat :=
  if decide (0 ≤ i < Z.of_nat n)%Z then Ok (Z.to_nat i)
  else if decide (- Z.of_nat n ≤ i < 0)%Z then Ok (Z.to_nat (i + Z.of_nat n))
  else Raise IndexError.

(** ** The mesh *)

(** A row of [elems] (an [M x 3] integer array) and the [3 x 2] array
    [nodes[conn, :2]]. *)
Abbreviation conn_t := (Z * Z * Z)%type.
Abbreviation coords_t := ((R * R) * (R * R) * (R * R))%type.

(** Local positions 0, 1, 2 of a three-row array. *)
Definition local {A} (t : A * A * A) (i : nat) : A :=
  match i with
  | 0%nat => t.1.1
  | 1%nat => t.1.2
  | _ => t.2
  end.

Definition enumerate3 {A} (t : A * A * A) : list (nat * A) :=
  [(0%nat, t.1.1); (1%nat, t.1.2); (2%nat, t.2)].

(** ** [element_stiffness_triangle] *)

Definition det2 (j00 j01 j10 j11 : R) : R := j00 * j11 - j01 * j10.

(** The matrix [B] of the shape-function derivatives.  The code divides by
    [det_J]: for a triangle of zero area numpy gives [inf] and [nan]
    entries, while [1 / 0] is [0] in [R].  The two definitions below are
    the code wherever [det_J] is not zero, and the theorems about the
    element matrix are stated there ([jacobian_det], [valid_conn]). *)
Definition shape_gradients (node_coords : coords_t) : matrix :=
  let '((x1, y1), (x2, y2), (x3, y3)) := node_coords in
  let det_J := det2 (x2 - x1) (x3 - x1) (y2 - y1) (y3 - y1) in
  matmul (mscale (1 / det_J) [[y2 - y3; y3 - y1]; [x3 - x2; x1 - x3]])
         [[1; 0; -1]; [0; 1; -1]].

Definition element_stiffness_triangle (node_coords : coords_t) (k : R) : matrix :=
  let '((x1, y1), (x2, y2), (x3, y3)) := node_coords in
  let det_J := det2 (x2 - x1) (x3 - x1) (y2 - y1) (y3 - y1) in
  let abs_det_J := Rabs det_J in
  let area := 0.5 * abs_det_J in
  let B := shape_gradients node_coords in
  mscale (k * area) (matmul (transpose B) B).

(** ** Exceptions as a monad, and the store *)

#[global] Instance outcome_ret : MRet outcome := λ A a, Ok a.
#[global] Instance outcome_bind : MBind outcome := λ A B k o,
  match o with
  | Ok a => k a
  | Raise e => Raise e
  end.

(** A numpy array object: one-dimensional ([f], [fmod]) or two-dimensional
    ([K], [Kmod]). *)
Inductive ndarray :=
  | Arr1 (v : vector)
  | Arr2 (m : matrix).

Abbreviation loc := nat.
Abbreviation heap := (list ndarray).

(** A computation reads and writes the store and ends with a value or with
    an exception; the store it leaves behind is kept in both cases. *)
Definition M (A : Type) : Type := heap → outcome A * heap.

#[global] Instance M_ret : MRet M := λ A a h, (Ok a, h).
#[global] Instance M_bind : MBind M := λ A B k m h,
  match m h with
  | (Ok a, h') => k a h'
  | (Raise e, h') => (Raise e, h')
  end.

Definition lift {A} (o : outcome A) : M A := λ h, (o, h).

(** A new object gets the next free location. *)
Definition alloc (a : ndarray) : M loc := λ h, (Ok (length h), h ++ [a]).

Definition load1 (l : loc) : M vector := λ h,
  match h !! l with
  | Some (Arr1 v) => (Ok v, h)
  | _ => (Raise TypeError, h)
  end.

Definition load2 (l : loc) : M matrix := λ h,
  match h !! l with
  | Some (Arr2 m) => (Ok m, h)
  | _ => (Raise TypeError, h)
  end.

Definition store (l : loc) (a : ndarray) : M unit := λ h, (Ok tt, <[l := a]> h).

(** [for x in xs: body x] *)
Fixpoint for_each {A} (xs : list A) (body : A → M unit) : M unit :=
  match xs with
  | [] => mret tt
  | x :: xs' => body x ;; for_each xs' body
  end.

(** ** numpy operations on stored arrays *)

(** [a.copy()] *)
Definition copy1 (a : loc) : M loc := v ← load1 a; alloc (Arr1 v).
Definition copy2 (a : loc) : M loc := m ← load2 a; alloc (Arr2 m).

(** [K[i, :] = c] *)
Definition setitem_row (K : loc) (i : Z) (c : R) : M unit :=
  m ← load2 K;
  r ← lift (np_index (length m) i);
  store K (Arr2 (alter (λ row : vector, (λ _, c) <$> row) r m)).

(** [K[:, j] = c] *)
Definition setitem_col (K : loc) (j : Z) (c : R) : M unit :=
  m ← load2 K;
  q ← lift (np_index (ncols m) j);
  store K (Arr2 ((λ row : vector, <[q := c]> row) <$> m)).

(** [K[i, j] = c] *)
Definition setitem2 (K : loc) (i j : Z) (c : R) : M unit :=
  m ← load2 K;
  r ← lift (np_index (length m) i);
  q ← lift (np_index (ncols m) j);
  store K (Arr2 (alter (λ row : vector, <[q := c]> row) r m)).

(** [K[i, j] += c] *)
Definition iadd2 (K : loc) (i j : Z) (c : R) : M unit :=
  m ← load2 K;
  r ← lift (np_index (length m) i);
  q ← lift (np_index (ncols m) j);
  store K (Arr2 (alter (λ row : vector, alter (λ x, x + c) q row) r m)).

(** [f[i] = c] *)
Definition setitem1 (f : loc) (i : Z) (c : R) : M unit :=
  v ← load1 f;
  r ← lift (np_index (length v) i);
  store f (Arr1 (<[r := c]> v)).

(** [f[[g1, g2]] += [c1, c2]]: numpy gathers [f[[g1, g2]]], adds, and
    writes the two sums back in order, so that for [g1 = g2] the second
    write wins and the entry grows by [c2] only. *)
Definition iadd_fancy (f : loc) (g : Z * Z) (c : R * R) : M unit :=
  v ← load1 f;
  r1 ← lift (np_index (length v) g.1);
  r2 ← lift (np_index (length v) g.2);
  store f (Arr1 (<[r2 := vget v r2 + c.2]> (<[r1 := vget v r1 + c.1]> v))).

(** [elems[i]] *)
Definition getitem_elem (elems : list conn_t) (i : Z) : outcome conn_t :=
  r ← np_index (length elems) i;
  match elems !! r with
  | Some conn => Ok conn
  | None => Raise IndexError
  end.

(** [nodes[g, :2]] for one index and [nodes[conn, :2]] for a row of
    [elems]. *)
Definition getitem_node (nodes : list (R * R)) (g : Z) : outcome (R * R) :=
  r ← np_index (length nodes) g;
  match nodes !! r with
  | Some p => Ok p
  | None => Raise IndexError
  end.

Definition take_coords (nodes : list (R * R)) (conn : conn_t) : outcome coords_t :=
  p0 ← getitem_node nodes conn.1.1;
  p1 ← getitem_node nodes conn.1.2;
  p2 ← getitem_node nodes conn.2;
  Ok (p0, p1, p2).

(** The dictionary [{1: [0, 1], 2: [1, 2], 3: [2, 0]}]. *)
Definition edge_table (edge_id : Z) : outcome (nat * nat) :=
  if decide (edge_id = 1%Z) then Ok (0%nat, 1%nat)
  else if decide (edge_id = 2%Z) then Ok (1%nat, 2%nat)
  else if decide (edge_id = 3%Z) then Ok (2%nat, 0%nat)
  else Raise KeyError.

Definition hypot (x y : R) : R := sqrt (x * x + y * y).

(** ** [assemble_global] *)

(** One entry of the coordinate-format lists [rows], [cols], [data]. *)
Abbreviation triplet := (Z * Z * R)%type.

(** The two nested [enumerate(conn)] loops of one element. *)
Definition element_triplets (conn : conn_t) (Ke : matrix) : list triplet :=
  '(i_local, i_global) ← enumerate3 conn;
  '(j_local, j_global) ← enumerate3 conn;
  [(i_global, j_global, mget Ke i_local j_local)].

(** The loop over the elements: [elems[e]] for [e] in [range(nelems)]
    never fails, [nodes[conn, :2]] may. *)
Fixpoint assemble_triplets (nodes : list (R * R)) (elems : list conn_t) (k : R)
  : outcome (list triplet) :=
  match elems with
  | [] => Ok []
  | conn :: rest =>
      coords ← take_coords nodes conn;
      let Ke := element_stiffness_triangle coords k in
      ts ← assemble_triplets nodes rest k;
      Ok (element_triplets conn Ke ++ ts)
  end.

Definition zeros2 (n c : nat) : matrix := replicate n (replicate c 0).

Definition add_triplet (m : matrix) (t : triplet) : matrix :=
  alter (λ row : vector, alter (λ x, x + t.2) (Z.to_nat t.1.2) row)
        (Z.to_nat t.1.1) m.

Definition triplet_in_range (n : nat) (t : triplet) : Prop :=
  (0 ≤ t.1.1 < Z.of_nat n)%Z ∧ (0 ≤ t.1.2 < Z.of_nat n)%Z.

#[global] Instance triplet_in_range_dec n t : Decision (triplet_in_range n t).
Proof. unfold triplet_in_range. apply _. Defined.

(** [sp.coo_matrix((data, (rows, cols)), shape=(n, n)).tocsr().toarray()]:
    scipy refuses an index outside [0, n) with a [ValueError], and entries
    with the same position are summed. *)
Definition coo_toarray (n : nat) (ts : list triplet) : outcome matrix :=
  if decide (Forall (triplet_in_range n) ts)
  then Ok (foldl add_triplet (zeros2 n n) ts)
  else Raise ValueError.

Definition assemble_global (nodes : list (R * R)) (elems : list conn_t) (k : R)
  : M loc :=
  let nnodes := length nodes in
  ts ← lift (assemble_triplets nodes elems k);
  K ← lift (coo_toarray nnodes ts);
  alloc (Arr2 K).

(** ** [apply_dirichlet] *)

Definition apply_dirichlet (K f : loc) (bc_nodes : list Z) (bc_values : list R)
  : M (loc * loc) :=
  f ← copy1 f;
  for_each (zip bc_nodes bc_values) (λ '(node, val),
    setitem_row K node 0;;
    setitem_col K node 0;;
    setitem2 K node node 1;;
    setitem1 f node val);;
  mret (K, f).

(** ** [apply_heat_flux] *)

(** A flux record [(elem_id, edge_id, q)]; the ids are integers, on which
    [int(...)] is the identity. *)
Abbreviation flux_bc := (Z * Z * R)%type.

Definition apply_heat_flux (f : loc) (nodes : list (R * R)) (elems : list conn_t)
    (heat_flux_bcs : list flux_bc) : M loc :=
  fmod ← copy1 f;
  for_each heat_flux_bcs (λ '(elem_id, edge_id, q),
    conn ← lift (getitem_elem elems elem_id);
    coords ← lift (take_coords nodes conn);
    edge_nodes ← lift (edge_table edge_id);
    let '(n1, n2) := edge_nodes in
    let '(x1, y1) := local coords n1 in
    let '(x2, y2) := local coords n2 in
    let L := hypot (x2 - x1) (y2 - y1) in
    let fe := (q * L / 2 * 1, q * L / 2 * 1) in
    iadd_fancy fmod (local conn n1, local conn n2) fe);;
  mret fmod.

(** ** [apply_convection] *)

(** A convection record [(elem_id, edge_id, h, Tinf)]. *)
Abbreviation conv_bc := (Z * Z * R * R)%type.

Definition apply_convection (K f : loc) (nodes : list (R * R))
    (elems : list conn_t) (conv_bcs : list conv_bc) : M (loc * loc) :=
  Kmod ← copy2 K;
  fmod ← copy1 f;
  for_each conv_bcs (λ '(elem_id, edge_id, h, Tinf),
    conn ← lift (getitem_elem elems elem_id);
    coords ← lift (take_coords nodes conn);
    edge_nodes ← lift (edge_table edge_id);
    let '(n1, n2) := edge_nodes in
    let '(x1, y1) := local coords n1 in
    let '(x2, y2) := local coords n2 in
    let L := hypot (x2 - x1) (y2 - y1) in
    let K := mscale (h * L / 6) [[2; 1]; [1; 2]] in
    let f := vscale (h * Tinf * L / 2) [1; 1] in
    iadd_fancy fmod (local conn n1, local conn n2) (vget f 0, vget f 1);;
    let '(gn1, gn2) := (local conn n1, local conn n2) in
    iadd2 Kmod gn1 gn1 (mget K 0 0);;
    iadd2 Kmod gn1 gn2 (mget K 0 1);;
    iadd2 Kmod gn2 gn1 (mget K 1 0);;
    iadd2 Kmod gn2 gn2 (mget K 1 1));;
  mret (Kmod, fmod).

(** ** [solve_system] and the script [main.py] *)

Section Solve.
(** [scipy.sparse.linalg.spsolve] is an external solver; the program only
    calls it. *)
Variable spsolve : matrix → vector → outcome vector.

Definition solve_system (K f : loc) : M vector :=
  Kv ← load2 K;
  fv ← load1 f;
  lift (spsolve Kv fv).
End Solve.

(** The boundary conditions read from the input file: [bcs['temperature']],
    [bcs['heat_flux']] and [bcs['convection']]. *)
Record bcs_t := {
  temperature : list (Z * R);
  heat_flux : list flux_bc;
  convection : list conv_bc
}.

(** [main.py] from the element loop (line 29) to the last boundary
    condition (line 46): the pair of objects bound to [Kmod] and [fmod]
    when [solve_system] is called. *)
Definition main_system (nodes : list (R * R)) (elems : list conn_t) (k : R)
    (bcs : bcs_t) : M (loc * loc) :=
  for_each elems (λ conn,
    coords ← lift (take_coords nodes conn);
    let Ke := element_stiffness_triangle coords k in
    mret tt);;
  K ← assemble_global nodes elems k;
  fmod ← alloc (Arr1 (replicate (length nodes) 0));
  let bc_nodes := (temperature bcs).*1 in
  let bc_values := (temperature bcs).*2 in
  let heat_flux_bcs := heat_flux bcs in
  let conv_bcs := convection bcs in
  fmod ← apply_heat_flux fmod nodes elems heat_flux_bcs;
  '(Kmod, fmod) ← apply_convection K fmod nodes elems conv_bcs;
  '(Kmod, fmod) ← apply_dirichlet K fmod bc_nodes bc_values;
  mret (Kmod, fmod).

Definition main (spsolve : matrix → vector → outcome vector)
    (nodes : list (R * R)) (elems : list conn_t) (k : R) (bcs : bcs_t)
  : M vector :=
  '(Kmod, fmod) ← main_system nodes elems k bcs;
  solve_system spsolve Kmod fmod.

(** ** Vocabulary of the specification *)

Definition Rsum (l : list R) : R := foldr Rplus 0 l.

(** 1 at position [g], 0 elsewhere. *)
Definition indicator (i g : nat) : R := if decide (i = g) then 1 else 0.

(** A valid index of an axis of size [n]: [0 <= g < n]. *)
Definition in_range (n : nat) (g : Z) : Prop := (0 ≤ g < Z.of_nat n)%Z.

(** Twice the signed area of an element. *)
Definition jacobian_det (c : coords_t) : R :=
  let '((x1, y1), (x2, y2), (x3, y3)) := c in
  det2 (x2 - x1) (x3 - x1) (y2 - y1) (y3 - y1).

(** The mesh invariant: every connectivity index is a node index and no
    element has zero area. *)
Definition valid_conn (nodes : list (R * R)) (conn : conn_t) : Prop :=
  in_range (length nodes) conn.1.1 ∧ in_range (length nodes) conn.1.2 ∧
  in_range (length nodes) conn.2 ∧
  ∀ c, take_coords nodes conn = Ok c → jacobian_det c ≠ 0.

Definition valid_mesh (nodes : list (R * R)) (elems : list conn_t) : Prop :=
  Forall (valid_conn nodes) elems.

(** Sum of row [i] of an [n]-column matrix. *)
Definition row_sum (m : matrix) (i : nat) : R := Rsum (default [] (m !! i)).

(** Dirichlet: the value of the last record, in processing order, that
    names node [p]. *)
Definition last_value (p : Z) (recs : list (Z * R)) : option R :=
  foldl (λ found r, if decide (r.1 = p) then Some r.2 else found) None recs.

(** Edges: the local edge map 1 -> (n0, n1), 2 -> (n1, n2), 3 -> (n2, n0)
    of element [elem_id], as global node ids. *)
Definition edge_endpoints (elems : list conn_t) (elem_id edge_id : Z)
  : option (Z * Z) :=
  match elems !! Z.to_nat elem_id with
  | Some (n0, n1, n2) =>
      if decide (edge_id = 1%Z) then Some (n0, n1)
      else if decide (edge_id = 2%Z) then Some (n1, n2)
      else if decide (edge_id = 3%Z) then Some (n2, n0)
      else None
  | None => None
  end.

(** Euclidean distance between nodes [g1] and [g2]. *)
Definition edge_length (nodes : list (R * R)) (g1 g2 : Z) : R :=
  let p := default (0, 0) (nodes !! Z.to_nat g1) in
  let q := default (0, 0) (nodes !! Z.to_nat g2) in
  sqrt ((q.1 - p.1) * (q.1 - p.1) + (q.2 - p.2) * (q.2 - p.2)).

(** What one flux record adds to entry [i] of the load vector: [q L / 2]
    at each of the two nodes of its edge. *)
Definition flux_contrib (nodes : list (R * R)) (elems : list conn_t)
    (r : flux_bc) (i : nat) : R :=
  let '(elem_id, edge_id, q) := r in
  match edge_endpoints elems elem_id edge_id with
  | Some (g1, g2) =>
      let L := edge_length nodes g1 g2 in
      q * L / 2 * indicator i (Z.to_nat g1) + q * L / 2 * indicator i (Z.to_nat g2)
  | None => 0
  end.

(** What one convection record adds to entry [(i, j)] of the matrix,
    [h L / 6 [[2, 1], [1, 2]]] scattered at the edge's nodes, and to entry
    [i] of the load vector, [h Tinf L / 2 [1, 1]]. *)
Definition conv_contrib_K (nodes : list (R * R)) (elems : list conn_t)
    (r : conv_bc) (i j : nat) : R :=
  let '(elem_id, edge_id, h, Tinf) := r in
  match edge_endpoints elems elem_id edge_id with
  | Some (g1, g2) =>
      let L := edge_length nodes g1 g2 in
      let a := Z.to_nat g1 in
      let b := Z.to_nat g2 in
      h * L / 6 * (2 * (indicator i a * indicator j a)
                   + 1 * (indicator i a * indicator j b)
                   + 1 * (indicator i b * indicator j a)
                   + 2 * (indicator i b * indicator j b))
  | None => 0
  end.

Definition conv_contrib_f (nodes : list (R * R)) (elems : list conn_t)
    (r : conv_bc) (i : nat) : R :=
  let '(elem_id, edge_id, h, Tinf) := r in
  match edge_endpoints elems elem_id edge_id with
  | Some (g1, g2) =>
      let L := edge_length nodes g1 g2 in
      h * Tinf * L / 2 * indicator i (Z.to_nat g1)
      + h * Tinf * L / 2 * indicator i (Z.to_nat g2)
  | None => 0
  end.

(** A record with a valid element id and an edge id in {1, 2, 3}. *)
Definition valid_edge_ref (elems : list conn_t) (elem_id edge_id : Z) : Prop :=
  in_range (length elems) elem_id ∧
  (edge_id = 1 ∨ edge_id = 2 ∨ edge_id = 3)%Z.

(** The store [h'] still holds every object of [h], unchanged. *)
Definition preserves (h h' : heap) : Prop :=
  ∀ l, (l < length h)%nat → h' !! l = h !! l.

(** A computation that changes no stored object except those at the
    locations in [S], and allocates nothing, however it ends. *)
Definition writes_only {A} (S : loc → Prop) (m : M A) : Prop :=
  ∀ h, length (m h).2 = length h ∧ ∀ l, ¬ S l → (m h).2 !! l = h !! l.


(** ** A small mesh for examples: the unit right triangle *)

Definition unit_triangle_nodes : list (R * R) := [(0, 0); (1, 0); (0, 1)].
Definition unit_triangle_elems : list conn_t := [(0, 1, 2)%Z].

(** What one coordinate-format entry contributes to entry [(i, j)] of the
    dense matrix, and to the sum of row [i]. *)
Definition triplet_at (i j : nat) (t : triplet) : R :=
  t.2 * (indicator i (Z.to_nat t.1.1) * indicator j (Z.to_nat t.1.2)).

Definition triplet_in_row (i : nat) (t : triplet) : R :=
  t.2 * indicator i (Z.to_nat t.1.1).

(** Boundary conditions on the unit triangle: node 2 held at 0, and
    convection with [h = 6], [Tinf = 10] on edge 1 (nodes 0 and 1, length
    1), so that [h L / 6 = 1]. *)
Definition robin_example_bcs : bcs_t :=
  {| temperature := [(2%Z, 0)];
     heat_flux := [];
     convection := [(0%Z, 1%Z, 6, 10)] |}.

(** ** Vocabulary for the further properties *)

(** The sum of [g 0], ..., [g (n-1)]. *)
Definition Rsum_upto (n : nat) (g : nat → R) : R := Rsum (g <$> seq 0 n).

(** The heat that one flux record puts into the domain: [q L]. *)
Definition flux_record_total (nodes : list (R * R)) (elems : list conn_t)
    (r : flux_bc) : R :=
  let '(elem_id, edge_id, q) := r in
  match edge_endpoints elems elem_id edge_id with
  | Some (g1, g2) => q * edge_length nodes g1 g2
  | None => 0
  end.

(** The index that numpy reads for [i] on an axis of size [n], when it
    accepts [i]: negative indices count from the end. *)
Definition wrap_index (n : nat) (i : Z) : Z :=
  if decide (- Z.of_nat n ≤ i < 0)%Z then (i + Z.of_nat n)%Z else i.

(** The three connectivity indices of an element are node indices. *)
Definition conn_in_range (n : nat) (conn : conn_t) : Prop :=
  in_range n conn.1.1 ∧ in_range n conn.1.2 ∧ in_range n conn.2.

(** [u . (m @ u)], the quadratic form of a square matrix. *)
Definition quad_form (m : matrix) (u : vector) : R := dot u (mat_vec m u).

(** What one coordinate-format entry contributes to the quadratic form. *)
Definition triplet_quad (u : vector) (t : triplet) : R :=
  t.2 * vget u (Z.to_nat t.1.1) * vget u (Z.to_nat t.1.2).

(** The objects [K] and [f] hold an [n x n] matrix and a vector of length
    [n]. *)
Definition system_shaped (n : nat) (K f : loc) (h : heap) : Prop :=
  ∃ m v, h !! K = Some (Arr2 m) ∧ h !! f = Some (Arr1 v) ∧
         length m = n ∧ ncols m = n ∧ length v = n.

(** A store primitive behaves on the wrapped index as on the index, and
    keeps the shapes. *)
Definition wraps_and_keeps_shape (n : nat) (K f : loc)
    (prim : Z → M unit) : Prop :=
  ∀ i h, system_shaped n K f h →
    prim (wrap_index n i) h = prim i h ∧
    ∀ h', prim i h = (Ok tt, h') → system_shaped n K f h'.

(** * [write_chimneyfile.py]: numbering of the mesh and boundary detection

    The mesh generator and the XML writer are external; what is embedded
    is the numbering of the generated mesh (the two list comprehensions at
    the end of [generate_rect_with_hole_mesh]) and [find_boundaries].  Ids
    in this file count from 1. *)

#[global] Instance Rlt_decision : RelDecision Rlt := Rlt_dec.
#[global] Instance Rle_decision : RelDecision Rle := Rle_dec.

(** A node [(nid, x, y)] and an element [(elem_id, n1, n2, n3)]. *)
Abbreviation node_t := (Z * R * R)%type.
Abbreviation element_t := (Z * Z * Z * Z)%type.

(** [[(i + 1, p[0], p[1]) for i, p in enumerate(mesh.points)]] *)
Definition number_nodes (points : list (R * R)) : list node_t :=
  imap (λ i p, (Z.of_nat i + 1, p.1, p.2)%Z) points.

(** [[(i + 1, tri[0]+1, tri[1]+1, tri[2]+1)
      for i, tri in enumerate(mesh.elements)]] *)
Definition number_elements (tris : list conn_t) : list element_t :=
  imap (λ i tri, (Z.of_nat i + 1, tri.1.1 + 1, tri.1.2 + 1, tri.2 + 1)%Z) tris.

(** [{nid: (x, y) for nid, x, y in nodes}]: a later node with the same id
    replaces an earlier one. *)
Definition make_node_dict (nodes : list node_t) : gmap Z (R * R) :=
  foldl (λ d nd, <[nd.1.1 := (nd.1.2, nd.2)]> d) ∅ nodes.

(** [node_dict[a]] *)
Definition getitem_dict (node_dict : gmap Z (R * R)) (a : Z) : outcome (R * R) :=
  match node_dict !! a with
  | Some p => Ok p
  | None => Raise KeyError
  end.

Definition TOL : R := 1e-8.

(** The dictionary [boundaries]. *)
Record boundaries_t := {
  outer_left : list (Z * Z);
  outer_right : list (Z * Z);
  outer_bottom : list (Z * Z);
  outer_top : list (Z * Z);
  inner_hole_edges : list (Z * Z);
  inner_hole_nodes : gset Z;
  outer_top_nodes : gset Z
}.

Definition empty_boundaries : boundaries_t :=
  {| outer_left := []; outer_right := []; outer_bottom := []; outer_top := [];
     inner_hole_edges := []; inner_hole_nodes := ∅; outer_top_nodes := ∅ |}.

(** [boundaries["outer_left"].append(e)] and its like. *)
Definition append_outer_left (e : Z * Z) (b : boundaries_t) : boundaries_t :=
  {| outer_left := outer_left b ++ [e]; outer_right := outer_right b;
     outer_bottom := outer_bottom b; outer_top := outer_top b;
     inner_hole_edges := inner_hole_edges b;
     inner_hole_nodes := inner_hole_nodes b;
     outer_top_nodes := outer_top_nodes b |}.

Definition append_outer_right (e : Z * Z) (b : boundaries_t) : boundaries_t :=
  {| outer_left := outer_left b; outer_right := outer_right b ++ [e];
     outer_bottom := outer_bottom b; outer_top := outer_top b;
     inner_hole_edges := inner_hole_edges b;
     inner_hole_nodes := inner_hole_nodes b;
     outer_top_nodes := outer_top_nodes b |}.

Definition append_outer_bottom (e : Z * Z) (b : boundaries_t) : boundaries_t :=
  {| outer_left := outer_left b; outer_right := outer_right b;
     outer_bottom := outer_bottom b ++ [e]; outer_top := outer_top b;
     inner_hole_edges := inner_hole_edges b;
     inner_hole_nodes := inner_hole_nodes b;
     outer_top_nodes := outer_top_nodes b |}.

Definition append_outer_top (e : Z * Z) (b : boundaries_t) : boundaries_t :=
  {| outer_left := outer_left b; outer_right := outer_right b;
     outer_bottom := outer_bottom b; outer_top := outer_top b ++ [e];
     inner_hole_edges := inner_hole_edges b;
     inner_hole_nodes := inner_hole_nodes b;
     outer_top_nodes := outer_top_nodes b |}.

Definition add_outer_top_node (a : Z) (b : boundaries_t) : boundaries_t :=
  {| outer_left := outer_left b; outer_right := outer_right b;
     outer_bottom := outer_bottom b; outer_top := outer_top b;
     inner_hole_edges := inner_hole_edges b;
     inner_hole_nodes := inner_hole_nodes b;
     outer_top_nodes := outer_top_nodes b ∪ {[a]} |}.

Definition add_inner_hole_node (a : Z) (b : boundaries_t) : boundaries_t :=
  {| outer_left := outer_left b; outer_right := outer_right b;
     outer_bottom := outer_bottom b; outer_top := outer_top b;
     inner_hole_edges := inner_hole_edges b;
     inner_hole_nodes := inner_hole_nodes b ∪ {[a]};
     outer_top_nodes := outer_top_nodes b |}.

(** The test on one end of an edge for the outline of the hole. *)
Definition on_hole_outline (w h : R) (x y : R) : Prop :=
  let hx0 := - w / 2 in let hx1 := w / 2 in
  let hy0 := - h / 2 in let hy1 := h / 2 in
  (Rabs (x - hx1) < TOL ∧ Rabs y <= hy1) ∨
  (Rabs (x - hx0) < TOL ∧ Rabs y <= hy1) ∨
  (Rabs (y - hy1) < TOL ∧ Rabs x <= hx1) ∨
  (Rabs (y - hy0) < TOL ∧ Rabs x <= hx1).

#[global] Instance on_hole_outline_dec w h x y : Decision (on_hole_outline w h x y).
Proof. unfold on_hole_outline. apply _. Defined.

(** [for x in xs: s = step(s, x)], with exceptions. *)
Fixpoint fold_outcome {A S} (step : S → A → outcome S) (xs : list A) (s : S)
  : outcome S :=
  match xs with
  | [] => Ok s
  | x :: xs' => s' ← step s x; fold_outcome step xs' s'
  end.

(** The body of the inner loop, for the edge [e_id] from [a] to [b]. *)
Definition visit_edge (node_dict : gmap Z (R * R)) (W H w h : R) (elem_id : Z)
    (boundaries : boundaries_t) (edge : Z * (Z * Z)) : outcome boundaries_t :=
  let x_left := - W / 2 in let x_right := W / 2 in
  let y_bottom := - H / 2 in let y_top := H / 2 in
  let '(e_id, (a, b)) := edge in
  pa ← getitem_dict node_dict a;
  pb ← getitem_dict node_dict b;
  let '(xa, ya) := pa in
  let '(xb, yb) := pb in
  let boundaries :=
    if decide (Rabs (xa - x_left) < TOL ∧ Rabs (xb - x_left) < TOL)
    then append_outer_left (elem_id, e_id) boundaries else boundaries in
  let boundaries :=
    if decide (Rabs (xa - x_right) < TOL ∧ Rabs (xb - x_right) < TOL)
    then append_outer_right (elem_id, e_id) boundaries else boundaries in
  let boundaries :=
    if decide (Rabs (ya - y_bottom) < TOL ∧ Rabs (yb - y_bottom) < TOL)
    then append_outer_bottom (elem_id, e_id) boundaries else boundaries in
  let boundaries :=
    if decide (Rabs (ya - y_top) < TOL ∧ Rabs (yb - y_top) < TOL)
    then add_outer_top_node b
           (add_outer_top_node a (append_outer_top (elem_id, e_id) boundaries))
    else boundaries in
  let boundaries :=
    if decide (on_hole_outline w h xa ya)
    then add_inner_hole_node a boundaries else boundaries in
  let boundaries :=
    if decide (on_hole_outline w h xb yb)
    then add_inner_hole_node b boundaries else boundaries in
  Ok boundaries.

(** The body of the outer loop. *)
Definition visit_element (node_dict : gmap Z (R * R)) (W H w h : R)
    (boundaries : boundaries_t) (el : element_t) : outcome boundaries_t :=
  let '(elem_id, n1, n2, n3) := el in
  let edge_map := [(1%Z, (n1, n2)); (2%Z, (n2, n3)); (3%Z, (n3, n1))] in
  fold_outcome (visit_edge node_dict W H w h elem_id) edge_map boundaries.

Definition find_boundaries (nodes : list node_t) (elements : list element_t)
    (W H w h : R) : outcome boundaries_t :=
  let node_dict := make_node_dict nodes in
  fold_outcome (visit_element node_dict W H w h) elements empty_boundaries.

(** ** Vocabulary for the boundary detection *)

(** The edges of the elements in the order of the two loops:
    [(elem_id, e_id, a, b)]. *)
Definition all_edges (elements : list element_t) : list (Z * Z * Z * Z) :=
  el ← elements;
  let '(elem_id, n1, n2, n3) := el in
  [(elem_id, 1%Z, n1, n2); (elem_id, 2%Z, n2, n3); (elem_id, 3%Z, n3, n1)].

(** Coordinates of a node that is in the dictionary. *)
Definition node_xy (node_dict : gmap Z (R * R)) (a : Z) : R * R :=
  default (0, 0) (node_dict !! a).

(** Both ends of an edge have their [x] (or [y]) within [TOL] of a
    line. *)
Definition edge_on_x (node_dict : gmap Z (R * R)) (x0 : R)
    (e : Z * Z * Z * Z) : Prop :=
  Rabs ((node_xy node_dict e.1.2).1 - x0) < TOL ∧
  Rabs ((node_xy node_dict e.2).1 - x0) < TOL.

Definition edge_on_y (node_dict : gmap Z (R * R)) (y0 : R)
    (e : Z * Z * Z * Z) : Prop :=
  Rabs ((node_xy node_dict e.1.2).2 - y0) < TOL ∧
  Rabs ((node_xy node_dict e.2).2 - y0) < TOL.

#[global] Instance edge_on_x_dec nd x0 e : Decision (edge_on_x nd x0 e).
Proof. unfold edge_on_x. apply _. Defined.

#[global] Instance edge_on_y_dec nd y0 e : Decision (edge_on_y nd y0 e).
Proof. unfold edge_on_y. apply _. Defined.

(** The pair [(elem_id, e_id)] recorded for an edge. *)
Definition edge_label (e : Z * Z * Z * Z) : Z * Z := (e.1.1.1, e.1.1.2).

(** The ids that occur in [nodes]. *)
Definition node_ids (nodes : list node_t) : list Z := (λ nd, nd.1.1) <$> nodes.

Definition element_refs_known (ids : list Z) (el : element_t) : Prop :=
  el.1.1.2 ∈ ids ∧ el.1.2 ∈ ids ∧ el.2 ∈ ids.

(** What the two loops have recorded once they have gone through the
    edges [es]. *)
Definition records_edges (node_dict : gmap Z (R * R)) (W H w h : R)
    (es : list (Z * Z * Z * Z)) (b : boundaries_t) : Prop :=
  outer_left b = edge_label <$> filter (edge_on_x node_dict (- W / 2)) es ∧
  outer_right b = edge_label <$> filter (edge_on_x node_dict (W / 2)) es ∧
  outer_bottom b = edge_label <$> filter (edge_on_y node_dict (- H / 2)) es ∧
  outer_top b = edge_label <$> filter (edge_on_y node_dict (H / 2)) es ∧
  inner_hole_edges b = [] ∧
  (∀ a, a ∈ outer_top_nodes b ↔
        ∃ e, e ∈ es ∧ edge_on_y node_dict (H / 2) e ∧ (a = e.1.2 ∨ a = e.2)) ∧
  (∀ a, a ∈ inner_hole_nodes b ↔
        ∃ e, e ∈ es ∧ (a = e.1.2 ∨ a = e.2) ∧
             on_hole_outline w h (node_xy node_dict a).1 (node_xy node_dict a).2).

(** The edges of one element, as [all_edges] lists them. *)
Definition element_edges (el : element_t) : list (Z * Z * Z * Z) :=
  let '(elem_id, n1, n2, n3) := el in
  [(elem_id, 1%Z, n1, n2); (elem_id, 2%Z, n2, n3); (elem_id, 3%Z, n3, n1)].

(** [a] is one of the three node ids of some element. *)
Definition element_node (elements : list element_t) (a : Z) : Prop :=
  ∃ el, el ∈ elements ∧ (a = el.1.1.2 ∨ a = el.1.2 ∨ a = el.2).

(** The ids of the elements. *)
Definition element_ids (elements : list element_t) : list Z :=
  (λ el, el.1.1.1) <$> elements.

(** A pair [(elem_id, e_id)] of a mesh with [m] elements, counted from 1. *)
Definition label_in_range (m : nat) (l : Z * Z) : Prop :=
  (1 ≤ l.1 ≤ Z.of_nat m)%Z ∧ (1 ≤ l.2 ≤ 3)%Z.

(** The frame of side 2 with a hole of side 1 cut into eight triangles,
    numbered the way the generator lists its points: the four corners of
    the rectangle, then the four corners of the hole. *)
Definition frame_points : list (R * R) :=
  [(-1, -1); (1, -1); (1, 1); (-1, 1);
   (-1/2, -1/2); (1/2, -1/2); (1/2, 1/2); (-1/2, 1/2)].

Definition frame_tris : list conn_t :=
  [(0, 1, 5); (0, 5, 4); (1, 2, 6); (1, 6, 5);
   (2, 3, 7); (2, 7, 6); (3, 0, 4); (3, 4, 7)]%Z.

#[global] Instance element_refs_known_dec ids el : Decision (element_refs_known ids el).
Proof. unfold element_refs_known. apply _. Defined.

(** * Properties *)

(** ** Arithmetic and array lemmas *)

Lemma half_eq : 0.5 = 1 / 2.
Proof. unfold Q2R. cbn. lra. Qed.

Lemma indicator_eq i : indicator i i = 1.
Proof. unfold indicator. case_decide; [reflexivity | congruence]. Qed.

Lemma indicator_ne i g : i ≠ g → indicator i g = 0.
Proof. unfold indicator. case_decide; [congruence | reflexivity]. Qed.

Lemma Rsum_cons x (l : list R) : Rsum (x :: l) = x + Rsum l.
Proof. reflexivity. Qed.

Lemma Rsum_app (l1 l2 : list R) : Rsum (l1 ++ l2) = Rsum l1 + Rsum l2.
Proof.
  unfold Rsum. induction l1 as [|x l1 IH]; simpl; [lra|].
  rewrite IH. lra.
Qed.

Lemma vget_lookup (v : vector) i x : v !! i = Some x → vget v i = x.
Proof. unfold vget. intros ->. reflexivity. Qed.

Lemma vget_ge (v : vector) i : (length v ≤ i)%nat → vget v i = 0.
Proof. unfold vget. intros H. rewrite lookup_ge_None_2; [reflexivity | lia]. Qed.

Lemma vget_insert (v : vector) r x i :
  (r < length v)%nat →
  vget (<[r := x]> v) i = if decide (i = r) then x else vget v i.
Proof.
  intros Hr. unfold vget. case_decide as E.
  - subst. rewrite list_lookup_insert_eq; [reflexivity | assumption].
  - rewrite list_lookup_insert_ne; [reflexivity | congruence].
Qed.

Lemma vget_alter (g : R → R) (v : vector) r i :
  (r < length v)%nat →
  vget (alter g r v) i = if decide (i = r) then g (vget v r) else vget v i.
Proof.
  intros Hr. unfold vget. rewrite list_lookup_alter.
  destruct (lookup_lt_is_Some_2 v r Hr) as [x Hx].
  repeat case_decide; subst; try congruence.
  rewrite Hx. reflexivity.
Qed.

Lemma vget_const (c : R) (v : vector) i :
  (i < length v)%nat → vget ((λ _, c) <$> v) i = c.
Proof.
  intros Hi. unfold vget. rewrite list_lookup_fmap.
  destruct (lookup_lt_is_Some_2 v i Hi) as [x ->]. reflexivity.
Qed.

Lemma vget_replicate n c i : (i < n)%nat → vget (replicate n c) i = c.
Proof. intros Hi. apply vget_lookup, lookup_replicate_2, Hi. Qed.

Lemma mget_row (m : matrix) i row j : m !! i = Some row → mget m i j = vget row j.
Proof. unfold mget. intros ->. reflexivity. Qed.

Lemma mget_alter (g : vector → vector) (m : matrix) r i j :
  (r < length m)%nat →
  mget (alter g r m) i j =
    if decide (i = r) then vget (g (default [] (m !! r))) j else mget m i j.
Proof.
  intros Hr. unfold mget. rewrite list_lookup_alter.
  destruct (lookup_lt_is_Some_2 m r Hr) as [x Hx].
  repeat case_decide; subst; try congruence.
  rewrite Hx. reflexivity.
Qed.

Lemma mget_fmap (g : vector → vector) (m : matrix) i j :
  (i < length m)%nat →
  mget (g <$> m) i j = vget (g (default [] (m !! i))) j.
Proof.
  intros Hi. unfold mget. rewrite list_lookup_fmap.
  destruct (lookup_lt_is_Some_2 m i Hi) as [x ->]. reflexivity.
Qed.

(** Shapes. *)

Lemma has_shape_row n c (m : matrix) i :
  has_shape n c m → (i < n)%nat → ∃ row, m !! i = Some row ∧ length row = c.
Proof.
  intros [Hn Hc] Hi.
  destruct (lookup_lt_is_Some_2 m i) as [row Hrow]; [lia|].
  exists row. split; [assumption|].
  eapply (Forall_lookup_1 _ _ _ _ Hc Hrow).
Qed.

Lemma has_shape_ncols n c (m : matrix) :
  has_shape n c m → (0 < n)%nat → ncols m = c.
Proof.
  intros [Hn Hc] Hpos. destruct m as [|r m]; [cbn in Hn; lia|].
  cbn. by inversion Hc.
Qed.

Lemma has_shape_alter n c (g : vector → vector) r (m : matrix) :
  (∀ row, length (g row) = length row) →
  has_shape n c m → has_shape n c (alter g r m).
Proof.
  intros Hg [Hn Hc]. split; [by rewrite length_alter|].
  apply Forall_alter; [assumption|]. intros row Hrow. by rewrite Hg.
Qed.

Lemma has_shape_fmap n c (g : vector → vector) (m : matrix) :
  (∀ row, length (g row) = length row) →
  has_shape n c m → has_shape n c (g <$> m).
Proof.
  intros Hg [Hn Hc]. split; [by rewrite length_fmap|].
  apply Forall_fmap. eapply List.Forall_impl; [|exact Hc].
  intros row Hrow. unfold compose. by rewrite Hg.
Qed.

Lemma has_shape_zeros2 n c : has_shape n c (zeros2 n c).
Proof.
  split; [apply length_replicate|].
  apply Forall_replicate. apply length_replicate.
Qed.

Lemma np_index_in_range n g :
  in_range n g → np_index n g = Ok (Z.to_nat g) ∧ (Z.to_nat g < n)%nat.
Proof.
  unfold in_range, np_index. intros H.
  rewrite decide_True by assumption. split; [reflexivity | lia].
Qed.

(** ** The element stiffness matrix *)

(** The nine entries of [k * area * (B.T @ B)], written out. *)
Lemma element_stiffness_closed_form x1 y1 x2 y2 x3 y3 k :
  let d := det2 (x2 - x1) (x3 - x1) (y2 - y1) (y3 - y1) in
  let c := k * (0.5 * Rabs d) * (1 / d) * (1 / d) in
  let g (p q r s : R) := c * (p * q + r * s) in
  let b1 := y2 - y3 in let b2 := y3 - y1 in let b3 := y1 - y2 in
  let c1 := x3 - x2 in let c2 := x1 - x3 in let c3 := x2 - x1 in
  element_stiffness_triangle ((x1, y1), (x2, y2), (x3, y3)) k =
  [[g b1 b1 c1 c1; g b1 b2 c1 c2; g b1 b3 c1 c3];
   [g b2 b1 c2 c1; g b2 b2 c2 c2; g b2 b3 c2 c3];
   [g b3 b1 c3 c1; g b3 b2 c3 c2; g b3 b3 c3 c3]].
Proof.
  intros. unfold element_stiffness_triangle, shape_gradients. cbn.
  fold d. subst g c b1 b2 b3 c1 c2 c3. cbv beta.
  repeat (f_equal; try ring).
Qed.

Lemma element_stiffness_symmetric (c : coords_t) k i j :
  (i < 3)%nat → (j < 3)%nat →
  mget (element_stiffness_triangle c k) i j
  = mget (element_stiffness_triangle c k) j i.
Proof.
  destruct c as [[[x1 y1] [x2 y2]] [x3 y3]]. intros Hi Hj.
  rewrite element_stiffness_closed_form. cbv zeta.
  destruct i as [|[|[|i]]]; [| | |lia];
    (destruct j as [|[|[|j]]]; [| | |lia]); cbn; ring.
Qed.

(** [B] annihilates the constant vector, so every row of the element
    matrix sums to zero. *)
Lemma element_stiffness_row_sum (c : coords_t) k i :
  (i < 3)%nat →
  mget (element_stiffness_triangle c k) i 0
  + mget (element_stiffness_triangle c k) i 1
  + mget (element_stiffness_triangle c k) i 2 = 0.
Proof.
  destruct c as [[[x1 y1] [x2 y2]] [x3 y3]]. intros Hi.
  rewrite element_stiffness_closed_form. cbv zeta.
  destruct i as [|[|[|i]]]; [| | |lia]; cbn; ring.
Qed.



Lemma unit_triangle_stiffness :
  element_stiffness_triangle ((0, 0), (1, 0), (0, 1)) 1 =
  [[1; - (1 / 2); - (1 / 2)]; [- (1 / 2); 1 / 2; 0]; [- (1 / 2); 0; 1 / 2]].
Proof.
  rewrite element_stiffness_closed_form. cbv zeta.
  replace (det2 (1 - 0) (0 - 0) (0 - 0) (1 - 0)) with 1 by (unfold det2; lra).
  rewrite Rabs_R1, half_eq.
  repeat (f_equal; try lra).
Qed.



(** ** Running computations in the store *)

Lemma run_bind {A B} (m : M A) (k : A → M B) h a h' :
  m h = (Ok a, h') → (m ≫= k) h = k a h'.
Proof. intros E. unfold mbind, M_bind. rewrite E. reflexivity. Qed.

Lemma run_bind_raise {A B} (m : M A) (k : A → M B) h e h' :
  m h = (Raise e, h') → (m ≫= k) h = (Raise e, h').
Proof. intros E. unfold mbind, M_bind. rewrite E. reflexivity. Qed.

Lemma run_lift {A B} (o : outcome A) (k : A → M B) h a :
  o = Ok a → (lift o ≫= k) h = k a h.
Proof. intros ->. reflexivity. Qed.

Lemma run_lift_raise {A B} (o : outcome A) (k : A → M B) h e :
  o = Raise e → (lift o ≫= k) h = (Raise e, h).
Proof. intros ->. reflexivity. Qed.

Lemma load1_run h l v : h !! l = Some (Arr1 v) → load1 l h = (Ok v, h).
Proof. unfold load1. intros ->. reflexivity. Qed.

Lemma load2_run h l m : h !! l = Some (Arr2 m) → load2 l h = (Ok m, h).
Proof. unfold load2. intros ->. reflexivity. Qed.

Lemma copy1_run h l v :
  h !! l = Some (Arr1 v) → copy1 l h = (Ok (length h), h ++ [Arr1 v]).
Proof.
  intros E. unfold copy1. rewrite (run_bind _ _ _ _ _ (load1_run _ _ _ E)).
  reflexivity.
Qed.

Lemma copy2_run h l m :
  h !! l = Some (Arr2 m) → copy2 l h = (Ok (length h), h ++ [Arr2 m]).
Proof.
  intros E. unfold copy2. rewrite (run_bind _ _ _ _ _ (load2_run _ _ _ E)).
  reflexivity.
Qed.

Lemma lookup_fresh (h : heap) a : (h ++ [a]) !! length h = Some a.
Proof. rewrite lookup_app_r by lia. by rewrite Nat.sub_diag. Qed.

Lemma insert_fresh (h : heap) a b : <[length h := b]> (h ++ [a]) = h ++ [b].
Proof.
  rewrite insert_app_r_alt by lia. by rewrite Nat.sub_diag.
Qed.

(** Two objects that are both rewritten, several times. *)
Lemma insert_two_twice (h : heap) K f a b a' b' :
  K ≠ f →
  <[f := b']> (<[K := a']> (<[f := b]> (<[K := a]> h)))
  = <[f := b']> (<[K := a']> h).
Proof.
  intros Hne.
  rewrite (list_insert_insert_ne _ K f a' b) by assumption.
  by rewrite !list_insert_insert_eq.
Qed.

(** *** The store primitives on well-shaped arrays *)

Section Primitives.
Context (n : nat) (h : heap) (K : loc) (Kv : matrix).
Hypothesis HK : h !! K = Some (Arr2 Kv).
Hypothesis Hshape : has_shape n n Kv.

Lemma setitem_row_run i c :
  in_range n i →
  setitem_row K i c h =
  (Ok tt, <[K := Arr2 (alter (λ row : vector, (λ _, c) <$> row) (Z.to_nat i) Kv)]> h).
Proof.
  intros Hi. destruct (np_index_in_range _ _ Hi) as [E _].
  unfold setitem_row. rewrite (run_bind _ _ _ _ _ (load2_run _ _ _ HK)).
  destruct Hshape as [-> _]. rewrite (run_lift _ _ _ _ E). reflexivity.
Qed.

Lemma setitem_col_run j c :
  in_range n j →
  setitem_col K j c h =
  (Ok tt, <[K := Arr2 ((λ row : vector, <[Z.to_nat j := c]> row) <$> Kv)]> h).
Proof.
  intros Hj. destruct (np_index_in_range _ _ Hj) as [E Hlt].
  unfold setitem_col. rewrite (run_bind _ _ _ _ _ (load2_run _ _ _ HK)).
  rewrite (has_shape_ncols n n) by (assumption || lia).
  rewrite (run_lift _ _ _ _ E). reflexivity.
Qed.

Lemma setitem2_run i j c :
  in_range n i → in_range n j →
  setitem2 K i j c h =
  (Ok tt, <[K := Arr2 (alter (λ row : vector, <[Z.to_nat j := c]> row)
                         (Z.to_nat i) Kv)]> h).
Proof.
  intros Hi Hj. destruct (np_index_in_range _ _ Hi) as [Ei _].
  destruct (np_index_in_range _ _ Hj) as [Ej Hlt].
  unfold setitem2. rewrite (run_bind _ _ _ _ _ (load2_run _ _ _ HK)).
  rewrite (has_shape_ncols n n) by (assumption || lia).
  destruct Hshape as [-> _].
  rewrite (run_lift _ _ _ _ Ei), (run_lift _ _ _ _ Ej). reflexivity.
Qed.

Lemma iadd2_run i j c :
  in_range n i → in_range n j →
  iadd2 K i j c h =
  (Ok tt, <[K := Arr2 (alter (λ row : vector, alter (λ x, x + c) (Z.to_nat j) row)
                         (Z.to_nat i) Kv)]> h).
Proof.
  intros Hi Hj. destruct (np_index_in_range _ _ Hi) as [Ei _].
  destruct (np_index_in_range _ _ Hj) as [Ej Hlt].
  unfold iadd2. rewrite (run_bind _ _ _ _ _ (load2_run _ _ _ HK)).
  rewrite (has_shape_ncols n n) by (assumption || lia).
  destruct Hshape as [-> _].
  rewrite (run_lift _ _ _ _ Ei), (run_lift _ _ _ _ Ej). reflexivity.
Qed.
End Primitives.

Lemma setitem1_run n h f fv i c :
  h !! f = Some (Arr1 fv) → length fv = n → in_range n i →
  setitem1 f i c h = (Ok tt, <[f := Arr1 (<[Z.to_nat i := c]> fv)]> h).
Proof.
  intros Hf Hn Hi. destruct (np_index_in_range _ _ Hi) as [E _].
  unfold setitem1. rewrite (run_bind _ _ _ _ _ (load1_run _ _ _ Hf)).
  rewrite Hn, (run_lift _ _ _ _ E). reflexivity.
Qed.

Lemma iadd_fancy_run n h f fv g1 g2 c1 c2 :
  h !! f = Some (Arr1 fv) → length fv = n → in_range n g1 → in_range n g2 →
  iadd_fancy f (g1, g2) (c1, c2) h =
  (Ok tt, <[f := Arr1 (<[Z.to_nat g2 := vget fv (Z.to_nat g2) + c2]>
                        (<[Z.to_nat g1 := vget fv (Z.to_nat g1) + c1]> fv))]> h).
Proof.
  intros Hf Hn H1 H2. destruct (np_index_in_range _ _ H1) as [E1 _].
  destruct (np_index_in_range _ _ H2) as [E2 _].
  unfold iadd_fancy. rewrite (run_bind _ _ _ _ _ (load1_run _ _ _ Hf)).
  rewrite Hn. cbn [fst snd].
  rewrite (run_lift _ _ _ _ E1), (run_lift _ _ _ _ E2). reflexivity.
Qed.

(** *** Entries after an update *)

Section Entries.
Context (n : nat) (Kv : matrix).
Hypothesis Hshape : has_shape n n Kv.

Lemma mget_row_const p c i j :
  (p < n)%nat → (i < n)%nat → (j < n)%nat →
  mget (alter (λ row : vector, (λ _, c) <$> row) p Kv) i j
  = if decide (i = p) then c else mget Kv i j.
Proof.
  intros Hp Hi Hj. rewrite mget_alter by (destruct Hshape; lia).
  case_decide; [|reflexivity]. subst i.
  destruct (has_shape_row _ _ _ _ Hshape Hp) as (row & -> & Hlen).
  cbn. apply vget_const. lia.
Qed.

Lemma mget_col_set q c i j :
  (q < n)%nat → (i < n)%nat → (j < n)%nat →
  mget ((λ row : vector, <[q := c]> row) <$> Kv) i j
  = if decide (j = q) then c else mget Kv i j.
Proof.
  intros Hq Hi Hj. rewrite mget_fmap by (destruct Hshape; lia).
  destruct (has_shape_row _ _ _ _ Hshape Hi) as (row & E & Hlen).
  rewrite (mget_row _ _ _ _ E), E. cbn.
  apply vget_insert. lia.
Qed.

Lemma mget_entry_set p q c i j :
  (p < n)%nat → (q < n)%nat → (i < n)%nat → (j < n)%nat →
  mget (alter (λ row : vector, <[q := c]> row) p Kv) i j
  = if decide (i = p ∧ j = q) then c else mget Kv i j.
Proof.
  intros Hp Hq Hi Hj. rewrite mget_alter by (destruct Hshape; lia).
  destruct (has_shape_row _ _ _ _ Hshape Hp) as (row & E & Hlen).
  repeat case_decide; subst; try tauto.
  - destruct_and!. subst. rewrite E. cbn. rewrite vget_insert by lia.
    by rewrite decide_True.
  - rewrite E. cbn. rewrite vget_insert by lia.
    rewrite decide_False by tauto. symmetry. by apply mget_row.
Qed.

Lemma mget_entry_add p q c i j :
  (p < n)%nat → (q < n)%nat → (i < n)%nat → (j < n)%nat →
  mget (alter (λ row : vector, alter (λ x, x + c) q row) p Kv) i j
  = mget Kv i j + c * (indicator i p * indicator j q).
Proof.
  intros Hp Hq Hi Hj. rewrite mget_alter by (destruct Hshape; lia).
  destruct (has_shape_row _ _ _ _ Hshape Hp) as (row & E & Hlen).
  unfold indicator. repeat case_decide; subst; try lra.
  - rewrite E. cbn. rewrite vget_alter by lia. rewrite decide_True by done.
    rewrite (mget_row _ _ _ _ E). lra.
  - rewrite E. cbn. rewrite vget_alter by lia. rewrite decide_False by done.
    rewrite (mget_row _ _ _ _ E). lra.
Qed.
End Entries.

(** ** Dirichlet elimination *)

Lemma typed_distinct (h : heap) K f Kv fv :
  h !! K = Some (Arr2 Kv) → h !! f = Some (Arr1 fv) → K ≠ f.
Proof. intros HK Hf ->. congruence. Qed.

(** One record: row and column [p] become the unit vector, and
    [f[p]] the prescribed value. *)
Lemma dirichlet_record_run n h K f Kv fv node val :
  h !! K = Some (Arr2 Kv) → h !! f = Some (Arr1 fv) →
  has_shape n n Kv → length fv = n → in_range n node →
  ∃ Kv1 fv1,
    (setitem_row K node 0;; setitem_col K node 0;;
     setitem2 K node node 1;; setitem1 f node val) h
    = (Ok tt, <[f := Arr1 fv1]> (<[K := Arr2 Kv1]> h)) ∧
    has_shape n n Kv1 ∧ length fv1 = n ∧
    (∀ i j, (i < n)%nat → (j < n)%nat →
       mget Kv1 i j = if decide (i = Z.to_nat node ∨ j = Z.to_nat node)
                      then indicator i j else mget Kv i j) ∧
    (∀ i, (i < n)%nat →
       vget fv1 i = if decide (i = Z.to_nat node) then val else vget fv i).
Proof.
  intros HK Hf Hshape Hlen Hnode.
  pose proof (typed_distinct _ _ _ _ _ HK Hf) as Hne.
  pose proof (lookup_lt_Some _ _ _ HK) as HKlt.
  destruct (np_index_in_range _ _ Hnode) as [_ Hp].
  set (p := Z.to_nat node) in *.
  set (A1 := alter (λ row : vector, (λ _, 0) <$> row) p Kv).
  set (A2 := (λ row : vector, <[p := 0]> row) <$> A1).
  set (A3 := alter (λ row : vector, <[p := 1]> row) p A2).
  assert (S1 : has_shape n n A1).
  { apply has_shape_alter; [|assumption]. intros. apply length_fmap. }
  assert (S2 : has_shape n n A2).
  { apply has_shape_fmap; [|assumption]. intros. apply length_insert. }
  assert (S3 : has_shape n n A3).
  { apply has_shape_alter; [|assumption]. intros. apply length_insert. }
  exists A3, (<[p := val]> fv).
  split; [|split; [assumption|split; [by rewrite length_insert|split]]].
  - rewrite (run_bind _ _ _ _ _ (setitem_row_run n h K Kv HK Hshape node 0 Hnode)).
    fold p A1.
    rewrite (run_bind _ _ _ _ _
      (setitem_col_run n _ K A1 (list_lookup_insert_eq _ _ _ HKlt) S1 node 0 Hnode)).
    rewrite list_insert_insert_eq. fold p A2.
    rewrite (run_bind _ _ _ _ _
      (setitem2_run n _ K A2 (list_lookup_insert_eq _ _ _ HKlt) S2 node node 1
         Hnode Hnode)).
    rewrite list_insert_insert_eq. fold p A3.
    apply (setitem1_run n); [|assumption..].
    by rewrite list_lookup_insert_ne.
  - intros i j Hi Hj. unfold A3.
    rewrite (mget_entry_set n A2 S2) by assumption. unfold A2.
    rewrite (mget_col_set n A1 S1) by assumption. unfold A1.
    rewrite (mget_row_const n Kv Hshape) by assumption.
    unfold indicator. repeat case_decide; subst; try reflexivity; try tauto; try lia.
    all: destruct_and?; destruct_or?; subst; try congruence; try tauto.
  - intros i Hi. apply vget_insert. lia.
Qed.

Lemma last_value_acc p (recs : list (Z * R)) acc :
  foldl (λ found r, if decide (r.1 = p) then Some r.2 else found) acc recs
  = match last_value p recs with Some w => Some w | None => acc end.
Proof.
  unfold last_value. revert acc.
  induction recs as [|[q v] recs IH]; intros acc; [reflexivity|].
  cbn [foldl]. rewrite IH. rewrite (IH (if decide _ then _ else None)).
  destruct (foldl _ None recs); [reflexivity|].
  cbn. case_decide; reflexivity.
Qed.

Lemma last_value_cons p q v (recs : list (Z * R)) :
  last_value p ((q, v) :: recs)
  = match last_value p recs with
    | Some w => Some w
    | None => if decide (q = p) then Some v else None
    end.
Proof. unfold last_value at 1. cbn [foldl]. apply last_value_acc. Qed.

Lemma last_value_named p (recs : list (Z * R)) :
  p ∈ recs.*1 ↔ is_Some (last_value p recs).
Proof.
  induction recs as [|[q v] recs IH].
  - cbn. split; [by intros ?%elem_of_nil | by intros []].
  - rewrite last_value_cons. cbn. rewrite elem_of_cons, IH.
    destruct (last_value p recs) as [w|].
    + split; [eauto | right; eauto].
    + case_decide; subst.
      * split; [eauto | by left].
      * split; [intros [|[]]; congruence | by intros []].
Qed.

Section DirichletLoop.
Context (n : nat) (h : heap) (K f : loc).
Hypothesis Hne : K ≠ f.
Hypothesis HK : (K < length h)%nat.
Hypothesis Hf : (f < length h)%nat.

Let body : Z * R → M unit := λ '(node, val),
  setitem_row K node 0;; setitem_col K node 0;;
  setitem2 K node node 1;; setitem1 f node val.

Lemma dirichlet_loop_run (recs : list (Z * R)) : ∀ Kv fv,
  has_shape n n Kv → length fv = n →
  Forall (λ r, in_range n r.1) recs →
  ∃ Kv' fv',
    for_each recs body (<[f := Arr1 fv]> (<[K := Arr2 Kv]> h))
    = (Ok tt, <[f := Arr1 fv']> (<[K := Arr2 Kv']> h)) ∧
    has_shape n n Kv' ∧ length fv' = n ∧
    (∀ i j, (i < n)%nat → (j < n)%nat →
       Z.of_nat i ∈ recs.*1 ∨ Z.of_nat j ∈ recs.*1 →
       mget Kv' i j = indicator i j) ∧
    (∀ i j, (i < n)%nat → (j < n)%nat →
       Z.of_nat i ∉ recs.*1 → Z.of_nat j ∉ recs.*1 →
       mget Kv' i j = mget Kv i j) ∧
    (∀ i, (i < n)%nat →
       vget fv' i = default (vget fv i) (last_value (Z.of_nat i) recs)).
Proof.
  induction recs as [|[node val] recs IH]; intros Kv fv Hshape Hlen Hall.
  - exists Kv, fv. cbn [for_each fmap list_fmap].
    split; [|split; [done|split; [done|split; [|split]]]].
    + reflexivity.
    + intros i j _ _ [[]%elem_of_nil|[]%elem_of_nil].
    + reflexivity.
    + reflexivity.
  - destruct (Forall_cons_1 _ _ _ Hall) as [Hnode Hall']. cbn in Hnode.
    clear Hall. rename Hall' into Hall.
    set (h0 := <[f := Arr1 fv]> (<[K := Arr2 Kv]> h)).
    assert (HK0 : h0 !! K = Some (Arr2 Kv)).
    { unfold h0. rewrite list_lookup_insert_ne by congruence.
      by apply list_lookup_insert_eq. }
    assert (Hf0 : h0 !! f = Some (Arr1 fv)).
    { unfold h0. apply list_lookup_insert_eq. by rewrite length_insert. }
    destruct (dirichlet_record_run n h0 K f Kv fv node val HK0 Hf0
                Hshape Hlen Hnode)
      as (Kv1 & fv1 & Hrun & S1 & L1 & HK1 & Hf1).
    destruct (IH Kv1 fv1 S1 L1 Hall)
      as (Kv' & fv' & Hloop & S' & L' & Hin & Hout & Hval).
    exists Kv', fv'. split; [|split; [done|split; [done|split; [|split]]]].
    + cbn [for_each]. change (body (node, val)) with
        (setitem_row K node 0;; setitem_col K node 0;;
         setitem2 K node node 1;; setitem1 f node val).
      rewrite (run_bind _ _ _ _ _ Hrun). unfold h0.
      rewrite insert_two_twice by assumption. exact Hloop.
    + intros i j Hi Hj Hc.
      destruct (decide (Z.of_nat i ∈ recs.*1 ∨ Z.of_nat j ∈ recs.*1))
        as [Hc'|Hc']; [by apply Hin|].
      rewrite Hout by tauto. rewrite HK1 by assumption.
      rewrite decide_True; [reflexivity|].
      cbn in Hc. rewrite !elem_of_cons in Hc.
      destruct Hc as [[E|?]|[E|?]]; try tauto; [left|right]; lia.
    + intros i j Hi Hj Hni Hnj. cbn in Hni, Hnj.
      rewrite not_elem_of_cons in Hni, Hnj.
      rewrite Hout by tauto. rewrite HK1 by assumption.
      rewrite decide_False; [reflexivity|].
      destruct Hni as [Hni _], Hnj as [Hnj _]. unfold in_range in Hnode. lia.
    + intros i Hi. rewrite Hval by assumption.
      rewrite last_value_cons.
      destruct (last_value (Z.of_nat i) recs); [reflexivity|].
      cbn. rewrite Hf1 by assumption. unfold in_range in Hnode.
      repeat case_decide; subst; try reflexivity; lia.
Qed.
End DirichletLoop.

(** The whole function on a well-shaped system with valid node ids: the
    object [K] is rewritten in place, a new vector is allocated. *)
Lemma apply_dirichlet_run n h K f Kv fv (recs : list (Z * R)) :
  h !! K = Some (Arr2 Kv) → h !! f = Some (Arr1 fv) →
  has_shape n n Kv → length fv = n →
  Forall (λ r, in_range n r.1) recs →
  ∃ Kv' fv',
    apply_dirichlet K f recs.*1 recs.*2 h
    = (Ok (K, length h), <[K := Arr2 Kv']> h ++ [Arr1 fv']) ∧
    has_shape n n Kv' ∧ length fv' = n ∧
    (∀ i j, (i < n)%nat → (j < n)%nat →
       Z.of_nat i ∈ recs.*1 ∨ Z.of_nat j ∈ recs.*1 →
       mget Kv' i j = indicator i j) ∧
    (∀ i j, (i < n)%nat → (j < n)%nat →
       Z.of_nat i ∉ recs.*1 → Z.of_nat j ∉ recs.*1 →
       mget Kv' i j = mget Kv i j) ∧
    (∀ i, (i < n)%nat →
       vget fv' i = default (vget fv i) (last_value (Z.of_nat i) recs)).
Proof.
  intros HK Hf Hshape Hlen Hall.
  pose proof (lookup_lt_Some _ _ _ HK) as HKlt.
  assert (Hne : K ≠ length h) by lia.
  destruct (dirichlet_loop_run n (h ++ [Arr1 fv]) K (length h) Hne
              ltac:(rewrite length_app; cbn; lia)
              ltac:(rewrite length_app; cbn; lia)
              recs Kv fv Hshape Hlen Hall)
    as (Kv' & fv' & Hloop & S' & L' & Hin & Hout & Hval).
  exists Kv', fv'. split; [|done].
  unfold apply_dirichlet. rewrite (run_bind _ _ _ _ _ (copy1_run _ _ _ Hf)).
  rewrite zip_fst_snd.
  rewrite (list_insert_id (h ++ [Arr1 fv]) K (Arr2 Kv)) in Hloop
    by (rewrite lookup_app_l; done).
  rewrite (list_insert_id (h ++ [Arr1 fv]) (length h) (Arr1 fv)) in Hloop
    by apply lookup_fresh.
  unfold mbind at 1, M_bind at 1. rewrite Hloop.
  rewrite insert_app_l by assumption.
  pose proof (insert_fresh (<[K := Arr2 Kv']> h) (Arr1 fv) (Arr1 fv')) as E.
  rewrite length_insert in E. rewrite E. reflexivity.
Qed.

Lemma dot_indicator (row u : vector) p :
  length row = length u →
  (∀ j, (j < length row)%nat → vget row j = indicator p j) →
  dot row u = vget u p.
Proof.
  revert u p. induction row as [|x row IH]; intros [|y u] p Hlen Hrow;
    try discriminate.
  - reflexivity.
  - unfold dot. cbn [zip_with foldr]. fold (dot row u).
    destruct p as [|p].
    + rewrite (IH u (length row)).
      * rewrite vget_ge by (cbn in Hlen; lia).
        pose proof (Hrow 0%nat ltac:(cbn; lia)) as H0.
        rewrite indicator_eq in H0. cbn in H0. unfold vget in H0. cbn in H0.
        subst x. unfold vget. cbn. lra.
      * cbn in Hlen. lia.
      * intros j Hj. pose proof (Hrow (S j) ltac:(cbn; lia)) as HS.
        rewrite indicator_ne in HS by lia. rewrite indicator_ne by lia.
        exact HS.
    + rewrite (IH u p).
      * pose proof (Hrow 0%nat ltac:(cbn; lia)) as H0.
        rewrite indicator_ne in H0 by lia. unfold vget in H0. cbn in H0.
        subst x. change (vget (y :: u) (S p)) with (vget u p). lra.
      * cbn in Hlen. lia.
      * intros j Hj. pose proof (Hrow (S j) ltac:(cbn; lia)) as HS.
        change (vget (x :: row) (S j)) with (vget row j) in HS. rewrite HS.
        unfold indicator. repeat case_decide; try reflexivity; lia.
Qed.

(** C2.  On an [n x n] matrix and a load vector of length [n], with
    records whose node ids are node indices, [apply_dirichlet] returns;
    every node that some record names has its row and its column equal to
    the unit vector (zero off the diagonal, 1 on it), its load entry is
    the value of the last record naming it, and every solution [u] of the
    returned system has that value at the node. *)
Theorem apply_dirichlet_spec n h K f Kv fv (recs : list (Z * R)) :
  h !! K = Some (Arr2 Kv) → h !! f = Some (Arr1 fv) →
  has_shape n n Kv → length fv = n →
  Forall (λ r, in_range n r.1) recs →
  ∃ Kv' fv',
    apply_dirichlet K f recs.*1 recs.*2 h
    = (Ok (K, length h), <[K := Arr2 Kv']> h ++ [Arr1 fv']) ∧
    has_shape n n Kv' ∧ length fv' = n ∧
    ∀ p, p ∈ recs.*1 →
      ∃ v, last_value p recs = Some v ∧
        (∀ j, (j < n)%nat →
           mget Kv' (Z.to_nat p) j = indicator (Z.to_nat p) j ∧
           mget Kv' j (Z.to_nat p) = indicator j (Z.to_nat p)) ∧
        vget fv' (Z.to_nat p) = v ∧
        ∀ u, length u = n → mat_vec Kv' u = fv' → vget u (Z.to_nat p) = v.
Proof.
  intros HK Hf Hshape Hlen Hall.
  destruct (apply_dirichlet_run n h K f Kv fv recs HK Hf Hshape Hlen Hall)
    as (Kv' & fv' & Hrun & S' & L' & Hin & _ & Hval).
  exists Kv', fv'. split; [done|split; [done|split; [done|]]].
  intros p Hp.
  destruct (proj1 (last_value_named p recs) Hp) as [v Hv].
  exists v. split; [done|].
  assert (Hrange : in_range n p).
  { apply list_elem_of_fmap in Hp as ([q w] & -> & Hq).
    rewrite List.Forall_forall in Hall. apply (Hall (q, w)).
    by apply list_elem_of_In. }
  destruct (np_index_in_range _ _ Hrange) as [_ Hlt].
  assert (Hback : Z.of_nat (Z.to_nat p) = p) by (unfold in_range in Hrange; lia).
  assert (Hrow : ∀ j, (j < n)%nat →
            mget Kv' (Z.to_nat p) j = indicator (Z.to_nat p) j).
  { intros j Hj. apply Hin; [done..|]. left. by rewrite Hback. }
  assert (Hfv : vget fv' (Z.to_nat p) = v).
  { rewrite Hval by assumption. rewrite Hback, Hv. reflexivity. }
  split; [|split; [done|]].
  - intros j Hj. split; [by apply Hrow|].
    apply Hin; [done..|]. right. by rewrite Hback.
  - intros u Hu Hsol.
    destruct (has_shape_row _ _ _ _ S' Hlt) as (row & Erow & Hrowlen).
    rewrite <- Hfv, <- Hsol. unfold mat_vec.
    rewrite (vget_lookup ((λ r : vector, dot r u) <$> Kv') _ (dot row u)).
    + symmetry. apply dot_indicator; [lia|].
      intros j Hj. rewrite <- (mget_row _ _ _ _ Erow). apply Hrow. lia.
    + rewrite list_lookup_fmap, Erow. reflexivity.
Qed.

Lemma apply_dirichlet_spec_witness :
  ∃ Kv' fv',
    apply_dirichlet 0%nat 1%nat [(0%Z, 9); (1%Z, 4); (0%Z, 5)].*1
      [(0%Z, 9); (1%Z, 4); (0%Z, 5)].*2
      [Arr2 [[2; 3; 1]; [3; 6; 8]; [1; 8; 7]]; Arr1 [7; 8; 2]]
    = (Ok (0%nat, 2%nat),
       <[0%nat := Arr2 Kv']>
         [Arr2 [[2; 3; 1]; [3; 6; 8]; [1; 8; 7]]; Arr1 [7; 8; 2]] ++ [Arr1 fv']) ∧
    has_shape 3 3 Kv' ∧ length fv' = 3%nat ∧
    ∀ p, p ∈ [(0%Z, 9); (1%Z, 4); (0%Z, 5)].*1 →
      ∃ v, last_value p [(0%Z, 9); (1%Z, 4); (0%Z, 5)] = Some v ∧
        (∀ j, (j < 3)%nat →
           mget Kv' (Z.to_nat p) j = indicator (Z.to_nat p) j ∧
           mget Kv' j (Z.to_nat p) = indicator j (Z.to_nat p)) ∧
        vget fv' (Z.to_nat p) = v ∧
        ∀ u, length u = 3%nat → mat_vec Kv' u = fv' → vget u (Z.to_nat p) = v.
Proof.
  apply (apply_dirichlet_spec 3
           [Arr2 [[2; 3; 1]; [3; 6; 8]; [1; 8; 7]]; Arr1 [7; 8; 2]]
           0%nat 1%nat [[2; 3; 1]; [3; 6; 8]; [1; 8; 7]] [7; 8; 2]
           [(0%Z, 9); (1%Z, 4); (0%Z, 5)]).
  - reflexivity.
  - reflexivity.
  - split; [reflexivity|]. repeat constructor.
  - reflexivity.
  - repeat constructor; unfold in_range; cbn; lia.
Defined.

(** Node 0 is named twice, with 9 and then with 5: the later record
    wins. *)
Example apply_dirichlet_last_write_wins :
  apply_dirichlet 0%nat 1%nat [0; 1; 0]%Z [9; 4; 5]
    [Arr2 [[2; 3; 1]; [3; 6; 8]; [1; 8; 7]]; Arr1 [7; 8; 2]]
  = (Ok (0%nat, 2%nat),
     [Arr2 [[1; 0; 0]; [0; 1; 0]; [0; 0; 7]]; Arr1 [7; 8; 2]; Arr1 [5; 4; 2]]).
Proof. reflexivity. Qed.

(** [zip] stops at the shorter list: a node without a value is not
    constrained. *)
Example apply_dirichlet_unequal_lengths :
  apply_dirichlet 0%nat 1%nat [0; 1]%Z [9]
    [Arr2 [[2; 3]; [3; 6]]; Arr1 [7; 8]]
  = (Ok (0%nat, 2%nat), [Arr2 [[1; 0]; [0; 6]]; Arr1 [7; 8]; Arr1 [9; 8]]).
Proof. reflexivity. Qed.

(** A node id that is no node index raises, but only after the earlier
    records have been written into the caller's matrix. *)
Example apply_dirichlet_out_of_range :
  apply_dirichlet 0%nat 1%nat [0; 2]%Z [9; 4]
    [Arr2 [[2; 3]; [3; 6]]; Arr1 [7; 8]]
  = (Raise IndexError, [Arr2 [[1; 0]; [0; 6]]; Arr1 [7; 8]; Arr1 [9; 8]]).
Proof. reflexivity. Qed.

(** ** Edges of the boundary records *)

Lemma hypot_0 : hypot (0 - 0) (0 - 0) = 0.
Proof.
  unfold hypot. replace ((0 - 0) * (0 - 0) + (0 - 0) * (0 - 0)) with 0 by ring.
  apply sqrt_0.
Qed.

Lemma edge_length_same nodes g : edge_length nodes g g = 0.
Proof.
  unfold edge_length. cbv zeta.
  match goal with |- sqrt ?e = _ => replace e with 0 by ring end.
  apply sqrt_0.
Qed.

Lemma getitem_node_in_range nodes g :
  in_range (length nodes) g →
  ∃ p, nodes !! Z.to_nat g = Some p ∧ getitem_node nodes g = Ok p.
Proof.
  intros Hg. destruct (np_index_in_range _ _ Hg) as [E Hlt].
  destruct (lookup_lt_is_Some_2 nodes _ Hlt) as [p Hp].
  exists p. split; [assumption|].
  unfold getitem_node. rewrite E. cbn. rewrite Hp. reflexivity.
Qed.

Lemma take_coords_valid nodes conn :
  valid_conn nodes conn →
  ∃ p0 p1 p2,
    nodes !! Z.to_nat conn.1.1 = Some p0 ∧
    nodes !! Z.to_nat conn.1.2 = Some p1 ∧
    nodes !! Z.to_nat conn.2 = Some p2 ∧
    take_coords nodes conn = Ok (p0, p1, p2).
Proof.
  intros (H0 & H1 & H2 & _).
  destruct (getitem_node_in_range _ _ H0) as (p0 & L0 & E0).
  destruct (getitem_node_in_range _ _ H1) as (p1 & L1 & E1).
  destruct (getitem_node_in_range _ _ H2) as (p2 & L2 & E2).
  exists p0, p1, p2. repeat split; try assumption.
  unfold take_coords. rewrite E0, E1, E2. reflexivity.
Qed.

(** What the three lookups at the head of a loop body give for a valid
    record: the element row, its coordinates, the two local positions, and
    how these relate to the edge map and the edge length of the
    specification. *)
Lemma resolve_edge nodes elems elem_id edge_id :
  valid_mesh nodes elems → valid_edge_ref elems elem_id edge_id →
  ∃ conn coords a b x1 y1 x2 y2,
    getitem_elem elems elem_id = Ok conn ∧
    take_coords nodes conn = Ok coords ∧
    edge_table edge_id = Ok (a, b) ∧
    local coords a = (x1, y1) ∧ local coords b = (x2, y2) ∧
    in_range (length nodes) (local conn a) ∧
    in_range (length nodes) (local conn b) ∧
    edge_endpoints elems elem_id edge_id = Some (local conn a, local conn b) ∧
    hypot (x2 - x1) (y2 - y1) = edge_length nodes (local conn a) (local conn b).
Proof.
  intros Hmesh [Helem Hedge].
  destruct (np_index_in_range _ _ Helem) as [E Hlt].
  destruct (lookup_lt_is_Some_2 elems _ Hlt) as [conn Hconn].
  pose proof (Forall_lookup_1 _ _ _ _ Hmesh Hconn) as Hvalid.
  destruct (take_coords_valid _ _ Hvalid) as (p0 & p1 & p2 & L0 & L1 & L2 & Ec).
  destruct Hvalid as (R0 & R1 & R2 & _).
  assert (Eg : getitem_elem elems elem_id = Ok conn).
  { unfold getitem_elem. rewrite E. cbn. rewrite Hconn. reflexivity. }
  destruct conn as [[n0 n1] n2]. cbn [fst snd] in *.
  destruct p0 as [u0 v0], p1 as [u1 v1], p2 as [u2 v2].
  assert (Eep : ∀ g, edge_endpoints elems elem_id edge_id
             = (let '(n0, n1, n2) := (n0, n1, n2) in
                if decide (edge_id = 1%Z) then Some (n0, n1)
                else if decide (edge_id = 2%Z) then Some (n1, n2)
                else if decide (edge_id = 3%Z) then Some (n2, n0)
                else g)).
  { intros g. unfold edge_endpoints. rewrite Hconn.
    repeat case_decide; try reflexivity. lia. }
  destruct Hedge as [-> | [-> | ->]].
  - exists (n0, n1, n2), ((u0, v0), (u1, v1), (u2, v2)), 0%nat, 1%nat, u0, v0, u1, v1.
    cbn [local fst snd]. rewrite (Eep None).
    do 8 (split; [first [assumption | reflexivity]|]).
    unfold hypot, edge_length. rewrite L0, L1. reflexivity.
  - exists (n0, n1, n2), ((u0, v0), (u1, v1), (u2, v2)), 1%nat, 2%nat, u1, v1, u2, v2.
    cbn [local fst snd]. rewrite (Eep None).
    do 8 (split; [first [assumption | reflexivity]|]).
    unfold hypot, edge_length. rewrite L1, L2. reflexivity.
  - exists (n0, n1, n2), ((u0, v0), (u1, v1), (u2, v2)), 2%nat, 0%nat, u2, v2, u0, v0.
    cbn [local fst snd]. rewrite (Eep None).
    do 8 (split; [first [assumption | reflexivity]|]).
    unfold hypot, edge_length. rewrite L2, L0. reflexivity.
Qed.

(** [f[[g1, g2]] += [c, c]] entry by entry; when the two nodes of the edge
    coincide the edge has length zero, which is why the single write that
    numpy performs there still agrees with two additions. *)
Lemma vget_fancy n (fv : vector) g1 g2 c i :
  length fv = n → (g1 < n)%nat → (g2 < n)%nat → (i < n)%nat →
  (g1 = g2 → c = 0) →
  vget (<[g2 := vget fv g2 + c]> (<[g1 := vget fv g1 + c]> fv)) i
  = vget fv i + (c * indicator i g1 + c * indicator i g2).
Proof.
  intros Hn H1 H2 Hi Hsame.
  rewrite vget_insert by (rewrite length_insert; lia).
  rewrite vget_insert by lia.
  unfold indicator. repeat case_decide; subst; try lra; try congruence.
  rewrite Hsame by reflexivity. lra.
Qed.

(** ** The Neumann applier *)

Section Flux.
Context (nodes : list (R * R)) (elems : list conn_t).
Hypothesis Hmesh : valid_mesh nodes elems.

Let body (fmod : loc) : flux_bc → M unit := λ '(elem_id, edge_id, q),
  conn ← lift (getitem_elem elems elem_id);
  coords ← lift (take_coords nodes conn);
  edge_nodes ← lift (edge_table edge_id);
  let '(n1, n2) := edge_nodes in
  let '(x1, y1) := local coords n1 in
  let '(x2, y2) := local coords n2 in
  let L := hypot (x2 - x1) (y2 - y1) in
  let fe := (q * L / 2 * 1, q * L / 2 * 1) in
  iadd_fancy fmod (local conn n1, local conn n2) fe.

Lemma flux_record_run h fmod fv (r : flux_bc) :
  h !! fmod = Some (Arr1 fv) → length fv = length nodes →
  valid_edge_ref elems r.1.1 r.1.2 →
  ∃ fv1,
    body fmod r h = (Ok tt, <[fmod := Arr1 fv1]> h) ∧
    length fv1 = length nodes ∧
    ∀ i, (i < length nodes)%nat →
      vget fv1 i = vget fv i + flux_contrib nodes elems r i.
Proof.
  destruct r as [[elem_id edge_id] q]. cbn [fst snd].
  intros Hf Hlen Hvalid.
  destruct (resolve_edge _ _ _ _ Hmesh Hvalid)
    as (conn & coords & a & b & x1 & y1 & x2 & y2 &
        Eg & Ec & Et & Ea & Eb & Ra & Rb & Eep & EL).
  destruct (np_index_in_range _ _ Ra) as [_ Hlta].
  destruct (np_index_in_range _ _ Rb) as [_ Hltb].
  set (c := q * hypot (x2 - x1) (y2 - y1) / 2 * 1).
  exists (<[Z.to_nat (local conn b) := vget fv (Z.to_nat (local conn b)) + c]>
          (<[Z.to_nat (local conn a) := vget fv (Z.to_nat (local conn a)) + c]> fv)).
  split; [|split].
  - unfold body. rewrite (run_lift _ _ _ _ Eg), (run_lift _ _ _ _ Ec),
      (run_lift _ _ _ _ Et). rewrite Ea, Eb.
    apply (iadd_fancy_run (length nodes)); assumption.
  - by rewrite !length_insert.
  - intros i Hi.
    rewrite (vget_fancy (length nodes)); try assumption.
    + unfold flux_contrib. rewrite Eep. cbv zeta. rewrite <- EL.
      unfold c. lra.
    + intros Esame. unfold c. rewrite EL.
      assert (local conn a = local conn b) as ->
        by (unfold in_range in Ra, Rb; lia).
      rewrite edge_length_same. lra.
Qed.

Lemma flux_loop_run h fmod (recs : list flux_bc) : ∀ fv,
  (fmod < length h)%nat → length fv = length nodes →
  Forall (λ r, valid_edge_ref elems r.1.1 r.1.2) recs →
  ∃ fv',
    for_each recs (body fmod) (<[fmod := Arr1 fv]> h)
    = (Ok tt, <[fmod := Arr1 fv']> h) ∧
    length fv' = length nodes ∧
    ∀ i, (i < length nodes)%nat →
      vget fv' i
      = vget fv i + Rsum ((λ r, flux_contrib nodes elems r i) <$> recs).
Proof.
  induction recs as [|r recs IH]; intros fv Hlt Hlen Hall.
  - exists fv. split; [reflexivity|split; [assumption|]].
    intros i _. cbn. lra.
  - destruct (Forall_cons_1 _ _ _ Hall) as [Hr Hrest].
    destruct (flux_record_run (<[fmod := Arr1 fv]> h) fmod fv r
                (list_lookup_insert_eq _ _ _ Hlt) Hlen Hr)
      as (fv1 & Hrun & L1 & Hv1).
    destruct (IH fv1 Hlt L1 Hrest) as (fv' & Hloop & L' & Hv').
    exists fv'. split; [|split; [assumption|]].
    + cbn [for_each]. rewrite (run_bind _ _ _ _ _ Hrun).
      rewrite list_insert_insert_eq. exact Hloop.
    + intros i Hi. rewrite Hv', Hv1 by assumption.
      rewrite fmap_cons, Rsum_cons. lra.
Qed.

Lemma apply_heat_flux_run h f fv (recs : list flux_bc) :
  h !! f = Some (Arr1 fv) → length fv = length nodes →
  Forall (λ r, valid_edge_ref elems r.1.1 r.1.2) recs →
  ∃ fv',
    apply_heat_flux f nodes elems recs h = (Ok (length h), h ++ [Arr1 fv']) ∧
    length fv' = length nodes ∧
    ∀ i, (i < length nodes)%nat →
      vget fv' i
      = vget fv i + Rsum ((λ r, flux_contrib nodes elems r i) <$> recs).
Proof.
  intros Hf Hlen Hall.
  destruct (flux_loop_run (h ++ [Arr1 fv]) (length h) recs fv
              ltac:(rewrite length_app; cbn; lia) Hlen Hall)
    as (fv' & Hloop & L' & Hv').
  exists fv'. split; [|split; assumption].
  unfold apply_heat_flux. rewrite (run_bind _ _ _ _ _ (copy1_run _ _ _ Hf)).
  rewrite !insert_fresh in Hloop.
  unfold mbind at 1, M_bind at 1. fold (body (length h)). rewrite Hloop.
  reflexivity.
Qed.
End Flux.

(** ** Which objects a computation writes *)

Lemma writes_only_ret {A} S (a : A) : writes_only S (mret a).
Proof. intros h. by split. Qed.

Lemma writes_only_lift {A} S (o : outcome A) : writes_only S (lift o).
Proof. intros h. by split. Qed.

Lemma writes_only_bind {A B} S (m : M A) (k : A → M B) :
  writes_only S m → (∀ a, writes_only S (k a)) → writes_only S (m ≫= k).
Proof.
  intros Hm Hk h. unfold mbind, M_bind.
  destruct (Hm h) as [Hlen Hsame]. destruct (m h) as [[a|e] h1]; cbn in *.
  - destruct (Hk a h1) as [Hlen' Hsame']. split; [congruence|].
    intros l Hl. rewrite Hsame', Hsame by assumption. reflexivity.
  - by split.
Qed.

Lemma writes_only_load1 S l : writes_only S (load1 l).
Proof.
  intros h. unfold load1. destruct (h !! l) as [[v|m]|]; by split.
Qed.

Lemma writes_only_load2 S l : writes_only S (load2 l).
Proof.
  intros h. unfold load2. destruct (h !! l) as [[v|m]|]; by split.
Qed.

Lemma writes_only_store (S : loc → Prop) l a : S l → writes_only S (store l a).
Proof.
  intros HS h. cbn. split; [apply length_insert|].
  intros l' Hl'. apply list_lookup_insert_ne. congruence.
Qed.

Lemma writes_only_for_each {A} S (xs : list A) (body : A → M unit) :
  (∀ x, writes_only S (body x)) → writes_only S (for_each xs body).
Proof.
  intros Hbody. induction xs as [|x xs IH]; cbn [for_each].
  - apply writes_only_ret.
  - apply writes_only_bind; [apply Hbody | intros _; apply IH].
Qed.

Ltac writes_only_steps :=
  repeat first
    [ apply writes_only_ret
    | apply writes_only_lift
    | apply writes_only_load1
    | apply writes_only_load2
    | apply writes_only_store; first [assumption | cbn beta; lia]
    | apply writes_only_bind; [|intros ?] ].

Lemma writes_only_iadd_fancy (S : loc → Prop) f g c :
  S f → writes_only S (iadd_fancy f g c).
Proof. intros HS. unfold iadd_fancy. writes_only_steps. Qed.

Lemma writes_only_iadd2 (S : loc → Prop) K i j c :
  S K → writes_only S (iadd2 K i j c).
Proof. intros HS. unfold iadd2. writes_only_steps. Qed.

Lemma writes_only_setitem_row (S : loc → Prop) K i c :
  S K → writes_only S (setitem_row K i c).
Proof. intros HS. unfold setitem_row. writes_only_steps. Qed.

Lemma writes_only_setitem_col (S : loc → Prop) K i c :
  S K → writes_only S (setitem_col K i c).
Proof. intros HS. unfold setitem_col. writes_only_steps. Qed.

Lemma writes_only_setitem2 (S : loc → Prop) K i j c :
  S K → writes_only S (setitem2 K i j c).
Proof. intros HS. unfold setitem2. writes_only_steps. Qed.

Lemma writes_only_setitem1 (S : loc → Prop) f i c :
  S f → writes_only S (setitem1 f i c).
Proof. intros HS. unfold setitem1. writes_only_steps. Qed.

(** A copy followed by writes to the copy leaves every object of the
    caller as it was. *)
Lemma preserves_refl h : preserves h h.
Proof. by intros l _. Qed.

Lemma preserves_alloc_writes {A} (h ext : heap) (m : M A) :
  writes_only (λ l, (length h ≤ l)%nat) m → preserves h (m (h ++ ext)).2.
Proof.
  intros Hm l Hl. destruct (Hm (h ++ ext)) as [_ Hsame].
  rewrite Hsame by lia. by apply lookup_app_l.
Qed.

Lemma copy1_cases f h :
  (∃ v, h !! f = Some (Arr1 v) ∧ copy1 f h = (Ok (length h), h ++ [Arr1 v]))
  ∨ copy1 f h = (Raise TypeError, h).
Proof.
  destruct (h !! f) as [[v|m]|] eqn:E.
  - left. exists v. split; [reflexivity|]. by apply copy1_run.
  - right. unfold copy1, load1, mbind, M_bind. by rewrite E.
  - right. unfold copy1, load1, mbind, M_bind. by rewrite E.
Qed.

Lemma copy2_cases K h :
  (∃ m, h !! K = Some (Arr2 m) ∧ copy2 K h = (Ok (length h), h ++ [Arr2 m]))
  ∨ copy2 K h = (Raise TypeError, h).
Proof.
  destruct (h !! K) as [[v|m]|] eqn:E.
  - right. unfold copy2, load2, mbind, M_bind. by rewrite E.
  - left. exists m. split; [reflexivity|]. by apply copy2_run.
  - right. unfold copy2, load2, mbind, M_bind. by rewrite E.
Qed.

Lemma writes_only_weaken {A} (S S' : loc → Prop) (m : M A) :
  (∀ l, S l → S' l) → writes_only S m → writes_only S' m.
Proof.
  intros Himp Hm h. destruct (Hm h) as [Hlen Hsame]. split; [assumption|].
  intros l Hl. apply Hsame. intros HS. apply Hl, Himp, HS.
Qed.

Lemma apply_heat_flux_preserves f nodes elems (recs : list flux_bc) h :
  preserves h (apply_heat_flux f nodes elems recs h).2.
Proof.
  unfold apply_heat_flux.
  destruct (copy1_cases f h) as [(v & _ & E)|E].
  - rewrite (run_bind _ _ _ _ _ E).
    apply (preserves_alloc_writes h [Arr1 v]).
    apply writes_only_bind; [|intros; apply writes_only_ret].
    apply writes_only_for_each. intros [[elem_id edge_id] q].
    writes_only_steps.
    match goal with a : (nat * nat)%type |- _ => destruct a as [n1 n2] end.
    match goal with c : coords_t |- _ => destruct (local c n1), (local c n2) end.
    apply writes_only_iadd_fancy. cbn beta. lia.
  - rewrite (run_bind_raise _ _ _ _ _ E). apply preserves_refl.
Qed.

Lemma apply_convection_preserves K f nodes elems (recs : list conv_bc) h :
  preserves h (apply_convection K f nodes elems recs h).2.
Proof.
  unfold apply_convection.
  destruct (copy2_cases K h) as [(m & _ & E)|E].
  - rewrite (run_bind _ _ _ _ _ E).
    destruct (copy1_cases f (h ++ [Arr2 m])) as [(v & _ & E')|E'].
    + rewrite (run_bind _ _ _ _ _ E').
      rewrite <- app_assoc.
      apply (preserves_alloc_writes h ([Arr2 m] ++ [Arr1 v])).
      apply writes_only_bind; [|intros; apply writes_only_ret].
      apply writes_only_for_each. intros [[[elem_id edge_id] hc] Tinf].
      rewrite length_app. cbn [length].
      writes_only_steps.
      match goal with a : (nat * nat)%type |- _ => destruct a as [n1 n2] end.
      match goal with c : coords_t |- _ => destruct (local c n1), (local c n2) end.
      writes_only_steps.
    + rewrite (run_bind_raise _ _ _ _ _ E'). cbn.
      intros l Hl. by apply lookup_app_l.
  - rewrite (run_bind_raise _ _ _ _ _ E). apply preserves_refl.
Qed.

(** ** The Robin applier *)

Lemma has_shape_entry_add n (Kv : matrix) p q c :
  has_shape n n Kv →
  has_shape n n (alter (λ row : vector, alter (λ x, x + c) q row) p Kv).
Proof. apply has_shape_alter. intros. apply length_alter. Qed.

Section Convection.
Context (nodes : list (R * R)) (elems : list conn_t).
Hypothesis Hmesh : valid_mesh nodes elems.

Let body (Kmod fmod : loc) : conv_bc → M unit := λ '(elem_id, edge_id, h, Tinf),
  conn ← lift (getitem_elem elems elem_id);
  coords ← lift (take_coords nodes conn);
  edge_nodes ← lift (edge_table edge_id);
  let '(n1, n2) := edge_nodes in
  let '(x1, y1) := local coords n1 in
  let '(x2, y2) := local coords n2 in
  let L := hypot (x2 - x1) (y2 - y1) in
  let K := mscale (h * L / 6) [[2; 1]; [1; 2]] in
  let f := vscale (h * Tinf * L / 2) [1; 1] in
  iadd_fancy fmod (local conn n1, local conn n2) (vget f 0, vget f 1);;
  let '(gn1, gn2) := (local conn n1, local conn n2) in
  iadd2 Kmod gn1 gn1 (mget K 0 0);;
  iadd2 Kmod gn1 gn2 (mget K 0 1);;
  iadd2 Kmod gn2 gn1 (mget K 1 0);;
  iadd2 Kmod gn2 gn2 (mget K 1 1).

Lemma convection_record_run h Kmod fmod Kv fv (r : conv_bc) :
  h !! Kmod = Some (Arr2 Kv) → h !! fmod = Some (Arr1 fv) →
  has_shape (length nodes) (length nodes) Kv → length fv = length nodes →
  valid_edge_ref elems r.1.1.1 r.1.1.2 →
  ∃ Kv1 fv1,
    body Kmod fmod r h
    = (Ok tt, <[fmod := Arr1 fv1]> (<[Kmod := Arr2 Kv1]> h)) ∧
    has_shape (length nodes) (length nodes) Kv1 ∧
    length fv1 = length nodes ∧
    (∀ i j, (i < length nodes)%nat → (j < length nodes)%nat →
       mget Kv1 i j = mget Kv i j + conv_contrib_K nodes elems r i j) ∧
    (∀ i, (i < length nodes)%nat →
       vget fv1 i = vget fv i + conv_contrib_f nodes elems r i).
Proof.
  destruct r as [[[elem_id edge_id] hc] Tinf]. cbn [fst snd].
  intros HK Hf Hshape Hlen Hvalid.
  pose proof (typed_distinct _ _ _ _ _ HK Hf) as Hne.
  pose proof (lookup_lt_Some _ _ _ HK) as HKlt.
  destruct (resolve_edge _ _ _ _ Hmesh Hvalid)
    as (conn & coords & a & b & x1 & y1 & x2 & y2 &
        Eg & Ec & Et & Ea & Eb & Ra & Rb & Eep & EL).
  destruct (np_index_in_range _ _ Ra) as [_ Hlta].
  destruct (np_index_in_range _ _ Rb) as [_ Hltb].
  set (g1 := local conn a) in *. set (g2 := local conn b) in *.
  set (L := hypot (x2 - x1) (y2 - y1)) in *.
  set (c := hc * Tinf * L / 2 * 1).
  set (F1 := <[Z.to_nat g2 := vget fv (Z.to_nat g2) + c]>
               (<[Z.to_nat g1 := vget fv (Z.to_nat g1) + c]> fv)).
  set (A1 := alter (λ row : vector, alter (λ x, x + hc * L / 6 * 2) (Z.to_nat g1) row)
               (Z.to_nat g1) Kv).
  set (A2 := alter (λ row : vector, alter (λ x, x + hc * L / 6 * 1) (Z.to_nat g2) row)
               (Z.to_nat g1) A1).
  set (A3 := alter (λ row : vector, alter (λ x, x + hc * L / 6 * 1) (Z.to_nat g1) row)
               (Z.to_nat g2) A2).
  set (A4 := alter (λ row : vector, alter (λ x, x + hc * L / 6 * 2) (Z.to_nat g2) row)
               (Z.to_nat g2) A3).
  pose proof (has_shape_entry_add _ Kv (Z.to_nat g1) (Z.to_nat g1)
                (hc * L / 6 * 2) Hshape) as S1. fold A1 in S1.
  pose proof (has_shape_entry_add _ A1 (Z.to_nat g1) (Z.to_nat g2)
                (hc * L / 6 * 1) S1) as S2. fold A2 in S2.
  pose proof (has_shape_entry_add _ A2 (Z.to_nat g2) (Z.to_nat g1)
                (hc * L / 6 * 1) S2) as S3. fold A3 in S3.
  pose proof (has_shape_entry_add _ A3 (Z.to_nat g2) (Z.to_nat g2)
                (hc * L / 6 * 2) S3) as S4. fold A4 in S4.
  exists A4, F1.
  split; [|split; [assumption|split;
    [unfold F1; by rewrite !length_insert|split]]].
  - unfold body. rewrite (run_lift _ _ _ _ Eg), (run_lift _ _ _ _ Ec),
      (run_lift _ _ _ _ Et). rewrite Ea, Eb. fold g1 g2 L.
    rewrite (run_bind _ _ _ _ _
      (iadd_fancy_run (length nodes) h fmod fv g1 g2 _ _ Hf Hlen Ra Rb)).
    change (vget (vscale (hc * Tinf * L / 2) [1; 1]) 0) with c.
    change (vget (vscale (hc * Tinf * L / 2) [1; 1]) 1) with c.
    fold F1.
    change (mget (mscale (hc * L / 6) [[2; 1]; [1; 2]]) 0 0) with (hc * L / 6 * 2).
    change (mget (mscale (hc * L / 6) [[2; 1]; [1; 2]]) 0 1) with (hc * L / 6 * 1).
    change (mget (mscale (hc * L / 6) [[2; 1]; [1; 2]]) 1 0) with (hc * L / 6 * 1).
    change (mget (mscale (hc * L / 6) [[2; 1]; [1; 2]]) 1 1) with (hc * L / 6 * 2).
    set (h1 := <[fmod := Arr1 F1]> h).
    assert (HK1 : h1 !! Kmod = Some (Arr2 Kv)).
    { unfold h1. by rewrite list_lookup_insert_ne by congruence. }
    assert (HKlt1 : (Kmod < length h1)%nat).
    { unfold h1. by rewrite length_insert. }
    rewrite (run_bind _ _ _ _ _
      (iadd2_run (length nodes) h1 Kmod Kv HK1 Hshape g1 g1 _ Ra Ra)).
    fold A1.
    rewrite (run_bind _ _ _ _ _
      (iadd2_run (length nodes) _ Kmod A1 (list_lookup_insert_eq _ _ _ HKlt1)
         S1 g1 g2 _ Ra Rb)).
    rewrite list_insert_insert_eq. fold A2.
    rewrite (run_bind _ _ _ _ _
      (iadd2_run (length nodes) _ Kmod A2 (list_lookup_insert_eq _ _ _ HKlt1)
         S2 g2 g1 _ Rb Ra)).
    rewrite list_insert_insert_eq. fold A3.
    rewrite (iadd2_run (length nodes) _ Kmod A3
               (list_lookup_insert_eq _ _ _ HKlt1) S3 g2 g2 _ Rb Rb).
    rewrite list_insert_insert_eq. fold A4. unfold h1.
    by rewrite list_insert_insert_ne by assumption.
  - intros i j Hi Hj.
    unfold A4. rewrite (mget_entry_add _ _ S3) by assumption.
    unfold A3. rewrite (mget_entry_add _ _ S2) by assumption.
    unfold A2. rewrite (mget_entry_add _ _ S1) by assumption.
    unfold A1. rewrite (mget_entry_add _ _ Hshape) by assumption.
    unfold conv_contrib_K. rewrite Eep. cbv zeta. rewrite <- EL. ring.
  - intros i Hi. unfold F1.
    rewrite (vget_fancy (length nodes)); try assumption.
    + unfold conv_contrib_f. rewrite Eep. cbv zeta. rewrite <- EL.
      unfold c. lra.
    + intros Esame. unfold c. rewrite EL.
      assert (g1 = g2) as -> by (unfold in_range in Ra, Rb; lia).
      rewrite edge_length_same. lra.
Qed.

Lemma convection_loop_run h Kmod fmod (recs : list conv_bc) : ∀ Kv fv,
  Kmod ≠ fmod → (Kmod < length h)%nat → (fmod < length h)%nat →
  has_shape (length nodes) (length nodes) Kv → length fv = length nodes →
  Forall (λ r, valid_edge_ref elems r.1.1.1 r.1.1.2) recs →
  ∃ Kv' fv',
    for_each recs (body Kmod fmod)
      (<[fmod := Arr1 fv]> (<[Kmod := Arr2 Kv]> h))
    = (Ok tt, <[fmod := Arr1 fv']> (<[Kmod := Arr2 Kv']> h)) ∧
    has_shape (length nodes) (length nodes) Kv' ∧
    length fv' = length nodes ∧
    (∀ i j, (i < length nodes)%nat → (j < length nodes)%nat →
       mget Kv' i j
       = mget Kv i j
         + Rsum ((λ r, conv_contrib_K nodes elems r i j) <$> recs)) ∧
    (∀ i, (i < length nodes)%nat →
       vget fv' i
       = vget fv i + Rsum ((λ r, conv_contrib_f nodes elems r i) <$> recs)).
Proof.
  induction recs as [|r recs IH]; intros Kv fv Hne HK Hf Hshape Hlen Hall.
  - exists Kv, fv.
    split; [reflexivity|split; [assumption|split; [assumption|split]]].
    + intros i j _ _. cbn. lra.
    + intros i _. cbn. lra.
  - destruct (Forall_cons_1 _ _ _ Hall) as [Hr Hrest].
    set (h0 := <[fmod := Arr1 fv]> (<[Kmod := Arr2 Kv]> h)).
    assert (HK0 : h0 !! Kmod = Some (Arr2 Kv)).
    { unfold h0. rewrite list_lookup_insert_ne by congruence.
      by apply list_lookup_insert_eq. }
    assert (Hf0 : h0 !! fmod = Some (Arr1 fv)).
    { unfold h0. apply list_lookup_insert_eq. by rewrite length_insert. }
    destruct (convection_record_run h0 Kmod fmod Kv fv r HK0 Hf0 Hshape Hlen Hr)
      as (Kv1 & fv1 & Hrun & S1 & L1 & HK1 & Hf1).
    destruct (IH Kv1 fv1 Hne HK Hf S1 L1 Hrest)
      as (Kv' & fv' & Hloop & S' & L' & HK' & Hf').
    exists Kv', fv'.
    split; [|split; [assumption|split; [assumption|split]]].
    + cbn [for_each]. rewrite (run_bind _ _ _ _ _ Hrun). unfold h0.
      rewrite insert_two_twice by assumption. exact Hloop.
    + intros i j Hi Hj. rewrite HK', HK1 by assumption.
      rewrite fmap_cons, Rsum_cons. lra.
    + intros i Hi. rewrite Hf', Hf1 by assumption.
      rewrite fmap_cons, Rsum_cons. lra.
Qed.

Lemma apply_convection_run h K f Kv fv (recs : list conv_bc) :
  h !! K = Some (Arr2 Kv) → h !! f = Some (Arr1 fv) →
  has_shape (length nodes) (length nodes) Kv → length fv = length nodes →
  Forall (λ r, valid_edge_ref elems r.1.1.1 r.1.1.2) recs →
  ∃ Kv' fv',
    apply_convection K f nodes elems recs h
    = (Ok (length h, S (length h)), h ++ [Arr2 Kv'; Arr1 fv']) ∧
    has_shape (length nodes) (length nodes) Kv' ∧
    length fv' = length nodes ∧
    (∀ i j, (i < length nodes)%nat → (j < length nodes)%nat →
       mget Kv' i j
       = mget Kv i j
         + Rsum ((λ r, conv_contrib_K nodes elems r i j) <$> recs)) ∧
    (∀ i, (i < length nodes)%nat →
       vget fv' i
       = vget fv i + Rsum ((λ r, conv_contrib_f nodes elems r i) <$> recs)).
Proof.
  intros HK Hf Hshape Hlen Hall.
  set (h2 := h ++ [Arr2 Kv; Arr1 fv]).
  assert (Hlen2 : length h2 = S (S (length h))).
  { unfold h2. rewrite length_app. cbn. lia. }
  destruct (convection_loop_run h2 (length h) (S (length h)) recs Kv fv
              ltac:(lia) ltac:(lia) ltac:(lia) Hshape Hlen Hall)
    as (Kv' & fv' & Hloop & S' & L' & HK' & Hf').
  exists Kv', fv'. split; [|done].
  unfold apply_convection.
  rewrite (run_bind _ _ _ _ _ (copy2_run _ _ _ HK)).
  assert (Hf1 : (h ++ [Arr2 Kv]) !! f = Some (Arr1 fv)).
  { rewrite lookup_app_l; [assumption|]. by apply lookup_lt_Some in Hf. }
  rewrite (run_bind _ _ _ _ _ (copy1_run _ _ _ Hf1)).
  rewrite length_app. cbn [length]. rewrite Nat.add_1_r.
  rewrite <- app_assoc. cbn [app]. fold h2.
  assert (E0 : <[S (length h) := Arr1 fv]> (<[length h := Arr2 Kv]> h2) = h2).
  { unfold h2. rewrite (insert_app_r_alt h _ (length h)) by lia.
    rewrite (insert_app_r_alt h _ (S (length h))) by lia.
    rewrite Nat.sub_diag. by replace (S (length h) - length h)%nat with 1%nat by lia. }
  assert (E1 : <[S (length h) := Arr1 fv']> (<[length h := Arr2 Kv']> h2)
               = h ++ [Arr2 Kv'; Arr1 fv']).
  { unfold h2. rewrite (insert_app_r_alt h _ (length h)) by lia.
    rewrite (insert_app_r_alt h _ (S (length h))) by lia.
    rewrite Nat.sub_diag. by replace (S (length h) - length h)%nat with 1%nat by lia. }
  rewrite E0, E1 in Hloop.
  unfold mbind at 1, M_bind at 1.
  fold (body (length h) (S (length h))). rewrite Hloop. reflexivity.
Qed.
End Convection.

(** ** The example mesh *)

Lemma unit_triangle_valid : valid_mesh unit_triangle_nodes unit_triangle_elems.
Proof.
  repeat constructor; try (cbn; lia).
  intros c E. cbn in E. injection E as <-.
  unfold jacobian_det, det2. lra.
Qed.

Lemma hypot_unit_x : hypot (1 - 0) (0 - 0) = 1.
Proof.
  unfold hypot. replace ((1 - 0) * (1 - 0) + (0 - 0) * (0 - 0)) with 1 by ring.
  apply sqrt_1.
Qed.

(** ** Neumann and Robin contributions add up *)

Lemma Rsum_twice (l : list R) : Rsum (l ++ l) = 2 * Rsum l.
Proof. rewrite Rsum_app. lra. Qed.

(** C4.  On a valid mesh, with records naming valid elements and edges 1,
    2 or 3, [apply_heat_flux] returns a new vector whose every entry is
    the entry of [f] plus the sum over the records of [q L / 2] at each of
    the two nodes of the record's edge; the caller's store, with [f] and
    any matrix in it, is as before; and the same records listed twice add
    twice as much. *)
Theorem apply_heat_flux_spec nodes elems h f fv (recs : list flux_bc) :
  valid_mesh nodes elems →
  h !! f = Some (Arr1 fv) → length fv = length nodes →
  Forall (λ r, valid_edge_ref elems r.1.1 r.1.2) recs →
  ∃ fv' fv'',
    apply_heat_flux f nodes elems recs h = (Ok (length h), h ++ [Arr1 fv']) ∧
    length fv' = length nodes ∧
    (∀ i, (i < length nodes)%nat →
       vget fv' i
       = vget fv i + Rsum ((λ r, flux_contrib nodes elems r i) <$> recs)) ∧
    preserves h (h ++ [Arr1 fv']) ∧
    apply_heat_flux f nodes elems (recs ++ recs) h
    = (Ok (length h), h ++ [Arr1 fv'']) ∧
    (∀ i, (i < length nodes)%nat →
       vget fv'' i - vget fv i = 2 * (vget fv' i - vget fv i)).
Proof.
  intros Hmesh Hf Hlen Hall.
  destruct (apply_heat_flux_run nodes elems Hmesh h f fv recs Hf Hlen Hall)
    as (fv' & Hrun & L' & Hv').
  destruct (apply_heat_flux_run nodes elems Hmesh h f fv (recs ++ recs) Hf Hlen
              ltac:(by apply Forall_app))
    as (fv'' & Hrun2 & L'' & Hv'').
  exists fv', fv''.
  split; [assumption|split; [assumption|split; [assumption|split; [|split]]]].
  - intros l Hl. by apply lookup_app_l.
  - assumption.
  - intros i Hi. rewrite Hv'', Hv' by assumption.
    rewrite fmap_app, Rsum_twice. lra.
Qed.

Lemma apply_heat_flux_spec_witness :
  ∃ fv' fv'',
    apply_heat_flux 0%nat unit_triangle_nodes unit_triangle_elems
      [(0%Z, 1%Z, 4); (0%Z, 3%Z, 2)] [Arr1 [5; 6; 7]]
    = (Ok (length [Arr1 [5; 6; 7]]), [Arr1 [5; 6; 7]] ++ [Arr1 fv']) ∧
    length fv' = length unit_triangle_nodes ∧
    (∀ i, (i < length unit_triangle_nodes)%nat →
       vget fv' i
       = vget [5; 6; 7] i
         + Rsum ((λ r, flux_contrib unit_triangle_nodes unit_triangle_elems r i)
                   <$> [(0%Z, 1%Z, 4); (0%Z, 3%Z, 2)])) ∧
    preserves [Arr1 [5; 6; 7]] ([Arr1 [5; 6; 7]] ++ [Arr1 fv']) ∧
    apply_heat_flux 0%nat unit_triangle_nodes unit_triangle_elems
      ([(0%Z, 1%Z, 4); (0%Z, 3%Z, 2)] ++ [(0%Z, 1%Z, 4); (0%Z, 3%Z, 2)])
      [Arr1 [5; 6; 7]]
    = (Ok (length [Arr1 [5; 6; 7]]), [Arr1 [5; 6; 7]] ++ [Arr1 fv'']) ∧
    (∀ i, (i < length unit_triangle_nodes)%nat →
       vget fv'' i - vget [5; 6; 7] i = 2 * (vget fv' i - vget [5; 6; 7] i)).
Proof.
  apply (apply_heat_flux_spec unit_triangle_nodes unit_triangle_elems
           [Arr1 [5; 6; 7]] 0%nat [5; 6; 7] [(0%Z, 1%Z, 4); (0%Z, 3%Z, 2)]).
  - exact unit_triangle_valid.
  - reflexivity.
  - reflexivity.
  - repeat constructor; cbn; lia.
Defined.

(** The same record twice: [q L / 2 = 2] is added twice at nodes 0 and
    1. *)
Example apply_heat_flux_same_record_twice :
  apply_heat_flux 0%nat unit_triangle_nodes unit_triangle_elems
    [(0%Z, 1%Z, 4); (0%Z, 1%Z, 4)] [Arr1 [5; 6; 7]]
  = (Ok 1%nat, [Arr1 [5; 6; 7]; Arr1 [9; 10; 7]]).
Proof.
  cbv -[Rplus Rmult Rminus Rdiv Rinv Ropp IZR sqrt Rabs Q2R hypot].
  rewrite hypot_unit_x. repeat (f_equal; try lra).
Qed.

Lemma conv_contrib_K_sym nodes elems (r : conv_bc) i j :
  conv_contrib_K nodes elems r i j = conv_contrib_K nodes elems r j i.
Proof.
  destruct r as [[[elem_id edge_id] hc] Tinf]. unfold conv_contrib_K.
  destruct (edge_endpoints elems elem_id edge_id) as [[g1 g2]|]; [|reflexivity].
  cbv zeta. ring.
Qed.

(** C5.  On a valid mesh, with records naming valid elements and edges 1,
    2 or 3, [apply_convection] returns a new matrix and a new vector: each
    entry [(i, j)] of the matrix has grown by the sum over the records of
    [h L / 6 [[2, 1], [1, 2]]] scattered at the edge's two nodes, which is a
    symmetric addition, and each entry of the vector by the sum of
    [h Tinf L / 2] at each of the two nodes. *)
Theorem apply_convection_spec nodes elems h K f Kv fv (recs : list conv_bc) :
  valid_mesh nodes elems →
  h !! K = Some (Arr2 Kv) → h !! f = Some (Arr1 fv) →
  has_shape (length nodes) (length nodes) Kv → length fv = length nodes →
  Forall (λ r, valid_edge_ref elems r.1.1.1 r.1.1.2) recs →
  ∃ Kv' fv',
    apply_convection K f nodes elems recs h
    = (Ok (length h, S (length h)), h ++ [Arr2 Kv'; Arr1 fv']) ∧
    has_shape (length nodes) (length nodes) Kv' ∧
    length fv' = length nodes ∧
    (∀ i j, (i < length nodes)%nat → (j < length nodes)%nat →
       mget Kv' i j
       = mget Kv i j
         + Rsum ((λ r, conv_contrib_K nodes elems r i j) <$> recs)) ∧
    (∀ i j, (i < length nodes)%nat → (j < length nodes)%nat →
       mget Kv' i j - mget Kv i j = mget Kv' j i - mget Kv j i) ∧
    (∀ i, (i < length nodes)%nat →
       vget fv' i
       = vget fv i + Rsum ((λ r, conv_contrib_f nodes elems r i) <$> recs)).
Proof.
  intros Hmesh HK Hf Hshape Hlen Hall.
  destruct (apply_convection_run nodes elems Hmesh h K f Kv fv recs
              HK Hf Hshape Hlen Hall)
    as (Kv' & fv' & Hrun & S' & L' & HK' & Hf').
  exists Kv', fv'.
  split; [assumption|split; [assumption|split; [assumption|split;
    [assumption|split; [|assumption]]]]].
  intros i j Hi Hj. rewrite (HK' i j), (HK' j i) by assumption.
  replace ((λ r, conv_contrib_K nodes elems r j i) <$> recs)
    with ((λ r, conv_contrib_K nodes elems r i j) <$> recs); [lra|].
  apply list_fmap_ext. intros _ r _. apply conv_contrib_K_sym.
Qed.

Lemma apply_convection_spec_witness :
  ∃ Kv' fv',
    apply_convection 0%nat 1%nat unit_triangle_nodes unit_triangle_elems
      [(0%Z, 1%Z, 6, 10); (0%Z, 1%Z, 6, 10)]
      [Arr2 [[1; 2; 3]; [4; 5; 6]; [7; 8; 9]]; Arr1 [5; 6; 7]]
    = (Ok (length [Arr2 [[1; 2; 3]; [4; 5; 6]; [7; 8; 9]]; Arr1 [5; 6; 7]],
           S (length [Arr2 [[1; 2; 3]; [4; 5; 6]; [7; 8; 9]]; Arr1 [5; 6; 7]])),
       [Arr2 [[1; 2; 3]; [4; 5; 6]; [7; 8; 9]]; Arr1 [5; 6; 7]]
         ++ [Arr2 Kv'; Arr1 fv']) ∧
    has_shape (length unit_triangle_nodes) (length unit_triangle_nodes) Kv' ∧
    length fv' = length unit_triangle_nodes ∧
    (∀ i j, (i < length unit_triangle_nodes)%nat →
       (j < length unit_triangle_nodes)%nat →
       mget Kv' i j
       = mget [[1; 2; 3]; [4; 5; 6]; [7; 8; 9]] i j
         + Rsum ((λ r, conv_contrib_K unit_triangle_nodes unit_triangle_elems r i j)
                   <$> [(0%Z, 1%Z, 6, 10); (0%Z, 1%Z, 6, 10)])) ∧
    (∀ i j, (i < length unit_triangle_nodes)%nat →
       (j < length unit_triangle_nodes)%nat →
       mget Kv' i j - mget [[1; 2; 3]; [4; 5; 6]; [7; 8; 9]] i j
       = mget Kv' j i - mget [[1; 2; 3]; [4; 5; 6]; [7; 8; 9]] j i) ∧
    (∀ i, (i < length unit_triangle_nodes)%nat →
       vget fv' i
       = vget [5; 6; 7] i
         + Rsum ((λ r, conv_contrib_f unit_triangle_nodes unit_triangle_elems r i)
                   <$> [(0%Z, 1%Z, 6, 10); (0%Z, 1%Z, 6, 10)])).
Proof.
  apply (apply_convection_spec unit_triangle_nodes unit_triangle_elems
           [Arr2 [[1; 2; 3]; [4; 5; 6]; [7; 8; 9]]; Arr1 [5; 6; 7]]
           0%nat 1%nat [[1; 2; 3]; [4; 5; 6]; [7; 8; 9]] [5; 6; 7]
           [(0%Z, 1%Z, 6, 10); (0%Z, 1%Z, 6, 10)]).
  - exact unit_triangle_valid.
  - reflexivity.
  - reflexivity.
  - split; [reflexivity|]. repeat constructor.
  - reflexivity.
  - repeat constructor; cbn; lia.
Defined.

(** ** Records that are refused *)


Lemma np_index_refused n i :
  ¬ (- Z.of_nat n ≤ i < Z.of_nat n)%Z → np_index n i = Raise IndexError.
Proof.
  intros H. unfold np_index. rewrite !decide_False by lia. reflexivity.
Qed.








(** ** Which arguments are mutated and which are copied *)

Lemma apply_heat_flux_fresh f nodes elems (recs : list flux_bc) h r h' :
  apply_heat_flux f nodes elems recs h = (Ok r, h') → r = length h.
Proof.
  unfold apply_heat_flux.
  destruct (copy1_cases f h) as [(v & _ & E)|E].
  - rewrite (run_bind _ _ _ _ _ E). unfold mbind, M_bind.
    match goal with |- context [for_each recs ?b ?h0] =>
      destruct (for_each recs b h0) as [[[]|e] h1] end;
      unfold mret, M_ret; cbn; congruence.
  - rewrite (run_bind_raise _ _ _ _ _ E). discriminate.
Qed.

Lemma apply_convection_fresh K f nodes elems (recs : list conv_bc) h r h' :
  apply_convection K f nodes elems recs h = (Ok r, h') →
  r = (length h, S (length h)).
Proof.
  unfold apply_convection.
  destruct (copy2_cases K h) as [(m & _ & E)|E].
  - rewrite (run_bind _ _ _ _ _ E).
    destruct (copy1_cases f (h ++ [Arr2 m])) as [(v & _ & E')|E'].
    + rewrite (run_bind _ _ _ _ _ E'). unfold mbind, M_bind.
      match goal with |- context [for_each recs ?b ?h0] =>
        destruct (for_each recs b h0) as [[[]|e] h1] end;
        unfold mret, M_ret; cbn; [|congruence].
      rewrite length_app. cbn. rewrite Nat.add_1_r. congruence.
    + rewrite (run_bind_raise _ _ _ _ _ E'). discriminate.
  - rewrite (run_bind_raise _ _ _ _ _ E). discriminate.
Qed.

(** C10.  [apply_dirichlet] returns the very object [K] it was given, and
    after the call that object holds the eliminated matrix (unit rows and
    columns at the constrained nodes); the object [f] still holds the old
    load vector, and the vector returned is a fresh object that holds the
    modified copy: the prescribed value (the last one given) at every
    constrained node, the entry of [f] at every other node.
    [apply_heat_flux] and [apply_convection] return fresh objects only and
    leave every object of the caller as it was, whatever their arguments
    and however they end. *)
Theorem dirichlet_in_place_others_copy n h K f Kv fv (recs : list (Z * R))
    nodes elems (frecs : list flux_bc) (crecs : list conv_bc) :
  h !! K = Some (Arr2 Kv) → h !! f = Some (Arr1 fv) →
  has_shape n n Kv → length fv = n →
  Forall (λ r, in_range n r.1) recs →
  (∃ Kv' fv' h',
     apply_dirichlet K f recs.*1 recs.*2 h = (Ok (K, length h), h') ∧
     h' !! K = Some (Arr2 Kv') ∧
     (∀ p j, p ∈ recs.*1 → (j < n)%nat →
        mget Kv' (Z.to_nat p) j = indicator (Z.to_nat p) j ∧
        mget Kv' j (Z.to_nat p) = indicator j (Z.to_nat p)) ∧
     h' !! f = Some (Arr1 fv) ∧
     h' !! length h = Some (Arr1 fv') ∧
     length fv' = n ∧
     (∀ p, p ∈ recs.*1 →
        ∃ v, last_value p recs = Some v ∧ vget fv' (Z.to_nat p) = v) ∧
     (∀ i, (i < n)%nat → Z.of_nat i ∉ recs.*1 → vget fv' i = vget fv i) ∧
     (∀ l, (l < length h)%nat → l ≠ K → h' !! l = h !! l)) ∧
  (preserves h (apply_heat_flux f nodes elems frecs h).2 ∧
   ∀ r h', apply_heat_flux f nodes elems frecs h = (Ok r, h') → r = length h) ∧
  (preserves h (apply_convection K f nodes elems crecs h).2 ∧
   ∀ r h', apply_convection K f nodes elems crecs h = (Ok r, h') →
     r = (length h, S (length h))).
Proof.
  intros HK Hf Hshape Hlen Hall.
  split; [|split; split].
  - destruct (apply_dirichlet_run n h K f Kv fv recs HK Hf Hshape Hlen Hall)
      as (Kv' & fv' & Hrun & S' & L' & Hin & _ & Hval).
    pose proof (lookup_lt_Some _ _ _ HK) as HKlt.
    pose proof (lookup_lt_Some _ _ _ Hf) as Hflt.
    pose proof (typed_distinct _ _ _ _ _ HK Hf) as Hne.
    exists Kv', fv', (<[K := Arr2 Kv']> h ++ [Arr1 fv']).
    split; [assumption|split; [|split; [|split; [|split;
      [|split; [exact L'|split; [|split]]]]]]].
    + rewrite lookup_app_l by (by rewrite length_insert).
      by apply list_lookup_insert_eq.
    + intros p j Hp Hj.
      assert (Hrange : in_range n p).
      { apply list_elem_of_fmap in Hp as ([q w] & -> & Hq).
        rewrite List.Forall_forall in Hall. apply (Hall (q, w)).
        by apply list_elem_of_In. }
      destruct (np_index_in_range _ _ Hrange) as [_ Hlt].
      assert (Hback : Z.of_nat (Z.to_nat p) = p)
        by (unfold in_range in Hrange; lia).
      split; apply Hin; try assumption; [left|right]; by rewrite Hback.
    + rewrite lookup_app_l by (by rewrite length_insert).
      by rewrite list_lookup_insert_ne.
    + rewrite <- (length_insert h K (Arr2 Kv')). apply lookup_fresh.
    + intros p Hp.
      destruct (proj1 (last_value_named p recs) Hp) as [v Hv].
      exists v. split; [exact Hv|].
      assert (Hrange : in_range n p).
      { apply list_elem_of_fmap in Hp as ([q w] & -> & Hq).
        rewrite List.Forall_forall in Hall. apply (Hall (q, w)).
        by apply list_elem_of_In. }
      destruct (np_index_in_range _ _ Hrange) as [_ Hlt].
      assert (Hback : Z.of_nat (Z.to_nat p) = p)
        by (unfold in_range in Hrange; lia).
      rewrite (Hval _ Hlt), Hback, Hv. reflexivity.
    + intros i Hi Hnot. rewrite (Hval _ Hi).
      destruct (last_value (Z.of_nat i) recs) as [v|] eqn:Hv; [|reflexivity].
      exfalso. apply Hnot. apply (last_value_named (Z.of_nat i) recs). eauto.
    + intros l Hl Hlne.
      rewrite lookup_app_l by (by rewrite length_insert).
      by rewrite list_lookup_insert_ne.
  - apply apply_heat_flux_preserves.
  - apply apply_heat_flux_fresh.
  - apply apply_convection_preserves.
  - apply apply_convection_fresh.
Qed.

Lemma dirichlet_in_place_others_copy_witness :
  let h := [Arr2 [[2; 3; 1]; [3; 6; 8]; [1; 8; 7]]; Arr1 [7; 8; 2]] in
  let recs := [(0%Z, 9); (1%Z, 4); (0%Z, 5)] in
  (∃ Kv' fv' h',
     apply_dirichlet 0%nat 1%nat recs.*1 recs.*2 h = (Ok (0%nat, length h), h') ∧
     h' !! 0%nat = Some (Arr2 Kv') ∧
     (∀ p j, p ∈ recs.*1 → (j < 3)%nat →
        mget Kv' (Z.to_nat p) j = indicator (Z.to_nat p) j ∧
        mget Kv' j (Z.to_nat p) = indicator j (Z.to_nat p)) ∧
     h' !! 1%nat = Some (Arr1 [7; 8; 2]) ∧
     h' !! length h = Some (Arr1 fv') ∧
     length fv' = 3%nat ∧
     (∀ p, p ∈ recs.*1 →
        ∃ v, last_value p recs = Some v ∧ vget fv' (Z.to_nat p) = v) ∧
     (∀ i, (i < 3)%nat → Z.of_nat i ∉ recs.*1 → vget fv' i = vget [7; 8; 2] i) ∧
     (∀ l, (l < length h)%nat → l ≠ 0%nat → h' !! l = h !! l)) ∧
  (preserves h
     (apply_heat_flux 1%nat unit_triangle_nodes unit_triangle_elems
        [(0%Z, 1%Z, 4)] h).2 ∧
   ∀ r h', apply_heat_flux 1%nat unit_triangle_nodes unit_triangle_elems
             [(0%Z, 1%Z, 4)] h = (Ok r, h') → r = length h) ∧
  (preserves h
     (apply_convection 0%nat 1%nat unit_triangle_nodes unit_triangle_elems
        [(0%Z, 1%Z, 6, 10)] h).2 ∧
   ∀ r h', apply_convection 0%nat 1%nat unit_triangle_nodes unit_triangle_elems
             [(0%Z, 1%Z, 6, 10)] h = (Ok r, h') →
     r = (length h, S (length h))).
Proof.
  intros h recs.
  apply (dirichlet_in_place_others_copy 3 h 0%nat 1%nat
           [[2; 3; 1]; [3; 6; 8]; [1; 8; 7]] [7; 8; 2] recs).
  - reflexivity.
  - reflexivity.
  - split; [reflexivity|]. repeat constructor.
  - reflexivity.
  - repeat constructor; unfold in_range; cbn; lia.
Defined.

(** ** Global assembly *)

Lemma Rsum_alter_add (row : vector) q c :
  (q < length row)%nat → Rsum (alter (λ x, x + c) q row) = Rsum row + c.
Proof.
  revert q. induction row as [|x row IH]; intros q Hq; [cbn in Hq; lia|].
  destruct q as [|q]; cbn [alter list_alter].
  - rewrite !Rsum_cons. lra.
  - rewrite !Rsum_cons. change (list_alter ?f q row) with (alter f q row).
    rewrite IH by (cbn in Hq; lia). lra.
Qed.

Lemma mget_zeros2 n i j : mget (zeros2 n n) i j = 0.
Proof.
  unfold mget, zeros2. destruct (decide (i < n)%nat) as [Hi|Hi].
  - rewrite lookup_replicate_2 by assumption. cbn.
    destruct (decide (j < n)%nat) as [Hj|Hj].
    + by apply vget_replicate.
    + apply vget_ge. rewrite length_replicate. lia.
  - rewrite lookup_ge_None_2 by (rewrite length_replicate; lia). reflexivity.
Qed.

Lemma Rsum_replicate_0 n : Rsum (replicate n 0) = 0.
Proof.
  induction n as [|n IH]; [reflexivity|].
  change (replicate (S n) 0) with (0 :: replicate n 0).
  rewrite Rsum_cons, IH. lra.
Qed.

Lemma row_sum_zeros2 n i : row_sum (zeros2 n n) i = 0.
Proof.
  unfold row_sum, zeros2. destruct (decide (i < n)%nat) as [Hi|Hi].
  - rewrite lookup_replicate_2 by assumption. apply Rsum_replicate_0.
  - rewrite lookup_ge_None_2 by (rewrite length_replicate; lia). reflexivity.
Qed.

(** The dense array built from the coordinate lists: every entry is the
    sum of the list entries at its position. *)
Lemma foldl_add_triplet n (ts : list triplet) : ∀ m,
  has_shape n n m → Forall (triplet_in_range n) ts →
  has_shape n n (foldl add_triplet m ts) ∧
  (∀ i j, (i < n)%nat → (j < n)%nat →
     mget (foldl add_triplet m ts) i j
     = mget m i j + Rsum (triplet_at i j <$> ts)) ∧
  (∀ i, (i < n)%nat →
     row_sum (foldl add_triplet m ts) i
     = row_sum m i + Rsum (triplet_in_row i <$> ts)).
Proof.
  induction ts as [|[[r c] v] ts IH]; intros m Hshape Hall.
  - split; [assumption|]. split; intros; cbn; lra.
  - destruct (Forall_cons_1 _ _ _ Hall) as [[Hr Hc] Hrest]. cbn [fst snd] in Hr, Hc.
    cbn [foldl]. unfold add_triplet at 2 4 6. cbn [fst snd].
    pose proof (has_shape_entry_add n m (Z.to_nat r) (Z.to_nat c) v Hshape) as S1.
    destruct (IH _ S1 Hrest) as (S' & Hentry & Hrow).
    split; [assumption|]. split.
    + intros i j Hi Hj. rewrite Hentry by assumption.
      rewrite (mget_entry_add n m Hshape) by lia.
      rewrite fmap_cons, Rsum_cons. unfold triplet_at at 2. cbn [fst snd]. lra.
    + intros i Hi. rewrite Hrow by assumption.
      rewrite fmap_cons, Rsum_cons. unfold triplet_in_row at 2. cbn [fst snd].
      assert (row_sum (alter (λ row : vector, alter (λ x, x + v) (Z.to_nat c) row)
                         (Z.to_nat r) m) i
              = row_sum m i + v * indicator i (Z.to_nat r)) as ->; [|lra].
      unfold row_sum. rewrite list_lookup_alter.
      destruct (has_shape_row _ _ _ _ Hshape Hi) as (row & Erow & Hlen).
      unfold indicator. repeat case_decide; subst; try congruence.
      * rewrite Erow. cbn [fmap option_fmap option_map default]. unfold Datatypes.id.
        rewrite Rsum_alter_add by lia. lra.
      * rewrite Erow. cbn [default]. unfold Datatypes.id. lra.
Qed.

(** One element: its nine entries are in range, symmetric in [(i, j)], and
    add nothing to any row sum. *)
Lemma element_triplets_in_range nodes conn Ke :
  valid_conn nodes conn →
  Forall (triplet_in_range (length nodes)) (element_triplets conn Ke).
Proof.
  destruct conn as [[n0 n1] n2]. intros (H0 & H1 & H2 & _).
  cbn [fst snd] in *. unfold in_range in *.
  repeat constructor; cbn; lia.
Qed.

Lemma element_triplets_sym conn Ke i j :
  (∀ a b, (a < 3)%nat → (b < 3)%nat → mget Ke a b = mget Ke b a) →
  Rsum (triplet_at i j <$> element_triplets conn Ke)
  = Rsum (triplet_at j i <$> element_triplets conn Ke).
Proof.
  destruct conn as [[n0 n1] n2]. intros Hsym.
  cbn. unfold triplet_at. cbn [fst snd].
  rewrite (Hsym 1%nat 0%nat), (Hsym 2%nat 0%nat), (Hsym 2%nat 1%nat) by lia.
  ring.
Qed.

Lemma element_triplets_row conn Ke i :
  (∀ a, (a < 3)%nat → mget Ke a 0 + mget Ke a 1 + mget Ke a 2 = 0) →
  Rsum (triplet_in_row i <$> element_triplets conn Ke) = 0.
Proof.
  destruct conn as [[n0 n1] n2]. intros Hrow.
  cbn. unfold triplet_in_row. cbn [fst snd].
  pose proof (Hrow 0%nat ltac:(lia)) as H0.
  pose proof (Hrow 1%nat ltac:(lia)) as H1.
  pose proof (Hrow 2%nat ltac:(lia)) as H2.
  set (a0 := indicator i (Z.to_nat n0)). set (a1 := indicator i (Z.to_nat n1)).
  set (a2 := indicator i (Z.to_nat n2)).
  match goal with |- ?lhs = 0 =>
    replace lhs with
      (a0 * (mget Ke 0 0 + mget Ke 0 1 + mget Ke 0 2)
       + a1 * (mget Ke 1 0 + mget Ke 1 1 + mget Ke 1 2)
       + a2 * (mget Ke 2 0 + mget Ke 2 1 + mget Ke 2 2)) by ring
  end.
  rewrite H0, H1, H2. ring.
Qed.

Lemma assemble_triplets_valid nodes elems k :
  valid_mesh nodes elems →
  ∃ ts,
    assemble_triplets nodes elems k = Ok ts ∧
    Forall (triplet_in_range (length nodes)) ts ∧
    (∀ i j, Rsum (triplet_at i j <$> ts) = Rsum (triplet_at j i <$> ts)) ∧
    (∀ i, Rsum (triplet_in_row i <$> ts) = 0).
Proof.
  induction elems as [|conn elems IH]; intros Hmesh.
  - exists []. repeat split; constructor.
  - destruct (Forall_cons_1 _ _ _ Hmesh) as [Hconn Hrest].
    destruct (IH Hrest) as (ts & Ets & Hrange & Hsym & Hrow).
    destruct (take_coords_valid _ _ Hconn) as (p0 & p1 & p2 & _ & _ & _ & Ec).
    exists (element_triplets conn (element_stiffness_triangle (p0, p1, p2) k) ++ ts).
    split; [|split; [|split]].
    + cbn [assemble_triplets]. rewrite Ec. cbn. rewrite Ets. reflexivity.
    + apply Forall_app. split; [by apply element_triplets_in_range | assumption].
    + intros i j. rewrite !fmap_app, !Rsum_app, Hsym.
      rewrite (element_triplets_sym conn _ i j); [reflexivity|].
      intros a b Ha Hb. by apply element_stiffness_symmetric.
    + intros i. rewrite fmap_app, Rsum_app, Hrow.
      rewrite element_triplets_row; [lra|].
      intros a Ha. by apply element_stiffness_row_sum.
Qed.


(** The whole function on a valid mesh. *)
Lemma assemble_global_run nodes elems k h :
  valid_mesh nodes elems →
  ∃ Kv,
    assemble_global nodes elems k h = (Ok (length h), h ++ [Arr2 Kv]) ∧
    has_shape (length nodes) (length nodes) Kv ∧
    symmetric_matrix (length nodes) Kv ∧
    (∀ i, (i < length nodes)%nat → row_sum Kv i = 0).
Proof.
  intros Hmesh.
  destruct (assemble_triplets_valid nodes elems k Hmesh)
    as (ts & Ets & Hrange & Hsym & Hrow).
  destruct (foldl_add_triplet (length nodes) ts (zeros2 (length nodes) (length nodes))
              (has_shape_zeros2 _ _) Hrange) as (S' & Hentry & Hrows).
  exists (foldl add_triplet (zeros2 (length nodes) (length nodes)) ts).
  split; [|split; [assumption|split]].
  - unfold assemble_global. cbv zeta.
    rewrite (run_lift _ _ _ _ Ets).
    unfold coo_toarray. rewrite decide_True by assumption. reflexivity.
  - intros i j Hi Hj. rewrite !Hentry by assumption.
    rewrite !mget_zeros2, Hsym. reflexivity.
  - intros i Hi. rewrite Hrows by assumption.
    rewrite row_sum_zeros2, Hrow. lra.
Qed.





(** ** The pipeline of [main.py] *)

Lemma element_loop_run nodes elems k h :
  valid_mesh nodes elems →
  for_each elems (λ conn,
    coords ← lift (take_coords nodes conn);
    let Ke := element_stiffness_triangle coords k in
    mret tt) h = (Ok tt, h).
Proof.
  induction elems as [|conn elems IH]; intros Hmesh; [reflexivity|].
  destruct (Forall_cons_1 _ _ _ Hmesh) as [Hconn Hrest].
  destruct (take_coords_valid _ _ Hconn) as (p0 & p1 & p2 & _ & _ & _ & Ec).
  cbn [for_each]. rewrite (run_bind _ _ h tt h).
  - by apply IH.
  - by rewrite (run_lift _ _ _ _ Ec).
Qed.

Lemma lookup_app_at (h ext : heap) k a :
  ext !! k = Some a → (h ++ ext) !! (length h + k)%nat = Some a.
Proof.
  intros E. rewrite lookup_app_r by lia.
  by replace (length h + k - length h)%nat with k by lia.
Qed.

(** X17.  What the script hands to the solver, on valid input: the object
    [K] that [assemble_global] returned, after Dirichlet elimination, and the
    load vector with flux, convection and Dirichlet values.  The matrix
    with the convection terms is the fourth object allocated, and is not
    the one returned. *)
Lemma main_system_run nodes elems k bcs h :
  valid_mesh nodes elems →
  Forall (λ r, valid_edge_ref elems r.1.1 r.1.2) (heat_flux bcs) →
  Forall (λ r, valid_edge_ref elems r.1.1.1 r.1.1.2) (convection bcs) →
  Forall (λ r, in_range (length nodes) r.1) (temperature bcs) →
  ∃ Kv Kc Kd fd h',
    assemble_global nodes elems k h = (Ok (length h), h ++ [Arr2 Kv]) ∧
    main_system nodes elems k bcs h
    = (Ok (length h, (length h + 5)%nat), h') ∧
    h' !! length h = Some (Arr2 Kd) ∧
    h' !! (length h + 3)%nat = Some (Arr2 Kc) ∧
    h' !! (length h + 5)%nat = Some (Arr1 fd) ∧
    (∀ i j, (i < length nodes)%nat → (j < length nodes)%nat →
       mget Kc i j
       = mget Kv i j
         + Rsum ((λ r, conv_contrib_K nodes elems r i j) <$> convection bcs)) ∧
    (∀ i j, (i < length nodes)%nat → (j < length nodes)%nat →
       Z.of_nat i ∈ (temperature bcs).*1 ∨ Z.of_nat j ∈ (temperature bcs).*1 →
       mget Kd i j = indicator i j) ∧
    (∀ i j, (i < length nodes)%nat → (j < length nodes)%nat →
       Z.of_nat i ∉ (temperature bcs).*1 → Z.of_nat j ∉ (temperature bcs).*1 →
       mget Kd i j = mget Kv i j) ∧
    (∀ i, (i < length nodes)%nat →
       vget fd i
       = default
           (0 + Rsum ((λ r, flux_contrib nodes elems r i) <$> heat_flux bcs)
              + Rsum ((λ r, conv_contrib_f nodes elems r i) <$> convection bcs))
           (last_value (Z.of_nat i) (temperature bcs))).
Proof.
  intros Hmesh Hflux Hconv Htemp.
  destruct (assemble_global_run nodes elems k h Hmesh)
    as (Kv & Hasm & SK & _ & _).
  set (N := length nodes) in *.
  set (z := replicate N 0).
  set (h2 := h ++ [Arr2 Kv; Arr1 z]).
  assert (Hz : h2 !! (length h + 1)%nat = Some (Arr1 z))
    by (by apply lookup_app_at).
  assert (Lh2 : length h2 = (length h + 2)%nat)
    by (unfold h2; rewrite length_app; reflexivity).
  destruct (apply_heat_flux_run nodes elems Hmesh h2 _ z (heat_flux bcs) Hz
              (length_replicate _ _) Hflux)
    as (f1 & Hfl & Lf1 & Hf1).
  set (h3 := h ++ [Arr2 Kv; Arr1 z; Arr1 f1]).
  assert (E3 : h2 ++ [Arr1 f1] = h3) by (unfold h2, h3; by rewrite <- app_assoc).
  rewrite E3, Lh2 in Hfl.
  assert (HK3 : h3 !! length h = Some (Arr2 Kv)).
  { rewrite <- (Nat.add_0_r (length h)). by apply lookup_app_at. }
  assert (Hf3 : h3 !! (length h + 2)%nat = Some (Arr1 f1))
    by (by apply lookup_app_at).
  assert (Lh3 : length h3 = (length h + 3)%nat)
    by (unfold h3; rewrite length_app; reflexivity).
  destruct (apply_convection_run nodes elems Hmesh h3 _ _ Kv f1 (convection bcs)
              HK3 Hf3 SK Lf1 Hconv)
    as (Kc & fc & Hcv & SKc & Lfc & HKc & Hfc).
  set (h4 := h ++ [Arr2 Kv; Arr1 z; Arr1 f1; Arr2 Kc; Arr1 fc]).
  assert (E4 : h3 ++ [Arr2 Kc; Arr1 fc] = h4)
    by (unfold h3, h4; by rewrite <- app_assoc).
  rewrite E4, Lh3 in Hcv.
  assert (HK4 : h4 !! length h = Some (Arr2 Kv)).
  { rewrite <- (Nat.add_0_r (length h)). by apply lookup_app_at. }
  assert (Hf4 : h4 !! S (length h + 3) = Some (Arr1 fc)).
  { replace (S (length h + 3)) with (length h + 4)%nat by lia.
    by apply lookup_app_at. }
  assert (Lh4 : length h4 = (length h + 5)%nat)
    by (unfold h4; rewrite length_app; reflexivity).
  destruct (apply_dirichlet_run N h4 _ _ Kv fc (temperature bcs)
              HK4 Hf4 SK Lfc Htemp)
    as (Kd & fd & Hdir & SKd & Lfd & Hin & Hout & Hval).
  rewrite Lh4 in Hdir.
  exists Kv, Kc, Kd, fd, (<[length h := Arr2 Kd]> h4 ++ [Arr1 fd]).
  split; [assumption|].
  split; [|split; [|split; [|split; [|split; [|split; [|split]]]]]].
  - unfold main_system.
    rewrite (run_bind _ _ _ _ _ (element_loop_run nodes elems k h Hmesh)).
    rewrite (run_bind _ _ _ _ _ Hasm).
    rewrite (run_bind _ _ (h ++ [Arr2 Kv]) (length h + 1)%nat h2).
    2: { unfold alloc. rewrite length_app. cbn [length]. fold N z.
         unfold h2. by rewrite <- app_assoc. }
    cbv zeta.
    rewrite (run_bind _ _ _ _ _ Hfl).
    rewrite (run_bind _ _ _ _ _ Hcv).
    rewrite (run_bind _ _ _ _ _ Hdir). reflexivity.
  - rewrite lookup_app_l by (rewrite length_insert; lia).
    apply list_lookup_insert_eq. lia.
  - rewrite lookup_app_l by (rewrite length_insert; lia).
    rewrite list_lookup_insert_ne by lia. by apply lookup_app_at.
  - rewrite <- Lh4, <- (length_insert h4 (length h) (Arr2 Kd)).
    apply lookup_fresh.
  - exact HKc.
  - exact Hin.
  - exact Hout.
  - intros i Hi. rewrite Hval, Hfc, Hf1 by assumption.
    unfold z. rewrite vget_replicate by assumption. reflexivity.
Qed.

(** C1, on the code.  The script applies flux, then convection, then
    Dirichlet, but it passes [K], not the [Kmod] that [apply_convection]
    returned, to [apply_dirichlet].  On the unit triangle with convection
    on edge 1 and node 2 constrained, the matrix handed to the solver
    (object 0) is the eliminated conduction matrix, with entry [(0, 0)]
    equal to 1; the matrix that holds the convection terms (object 3,
    entry [(0, 0)] equal to 3) is left behind.  The load vector (object 5)
    does carry the convection load. *)
Theorem main_solves_matrix_without_convection :
  main_system unit_triangle_nodes unit_triangle_elems 1 robin_example_bcs []
  = (Ok (0%nat, 5%nat),
     [Arr2 [[1; - (1 / 2); 0]; [- (1 / 2); 1 / 2; 0]; [0; 0; 1]];
      Arr1 [0; 0; 0];
      Arr1 [0; 0; 0];
      Arr2 [[3; 1 / 2; - (1 / 2)]; [1 / 2; 5 / 2; 0]; [- (1 / 2); 0; 1 / 2]];
      Arr1 [30; 30; 0];
      Arr1 [30; 30; 0]]).
Proof.
  cbv -[Rplus Rmult Rminus Rdiv Rinv Ropp IZR sqrt Rabs Q2R hypot
        element_stiffness_triangle].
  rewrite unit_triangle_stiffness.
  cbv -[Rplus Rmult Rminus Rdiv Rinv Ropp IZR sqrt Rabs Q2R hypot].
  rewrite hypot_unit_x.
  repeat (f_equal; try lra).
Qed.

(** ** The solve step *)

(** [solve_system] adds nothing to the external solver: no test of the
    matrix, no handler, no error of its own.  Whatever [spsolve] gives for
    the stored matrix and vector, a solution or an exception, is the
    outcome, and the store is not touched. *)
Lemma solve_system_delegates spsolve h K f Kv fv :
  h !! K = Some (Arr2 Kv) → h !! f = Some (Arr1 fv) →
  solve_system spsolve K f h = (spsolve Kv fv, h).
Proof.
  intros HK Hf. unfold solve_system.
  rewrite (run_bind _ _ _ _ _ (load2_run _ _ _ HK)).
  rewrite (run_bind _ _ _ _ _ (load1_run _ _ _ Hf)). reflexivity.
Qed.

(** * Further properties of the appliers *)

(** ** Dirichlet elimination: what is left alone, symmetry, failure *)

(** X1.  [apply_dirichlet] does not change the entries of the matrix outside
    the constrained rows and columns, nor the load entries of unconstrained
    nodes: the column that is zeroed is not moved to the right-hand side. *)
Theorem apply_dirichlet_unconstrained_unchanged n h K f Kv fv
    (recs : list (Z * R)) :
  h !! K = Some (Arr2 Kv) → h !! f = Some (Arr1 fv) →
  has_shape n n Kv → length fv = n →
  Forall (λ r, in_range n r.1) recs →
  ∃ Kv' fv',
    apply_dirichlet K f recs.*1 recs.*2 h
    = (Ok (K, length h), <[K := Arr2 Kv']> h ++ [Arr1 fv']) ∧
    (∀ i j, (i < n)%nat → (j < n)%nat →
       Z.of_nat i ∉ recs.*1 → Z.of_nat j ∉ recs.*1 →
       mget Kv' i j = mget Kv i j) ∧
    (∀ i, (i < n)%nat → Z.of_nat i ∉ recs.*1 → vget fv' i = vget fv i).
Proof.
  intros HK Hf Hshape Hlen Hall.
  destruct (apply_dirichlet_run n h K f Kv fv recs HK Hf Hshape Hlen Hall)
    as (Kv' & fv' & Hrun & _ & _ & _ & Hout & Hval).
  exists Kv', fv'. split; [assumption|split; [exact Hout|]].
  intros i Hi Hni. rewrite Hval by assumption.
  destruct (last_value (Z.of_nat i) recs) as [v|] eqn:E; [|reflexivity].
  exfalso. apply Hni, last_value_named. rewrite E. by eexists.
Qed.

Lemma apply_dirichlet_unconstrained_unchanged_witness :
  ∃ Kv' fv',
    apply_dirichlet 0%nat 1%nat [(0%Z, 9)].*1 [(0%Z, 9)].*2
      [Arr2 [[2; 3; 1]; [3; 6; 8]; [1; 8; 7]]; Arr1 [7; 8; 2]]
    = (Ok (0%nat, length [Arr2 [[2; 3; 1]; [3; 6; 8]; [1; 8; 7]]; Arr1 [7; 8; 2]]),
       <[0%nat := Arr2 Kv']>
         [Arr2 [[2; 3; 1]; [3; 6; 8]; [1; 8; 7]]; Arr1 [7; 8; 2]] ++ [Arr1 fv']) ∧
    (∀ i j, (i < 3)%nat → (j < 3)%nat →
       Z.of_nat i ∉ [(0%Z, 9)].*1 → Z.of_nat j ∉ [(0%Z, 9)].*1 →
       mget Kv' i j = mget [[2; 3; 1]; [3; 6; 8]; [1; 8; 7]] i j) ∧
    (∀ i, (i < 3)%nat → Z.of_nat i ∉ [(0%Z, 9)].*1 →
       vget fv' i = vget [7; 8; 2] i).
Proof.
  apply (apply_dirichlet_unconstrained_unchanged 3
           [Arr2 [[2; 3; 1]; [3; 6; 8]; [1; 8; 7]]; Arr1 [7; 8; 2]]
           0%nat 1%nat [[2; 3; 1]; [3; 6; 8]; [1; 8; 7]] [7; 8; 2] [(0%Z, 9)]).
  - reflexivity.
  - reflexivity.
  - split; [reflexivity|]. repeat constructor.
  - reflexivity.
  - repeat constructor; unfold in_range; cbn; lia.
Defined.

(** X2.  [apply_dirichlet] keeps a symmetric matrix symmetric: the row and
    the column of a constrained node are eliminated together. *)
Theorem apply_dirichlet_keeps_symmetry n h K f Kv fv (recs : list (Z * R)) :
  h !! K = Some (Arr2 Kv) → h !! f = Some (Arr1 fv) →
  has_shape n n Kv → length fv = n →
  Forall (λ r, in_range n r.1) recs →
  symmetric_matrix n Kv →
  ∃ Kv' fv',
    apply_dirichlet K f recs.*1 recs.*2 h
    = (Ok (K, length h), <[K := Arr2 Kv']> h ++ [Arr1 fv']) ∧
    symmetric_matrix n Kv'.
Proof.
  intros HK Hf Hshape Hlen Hall Hsym.
  destruct (apply_dirichlet_run n h K f Kv fv recs HK Hf Hshape Hlen Hall)
    as (Kv' & fv' & Hrun & _ & _ & Hin & Hout & _).
  exists Kv', fv'. split; [assumption|].
  intros i j Hi Hj.
  destruct (decide (Z.of_nat i ∈ recs.*1 ∨ Z.of_nat j ∈ recs.*1)) as [Hc|Hc].
  - rewrite (Hin i j), (Hin j i) by tauto.
    unfold indicator. repeat case_decide; congruence.
  - rewrite (Hout i j), (Hout j i) by tauto. by apply Hsym.
Qed.

Lemma apply_dirichlet_keeps_symmetry_witness :
  ∃ Kv' fv',
    apply_dirichlet 0%nat 1%nat [(0%Z, 9)].*1 [(0%Z, 9)].*2
      [Arr2 [[2; 3; 1]; [3; 6; 8]; [1; 8; 7]]; Arr1 [7; 8; 2]]
    = (Ok (0%nat, length [Arr2 [[2; 3; 1]; [3; 6; 8]; [1; 8; 7]]; Arr1 [7; 8; 2]]),
       <[0%nat := Arr2 Kv']>
         [Arr2 [[2; 3; 1]; [3; 6; 8]; [1; 8; 7]]; Arr1 [7; 8; 2]] ++ [Arr1 fv']) ∧
    symmetric_matrix 3 Kv'.
Proof.
  apply (apply_dirichlet_keeps_symmetry 3
           [Arr2 [[2; 3; 1]; [3; 6; 8]; [1; 8; 7]]; Arr1 [7; 8; 2]]
           0%nat 1%nat [[2; 3; 1]; [3; 6; 8]; [1; 8; 7]] [7; 8; 2] [(0%Z, 9)]).
  - reflexivity.
  - reflexivity.
  - split; [reflexivity|]. repeat constructor.
  - reflexivity.
  - repeat constructor; unfold in_range; cbn; lia.
  - intros i j Hi Hj.
    destruct i as [|[|[|i]]]; [| | |lia];
      (destruct j as [|[|[|j]]]; [| | |lia]); reflexivity.
Defined.

Lemma for_each_app {A} (xs ys : list A) (body : A → M unit) h :
  for_each (xs ++ ys) body h
  = match for_each xs body h with
    | (Ok _, h1) => for_each ys body h1
    | (Raise e, h1) => (Raise e, h1)
    end.
Proof.
  revert h. induction xs as [|x xs IH]; intros h; [reflexivity|].
  cbn [app for_each]. unfold mbind, M_bind.
  destruct (body x h) as [[[]|e] h1]; [apply IH | reflexivity].
Qed.

Lemma setitem_row_refused h K Kv i c :
  h !! K = Some (Arr2 Kv) →
  ¬ (- Z.of_nat (length Kv) ≤ i < Z.of_nat (length Kv))%Z →
  setitem_row K i c h = (Raise IndexError, h).
Proof.
  intros HK Hi. unfold setitem_row.
  rewrite (run_bind _ _ _ _ _ (load2_run _ _ _ HK)).
  by rewrite (run_lift_raise _ _ _ _ (np_index_refused _ _ Hi)).
Qed.

(** X3.  A node id that numpy refuses stops the loop of [apply_dirichlet]
    with [IndexError], but not before the records in front of it have been
    written into the caller's matrix: the object [K] then holds a partly
    eliminated matrix.  The object [f] is as before. *)
Theorem apply_dirichlet_fails_after_partial_update n h K f Kv fv
    (pre post : list (Z * R)) (bad : Z) (v : R) :
  h !! K = Some (Arr2 Kv) → h !! f = Some (Arr1 fv) →
  has_shape n n Kv → length fv = n →
  Forall (λ r, in_range n r.1) pre →
  ¬ (- Z.of_nat n ≤ bad < Z.of_nat n)%Z →
  ∃ Kv' h',
    apply_dirichlet K f (pre ++ (bad, v) :: post).*1
      (pre ++ (bad, v) :: post).*2 h
    = (Raise IndexError, h') ∧
    h' !! K = Some (Arr2 Kv') ∧
    h' !! f = Some (Arr1 fv) ∧
    (∀ i j, (i < n)%nat → (j < n)%nat →
       Z.of_nat i ∈ pre.*1 ∨ Z.of_nat j ∈ pre.*1 →
       mget Kv' i j = indicator i j) ∧
    (∀ i j, (i < n)%nat → (j < n)%nat →
       Z.of_nat i ∉ pre.*1 → Z.of_nat j ∉ pre.*1 →
       mget Kv' i j = mget Kv i j).
Proof.
  intros HK Hf Hshape Hlen Hpre Hbad.
  pose proof (lookup_lt_Some _ _ _ HK) as HKlt.
  pose proof (lookup_lt_Some _ _ _ Hf) as Hflt.
  pose proof (typed_distinct _ _ _ _ _ HK Hf) as HneKf.
  assert (Hne : K ≠ length h) by lia.
  destruct (dirichlet_loop_run n (h ++ [Arr1 fv]) K (length h) Hne
              ltac:(rewrite length_app; cbn; lia)
              ltac:(rewrite length_app; cbn; lia)
              pre Kv fv Hshape Hlen Hpre)
    as (Kv' & fv' & Hloop & S' & L' & Hin & Hout & _).
  rewrite (list_insert_id (h ++ [Arr1 fv]) K (Arr2 Kv)) in Hloop
    by (rewrite lookup_app_l; done).
  rewrite (list_insert_id (h ++ [Arr1 fv]) (length h) (Arr1 fv)) in Hloop
    by apply lookup_fresh.
  set (h1 := <[length h := Arr1 fv']> (<[K := Arr2 Kv']> (h ++ [Arr1 fv]))) in *.
  assert (HK1 : h1 !! K = Some (Arr2 Kv')).
  { unfold h1. rewrite list_lookup_insert_ne by lia.
    apply list_lookup_insert_eq. rewrite length_app. lia. }
  assert (Hf1 : h1 !! f = Some (Arr1 fv)).
  { unfold h1. rewrite !list_lookup_insert_ne by lia.
    by rewrite lookup_app_l. }
  exists Kv', h1.
  split; [|split; [assumption|split; [assumption|split; assumption]]].
  unfold apply_dirichlet. rewrite (run_bind _ _ _ _ _ (copy1_run _ _ _ Hf)).
  rewrite zip_fst_snd.
  apply run_bind_raise. rewrite for_each_app, Hloop.
  cbn [for_each]. apply run_bind_raise. apply run_bind_raise.
  apply (setitem_row_refused h1 K Kv'); [assumption|].
  destruct S' as [-> _]. assumption.
Qed.

Lemma apply_dirichlet_fails_after_partial_update_witness :
  ∃ Kv' h',
    apply_dirichlet 0%nat 1%nat ([(0%Z, 9)] ++ (2%Z, 4) :: []).*1
      ([(0%Z, 9)] ++ (2%Z, 4) :: []).*2
      [Arr2 [[2; 3]; [3; 6]]; Arr1 [7; 8]]
    = (Raise IndexError, h') ∧
    h' !! 0%nat = Some (Arr2 Kv') ∧
    h' !! 1%nat = Some (Arr1 [7; 8]) ∧
    (∀ i j, (i < 2)%nat → (j < 2)%nat →
       Z.of_nat i ∈ [(0%Z, 9)].*1 ∨ Z.of_nat j ∈ [(0%Z, 9)].*1 →
       mget Kv' i j = indicator i j) ∧
    (∀ i j, (i < 2)%nat → (j < 2)%nat →
       Z.of_nat i ∉ [(0%Z, 9)].*1 → Z.of_nat j ∉ [(0%Z, 9)].*1 →
       mget Kv' i j = mget [[2; 3]; [3; 6]] i j).
Proof.
  apply (apply_dirichlet_fails_after_partial_update 2
           [Arr2 [[2; 3]; [3; 6]]; Arr1 [7; 8]] 0%nat 1%nat
           [[2; 3]; [3; 6]] [7; 8] [(0%Z, 9)] [] 2%Z 4).
  - reflexivity.
  - reflexivity.
  - split; [reflexivity|]. repeat constructor.
  - reflexivity.
  - repeat constructor; unfold in_range; cbn; lia.
  - cbn. lia.
Defined.

Lemma zip_app_unmatched {A B} (l : list A) (k : list B) (extra : list A) :
  length l = length k → zip (l ++ extra) k = zip l k.
Proof.
  revert k. induction l as [|x l IH]; intros [|y k] Hlen; try discriminate.
  - by destruct extra.
  - cbn. f_equal. apply IH. cbn in Hlen. lia.
Qed.

Lemma zip_app_unmatched_r {A B} (l : list A) (k : list B) (extra : list B) :
  length l = length k → zip l (k ++ extra) = zip l k.
Proof.
  revert k. induction l as [|x l IH]; intros [|y k] Hlen; try discriminate.
  - reflexivity.
  - cbn. f_equal. apply IH. cbn in Hlen. lia.
Qed.

(** X4.  In [apply_dirichlet], [zip] pairs nodes and values up to the shorter
    list: nodes without a value, and values without a node, are dropped
    without an error. *)
Theorem apply_dirichlet_drops_unmatched K f (bc_nodes extra_nodes : list Z)
    (bc_values extra_values : list R) h :
  length bc_nodes = length bc_values →
  apply_dirichlet K f (bc_nodes ++ extra_nodes) bc_values h
  = apply_dirichlet K f bc_nodes bc_values h ∧
  apply_dirichlet K f bc_nodes (bc_values ++ extra_values) h
  = apply_dirichlet K f bc_nodes bc_values h.
Proof.
  intros Hlen. unfold apply_dirichlet.
  by rewrite zip_app_unmatched, zip_app_unmatched_r.
Qed.

Lemma apply_dirichlet_drops_unmatched_witness :
  apply_dirichlet 0%nat 1%nat ([0%Z] ++ [1%Z]) [9]
    [Arr2 [[2; 3]; [3; 6]]; Arr1 [7; 8]]
  = apply_dirichlet 0%nat 1%nat [0%Z] [9] [Arr2 [[2; 3]; [3; 6]]; Arr1 [7; 8]] ∧
  apply_dirichlet 0%nat 1%nat [0%Z] ([9] ++ [4; 5])
    [Arr2 [[2; 3]; [3; 6]]; Arr1 [7; 8]]
  = apply_dirichlet 0%nat 1%nat [0%Z] [9] [Arr2 [[2; 3]; [3; 6]]; Arr1 [7; 8]].
Proof.
  apply (apply_dirichlet_drops_unmatched 0%nat 1%nat [0%Z] [1%Z] [9] [4; 5]).
  reflexivity.
Defined.

(** ** Sums and extensionality of arrays *)

Lemma Rsum_perm (l l' : list R) : l ≡ₚ l' → Rsum l = Rsum l'.
Proof.
  induction 1 as [|x l l' _ IH|x y l|l l' l'' _ IH1 _ IH2].
  - reflexivity.
  - rewrite !Rsum_cons, IH. reflexivity.
  - rewrite !Rsum_cons. lra.
  - congruence.
Qed.

Lemma Rsum_fmap_plus {A} (g1 g2 : A → R) (l : list A) :
  Rsum ((λ x, g1 x + g2 x) <$> l) = Rsum (g1 <$> l) + Rsum (g2 <$> l).
Proof.
  induction l as [|x l IH]; [cbn; lra|].
  rewrite !fmap_cons, !Rsum_cons, IH. lra.
Qed.

Lemma Rsum_fmap_scal {A} (c : R) (g : A → R) (l : list A) :
  Rsum ((λ x, c * g x) <$> l) = c * Rsum (g <$> l).
Proof.
  induction l as [|x l IH]; [cbn; lra|].
  rewrite !fmap_cons, !Rsum_cons, IH. lra.
Qed.

Lemma Rsum_fmap_ext {A} (g1 g2 : A → R) (l : list A) :
  (∀ x, x ∈ l → g1 x = g2 x) → Rsum (g1 <$> l) = Rsum (g2 <$> l).
Proof.
  intros H. f_equal. apply list_fmap_ext. intros i x Hx. apply H.
  by eapply list_elem_of_lookup_2.
Qed.

Lemma Rsum_fmap_0 {A} (l : list A) : Rsum ((λ _, 0) <$> l) = 0.
Proof.
  induction l as [|x l IH]; [reflexivity|].
  rewrite fmap_cons, Rsum_cons, IH. lra.
Qed.

(** Summing over the records and over the nodes in either order. *)
Lemma Rsum_swap {A} n (g : A → nat → R) (l : list A) :
  Rsum_upto n (λ i, Rsum ((λ r, g r i) <$> l))
  = Rsum ((λ r, Rsum_upto n (g r)) <$> l).
Proof.
  unfold Rsum_upto. induction l as [|r l IH].
  - cbn [fmap list_fmap]. apply Rsum_fmap_0.
  - rewrite fmap_cons, Rsum_cons, <- IH, <- Rsum_fmap_plus.
    apply Rsum_fmap_ext. intros i _. by rewrite fmap_cons, Rsum_cons.
Qed.

Lemma Rsum_upto_indicator n g :
  (g < n)%nat → Rsum_upto n (λ i, indicator i g) = 1.
Proof.
  unfold Rsum_upto. intros Hg.
  assert (∀ m s, Rsum ((λ i, indicator i g) <$> seq s m)
                 = if decide (s ≤ g < s + m)%nat then 1 else 0) as H.
  { induction m as [|m IH]; intros s.
    - cbn. rewrite decide_False by lia. reflexivity.
    - cbn [seq]. rewrite fmap_cons, Rsum_cons, IH.
      unfold indicator. repeat case_decide; try lra; lia. }
  rewrite H. rewrite decide_True by lia. reflexivity.
Qed.

Lemma Rsum_vget (v : vector) : Rsum v = Rsum_upto (length v) (vget v).
Proof.
  unfold Rsum_upto.
  assert (∀ pre, Rsum v = Rsum (vget (pre ++ v) <$> seq (length pre) (length v)))
    as H.
  { induction v as [|x v IH]; intros pre; [reflexivity|].
    cbn [length seq]. rewrite fmap_cons, !Rsum_cons.
    rewrite (IH (pre ++ [x])). rewrite length_app, Nat.add_1_r, <- app_assoc.
    f_equal. unfold vget. rewrite lookup_app_r by lia.
    by rewrite Nat.sub_diag. }
  apply (H []).
Qed.

Lemma vector_ext (u v : vector) :
  length u = length v →
  (∀ i, (i < length u)%nat → vget u i = vget v i) → u = v.
Proof.
  intros Hlen H. apply list_eq. intros i.
  destruct (decide (i < length u)%nat) as [Hi|Hi].
  - destruct (lookup_lt_is_Some_2 u i Hi) as [x Hx].
    destruct (lookup_lt_is_Some_2 v i ltac:(lia)) as [y Hy].
    pose proof (H i Hi) as E. unfold vget in E. rewrite Hx, Hy in E.
    cbn in E. by rewrite Hx, Hy, E.
  - rewrite !lookup_ge_None_2 by lia. reflexivity.
Qed.

Lemma matrix_ext n c (a b : matrix) :
  has_shape n c a → has_shape n c b →
  (∀ i j, (i < n)%nat → (j < c)%nat → mget a i j = mget b i j) → a = b.
Proof.
  intros Sa Sb H. apply list_eq. intros i.
  destruct (decide (i < n)%nat) as [Hi|Hi].
  - destruct (has_shape_row _ _ _ _ Sa Hi) as (ra & Ea & La).
    destruct (has_shape_row _ _ _ _ Sb Hi) as (rb & Eb & Lb).
    rewrite Ea, Eb. f_equal. apply vector_ext; [lia|].
    intros j Hj. rewrite <- (mget_row _ _ _ _ Ea), <- (mget_row _ _ _ _ Eb).
    apply H; lia.
  - destruct Sa as [La _], Sb as [Lb _].
    rewrite !lookup_ge_None_2 by lia. reflexivity.
Qed.

(** ** Neumann records: order, splitting, total heat *)

(** X5.  The result of [apply_heat_flux] does not depend on the order of the
    records. *)
Theorem apply_heat_flux_order_irrelevant nodes elems h f fv
    (recs recs' : list flux_bc) :
  valid_mesh nodes elems →
  h !! f = Some (Arr1 fv) → length fv = length nodes →
  Forall (λ r, valid_edge_ref elems r.1.1 r.1.2) recs →
  recs ≡ₚ recs' →
  apply_heat_flux f nodes elems recs' h = apply_heat_flux f nodes elems recs h.
Proof.
  intros Hmesh Hf Hlen Hall Hperm.
  destruct (apply_heat_flux_run nodes elems Hmesh h f fv recs Hf Hlen Hall)
    as (fv1 & -> & L1 & Hv1).
  destruct (apply_heat_flux_run nodes elems Hmesh h f fv recs' Hf Hlen
              ltac:(by rewrite <- Hperm))
    as (fv2 & -> & L2 & Hv2).
  repeat f_equal. apply vector_ext; [congruence|].
  intros i Hi. rewrite Hv1, Hv2 by congruence. f_equal.
  apply Rsum_perm. by apply fmap_Permutation.
Qed.

Lemma apply_heat_flux_order_irrelevant_witness :
  apply_heat_flux 0%nat unit_triangle_nodes unit_triangle_elems
    [(0%Z, 3%Z, 2); (0%Z, 1%Z, 4)] [Arr1 [5; 6; 7]]
  = apply_heat_flux 0%nat unit_triangle_nodes unit_triangle_elems
      [(0%Z, 1%Z, 4); (0%Z, 3%Z, 2)] [Arr1 [5; 6; 7]].
Proof.
  apply (apply_heat_flux_order_irrelevant unit_triangle_nodes
           unit_triangle_elems [Arr1 [5; 6; 7]] 0%nat [5; 6; 7]
           [(0%Z, 1%Z, 4); (0%Z, 3%Z, 2)] [(0%Z, 3%Z, 2); (0%Z, 1%Z, 4)]).
  - exact unit_triangle_valid.
  - reflexivity.
  - reflexivity.
  - repeat constructor; cbn; lia.
  - apply perm_swap.
Defined.

(** X6.  Two calls of [apply_heat_flux] in a row, the second on the result
    of the first, give the vector that one call with both lists gives. *)
Theorem apply_heat_flux_in_two_calls nodes elems h f fv
    (recs1 recs2 : list flux_bc) :
  valid_mesh nodes elems →
  h !! f = Some (Arr1 fv) → length fv = length nodes →
  Forall (λ r, valid_edge_ref elems r.1.1 r.1.2) recs1 →
  Forall (λ r, valid_edge_ref elems r.1.1 r.1.2) recs2 →
  ∃ fv1 fv12,
    apply_heat_flux f nodes elems recs1 h
    = (Ok (length h), h ++ [Arr1 fv1]) ∧
    apply_heat_flux (length h) nodes elems recs2 (h ++ [Arr1 fv1])
    = (Ok (S (length h)), h ++ [Arr1 fv1; Arr1 fv12]) ∧
    apply_heat_flux f nodes elems (recs1 ++ recs2) h
    = (Ok (length h), h ++ [Arr1 fv12]).
Proof.
  intros Hmesh Hf Hlen H1 H2.
  destruct (apply_heat_flux_run nodes elems Hmesh h f fv recs1 Hf Hlen H1)
    as (fv1 & Hrun1 & L1 & Hv1).
  destruct (apply_heat_flux_run nodes elems Hmesh (h ++ [Arr1 fv1]) (length h)
              fv1 recs2 (lookup_fresh _ _) L1 H2)
    as (fv12 & Hrun2 & L12 & Hv12).
  destruct (apply_heat_flux_run nodes elems Hmesh h f fv (recs1 ++ recs2) Hf Hlen
              ltac:(by apply Forall_app))
    as (fv' & Hrun & L' & Hv').
  exists fv1, fv12. split; [assumption|split].
  - rewrite Hrun2, length_app, Nat.add_1_r, <- app_assoc. reflexivity.
  - rewrite Hrun. repeat f_equal. apply vector_ext; [congruence|].
    intros i Hi. rewrite Hv', Hv12, Hv1 by congruence.
    rewrite fmap_app, Rsum_app. lra.
Qed.

Lemma apply_heat_flux_in_two_calls_witness :
  ∃ fv1 fv12,
    apply_heat_flux 0%nat unit_triangle_nodes unit_triangle_elems
      [(0%Z, 1%Z, 4)] [Arr1 [5; 6; 7]]
    = (Ok (length [Arr1 [5; 6; 7]]), [Arr1 [5; 6; 7]] ++ [Arr1 fv1]) ∧
    apply_heat_flux (length [Arr1 [5; 6; 7]]) unit_triangle_nodes
      unit_triangle_elems [(0%Z, 3%Z, 2)] ([Arr1 [5; 6; 7]] ++ [Arr1 fv1])
    = (Ok (S (length [Arr1 [5; 6; 7]])),
       [Arr1 [5; 6; 7]] ++ [Arr1 fv1; Arr1 fv12]) ∧
    apply_heat_flux 0%nat unit_triangle_nodes unit_triangle_elems
      ([(0%Z, 1%Z, 4)] ++ [(0%Z, 3%Z, 2)]) [Arr1 [5; 6; 7]]
    = (Ok (length [Arr1 [5; 6; 7]]), [Arr1 [5; 6; 7]] ++ [Arr1 fv12]).
Proof.
  apply (apply_heat_flux_in_two_calls unit_triangle_nodes unit_triangle_elems
           [Arr1 [5; 6; 7]] 0%nat [5; 6; 7] [(0%Z, 1%Z, 4)] [(0%Z, 3%Z, 2)]).
  - exact unit_triangle_valid.
  - reflexivity.
  - reflexivity.
  - repeat constructor; cbn; lia.
  - repeat constructor; cbn; lia.
Defined.

Lemma edge_endpoints_in_range nodes elems elem_id edge_id :
  valid_mesh nodes elems → valid_edge_ref elems elem_id edge_id →
  ∃ g1 g2,
    edge_endpoints elems elem_id edge_id = Some (g1, g2) ∧
    (Z.to_nat g1 < length nodes)%nat ∧ (Z.to_nat g2 < length nodes)%nat.
Proof.
  intros Hmesh Hvalid.
  destruct (resolve_edge _ _ _ _ Hmesh Hvalid)
    as (conn & coords & a & b & x1 & y1 & x2 & y2 &
        _ & _ & _ & _ & _ & Ra & Rb & Eep & _).
  exists (local conn a), (local conn b). split; [assumption|].
  split; [apply (np_index_in_range _ _ Ra) | apply (np_index_in_range _ _ Rb)].
Qed.

Lemma flux_contrib_total nodes elems (r : flux_bc) :
  valid_mesh nodes elems → valid_edge_ref elems r.1.1 r.1.2 →
  Rsum_upto (length nodes) (flux_contrib nodes elems r)
  = flux_record_total nodes elems r.
Proof.
  destruct r as [[elem_id edge_id] q]. cbn [fst snd]. intros Hmesh Hvalid.
  destruct (edge_endpoints_in_range _ _ _ _ Hmesh Hvalid)
    as (g1 & g2 & Eep & H1 & H2).
  unfold flux_contrib, flux_record_total. rewrite Eep. cbv zeta.
  unfold Rsum_upto.
  rewrite (Rsum_fmap_plus
             (λ i, q * edge_length nodes g1 g2 / 2 * indicator i (Z.to_nat g1))
             (λ i, q * edge_length nodes g1 g2 / 2 * indicator i (Z.to_nat g2))).
  rewrite !Rsum_fmap_scal.
  fold (Rsum_upto (length nodes) (λ i, indicator i (Z.to_nat g1))).
  fold (Rsum_upto (length nodes) (λ i, indicator i (Z.to_nat g2))).
  rewrite !Rsum_upto_indicator by assumption. lra.
Qed.

(** X7.  With [apply_heat_flux] the entries of the load vector grow, in
    total, by [q L] for every record: a uniform flux [q] over an edge of
    length [L]. *)
Theorem apply_heat_flux_total_load nodes elems h f fv (recs : list flux_bc) :
  valid_mesh nodes elems →
  h !! f = Some (Arr1 fv) → length fv = length nodes →
  Forall (λ r, valid_edge_ref elems r.1.1 r.1.2) recs →
  ∃ fv',
    apply_heat_flux f nodes elems recs h = (Ok (length h), h ++ [Arr1 fv']) ∧
    Rsum fv' = Rsum fv + Rsum (flux_record_total nodes elems <$> recs).
Proof.
  intros Hmesh Hf Hlen Hall.
  destruct (apply_heat_flux_run nodes elems Hmesh h f fv recs Hf Hlen Hall)
    as (fv' & Hrun & L' & Hv').
  exists fv'. split; [assumption|].
  rewrite (Rsum_vget fv'), (Rsum_vget fv), L', Hlen. unfold Rsum_upto at 1.
  rewrite (Rsum_fmap_ext _
             (λ i, vget fv i
                   + Rsum ((λ r, flux_contrib nodes elems r i) <$> recs))).
  2: { intros i Hi. apply Hv'. apply elem_of_seq in Hi. lia. }
  rewrite Rsum_fmap_plus. fold (Rsum_upto (length nodes) (vget fv)). f_equal.
  fold (Rsum_upto (length nodes)
          (λ i, Rsum ((λ r, flux_contrib nodes elems r i) <$> recs))).
  rewrite (Rsum_swap _ (flux_contrib nodes elems)).
  apply Rsum_fmap_ext. intros r Hr. apply flux_contrib_total; [assumption|].
  rewrite List.Forall_forall in Hall. apply Hall. by apply list_elem_of_In.
Qed.

Lemma apply_heat_flux_total_load_witness :
  ∃ fv',
    apply_heat_flux 0%nat unit_triangle_nodes unit_triangle_elems
      [(0%Z, 1%Z, 4); (0%Z, 3%Z, 2)] [Arr1 [5; 6; 7]]
    = (Ok (length [Arr1 [5; 6; 7]]), [Arr1 [5; 6; 7]] ++ [Arr1 fv']) ∧
    Rsum fv'
    = Rsum [5; 6; 7]
      + Rsum (flux_record_total unit_triangle_nodes unit_triangle_elems
                <$> [(0%Z, 1%Z, 4); (0%Z, 3%Z, 2)]).
Proof.
  apply (apply_heat_flux_total_load unit_triangle_nodes unit_triangle_elems
           [Arr1 [5; 6; 7]] 0%nat [5; 6; 7] [(0%Z, 1%Z, 4); (0%Z, 3%Z, 2)]).
  - exact unit_triangle_valid.
  - reflexivity.
  - reflexivity.
  - repeat constructor; cbn; lia.
Defined.

(** ** Robin records: order, symmetry, balance at the ambient temperature *)

(** X8.  The result of [apply_convection] does not depend on the order of
    the records. *)
Theorem apply_convection_order_irrelevant nodes elems h K f Kv fv
    (recs recs' : list conv_bc) :
  valid_mesh nodes elems →
  h !! K = Some (Arr2 Kv) → h !! f = Some (Arr1 fv) →
  has_shape (length nodes) (length nodes) Kv → length fv = length nodes →
  Forall (λ r, valid_edge_ref elems r.1.1.1 r.1.1.2) recs →
  recs ≡ₚ recs' →
  apply_convection K f nodes elems recs' h
  = apply_convection K f nodes elems recs h.
Proof.
  intros Hmesh HK Hf Hshape Hlen Hall Hperm.
  destruct (apply_convection_run nodes elems Hmesh h K f Kv fv recs
              HK Hf Hshape Hlen Hall)
    as (K1 & f1 & -> & S1 & L1 & HK1 & Hf1).
  destruct (apply_convection_run nodes elems Hmesh h K f Kv fv recs'
              HK Hf Hshape Hlen ltac:(by rewrite <- Hperm))
    as (K2 & f2 & -> & S2 & L2 & HK2 & Hf2).
  assert (K2 = K1) as ->.
  { apply (matrix_ext _ _ _ _ S2 S1). intros i j Hi Hj.
    rewrite HK1, HK2 by assumption. f_equal.
    apply Rsum_perm. by apply fmap_Permutation. }
  assert (f2 = f1) as ->; [|reflexivity].
  apply vector_ext; [congruence|].
  intros i Hi. rewrite Hf1, Hf2 by congruence. f_equal.
  apply Rsum_perm. by apply fmap_Permutation.
Qed.

Lemma apply_convection_order_irrelevant_witness :
  apply_convection 0%nat 1%nat unit_triangle_nodes unit_triangle_elems
    [(0%Z, 3%Z, 3, 20); (0%Z, 1%Z, 6, 10)]
    [Arr2 [[1; 2; 3]; [4; 5; 6]; [7; 8; 9]]; Arr1 [5; 6; 7]]
  = apply_convection 0%nat 1%nat unit_triangle_nodes unit_triangle_elems
      [(0%Z, 1%Z, 6, 10); (0%Z, 3%Z, 3, 20)]
      [Arr2 [[1; 2; 3]; [4; 5; 6]; [7; 8; 9]]; Arr1 [5; 6; 7]].
Proof.
  apply (apply_convection_order_irrelevant unit_triangle_nodes
           unit_triangle_elems
           [Arr2 [[1; 2; 3]; [4; 5; 6]; [7; 8; 9]]; Arr1 [5; 6; 7]]
           0%nat 1%nat [[1; 2; 3]; [4; 5; 6]; [7; 8; 9]] [5; 6; 7]
           [(0%Z, 1%Z, 6, 10); (0%Z, 3%Z, 3, 20)]
           [(0%Z, 3%Z, 3, 20); (0%Z, 1%Z, 6, 10)]).
  - exact unit_triangle_valid.
  - reflexivity.
  - reflexivity.
  - split; [reflexivity|]. repeat constructor.
  - reflexivity.
  - repeat constructor; cbn; lia.
  - apply perm_swap.
Defined.

(** X9.  [apply_convection] keeps a symmetric matrix symmetric. *)
Theorem apply_convection_keeps_symmetry nodes elems h K f Kv fv
    (recs : list conv_bc) :
  valid_mesh nodes elems →
  h !! K = Some (Arr2 Kv) → h !! f = Some (Arr1 fv) →
  has_shape (length nodes) (length nodes) Kv → length fv = length nodes →
  Forall (λ r, valid_edge_ref elems r.1.1.1 r.1.1.2) recs →
  symmetric_matrix (length nodes) Kv →
  ∃ Kv' fv',
    apply_convection K f nodes elems recs h
    = (Ok (length h, S (length h)), h ++ [Arr2 Kv'; Arr1 fv']) ∧
    symmetric_matrix (length nodes) Kv'.
Proof.
  intros Hmesh HK Hf Hshape Hlen Hall Hsym.
  destruct (apply_convection_run nodes elems Hmesh h K f Kv fv recs
              HK Hf Hshape Hlen Hall)
    as (Kv' & fv' & Hrun & _ & _ & HK' & _).
  exists Kv', fv'. split; [assumption|].
  intros i j Hi Hj. rewrite (HK' i j), (HK' j i), (Hsym i j) by assumption.
  f_equal. apply Rsum_fmap_ext. intros r _. apply conv_contrib_K_sym.
Qed.

Lemma apply_convection_keeps_symmetry_witness :
  ∃ Kv' fv',
    apply_convection 0%nat 1%nat unit_triangle_nodes unit_triangle_elems
      [(0%Z, 1%Z, 6, 10)]
      [Arr2 [[2; 3; 1]; [3; 6; 8]; [1; 8; 7]]; Arr1 [5; 6; 7]]
    = (Ok (length [Arr2 [[2; 3; 1]; [3; 6; 8]; [1; 8; 7]]; Arr1 [5; 6; 7]],
           S (length [Arr2 [[2; 3; 1]; [3; 6; 8]; [1; 8; 7]]; Arr1 [5; 6; 7]])),
       [Arr2 [[2; 3; 1]; [3; 6; 8]; [1; 8; 7]]; Arr1 [5; 6; 7]]
         ++ [Arr2 Kv'; Arr1 fv']) ∧
    symmetric_matrix (length unit_triangle_nodes) Kv'.
Proof.
  apply (apply_convection_keeps_symmetry unit_triangle_nodes unit_triangle_elems
           [Arr2 [[2; 3; 1]; [3; 6; 8]; [1; 8; 7]]; Arr1 [5; 6; 7]]
           0%nat 1%nat [[2; 3; 1]; [3; 6; 8]; [1; 8; 7]] [5; 6; 7]
           [(0%Z, 1%Z, 6, 10)]).
  - exact unit_triangle_valid.
  - reflexivity.
  - reflexivity.
  - split; [reflexivity|]. repeat constructor.
  - reflexivity.
  - repeat constructor; cbn; lia.
  - intros i j Hi Hj. cbn in Hi, Hj.
    destruct i as [|[|[|i]]]; [| | |lia];
      (destruct j as [|[|[|j]]]; [| | |lia]); reflexivity.
Defined.

Lemma conv_contrib_balance nodes elems (r : conv_bc) i :
  valid_mesh nodes elems → valid_edge_ref elems r.1.1.1 r.1.1.2 →
  Rsum_upto (length nodes) (λ j, conv_contrib_K nodes elems r i j * r.2)
  = conv_contrib_f nodes elems r i.
Proof.
  destruct r as [[[elem_id edge_id] hc] Tinf]. cbn [fst snd].
  intros Hmesh Hvalid.
  destruct (edge_endpoints_in_range _ _ _ _ Hmesh Hvalid)
    as (g1 & g2 & Eep & H1 & H2).
  unfold conv_contrib_K, conv_contrib_f. rewrite Eep. cbv zeta.
  set (L := edge_length nodes g1 g2). set (a := Z.to_nat g1) in *.
  set (b := Z.to_nat g2) in *.
  unfold Rsum_upto.
  rewrite (Rsum_fmap_ext _
    (λ j, hc * L / 6 * Tinf * (2 * indicator i a + indicator i b) * indicator j a
          + hc * L / 6 * Tinf * (indicator i a + 2 * indicator i b) * indicator j b))
    by (intros; ring).
  rewrite (Rsum_fmap_plus
    (λ j, hc * L / 6 * Tinf * (2 * indicator i a + indicator i b) * indicator j a)
    (λ j, hc * L / 6 * Tinf * (indicator i a + 2 * indicator i b) * indicator j b)).
  rewrite !Rsum_fmap_scal.
  fold (Rsum_upto (length nodes) (λ j, indicator j a)).
  fold (Rsum_upto (length nodes) (λ j, indicator j b)).
  rewrite !Rsum_upto_indicator by assumption. field.
Qed.

(** X10.  When every record of [apply_convection] has the same ambient
    temperature [T], the added matrix applied to the uniform field [T] is
    the added load: a body at the ambient temperature exchanges no heat. *)
Theorem apply_convection_balanced_at_ambient nodes elems h K f Kv fv
    (recs : list conv_bc) (T : R) :
  valid_mesh nodes elems →
  h !! K = Some (Arr2 Kv) → h !! f = Some (Arr1 fv) →
  has_shape (length nodes) (length nodes) Kv → length fv = length nodes →
  Forall (λ r, valid_edge_ref elems r.1.1.1 r.1.1.2) recs →
  Forall (λ r, r.2 = T) recs →
  ∃ Kv' fv',
    apply_convection K f nodes elems recs h
    = (Ok (length h, S (length h)), h ++ [Arr2 Kv'; Arr1 fv']) ∧
    ∀ i, (i < length nodes)%nat →
      Rsum_upto (length nodes) (λ j, (mget Kv' i j - mget Kv i j) * T)
      = vget fv' i - vget fv i.
Proof.
  intros Hmesh HK Hf Hshape Hlen Hall HT.
  destruct (apply_convection_run nodes elems Hmesh h K f Kv fv recs
              HK Hf Hshape Hlen Hall)
    as (Kv' & fv' & Hrun & _ & _ & HK' & Hf').
  exists Kv', fv'. split; [assumption|].
  intros i Hi. rewrite Hf' by assumption.
  unfold Rsum_upto.
  rewrite (Rsum_fmap_ext _
    (λ j, Rsum ((λ r, conv_contrib_K nodes elems r i j * T) <$> recs))).
  2: { intros j Hj. apply elem_of_seq in Hj.
       rewrite HK' by (assumption || lia).
       match goal with |- (?a + ?b - ?a) * T = _ =>
         replace ((a + b - a) * T) with (T * b) by ring end.
       rewrite <- (Rsum_fmap_scal T).
       apply Rsum_fmap_ext. intros; ring. }
  fold (Rsum_upto (length nodes)
          (λ j, Rsum ((λ r, conv_contrib_K nodes elems r i j * T) <$> recs))).
  rewrite (Rsum_swap _ (λ r j, conv_contrib_K nodes elems r i j * T)).
  match goal with |- _ = ?a + ?b - ?a => replace (a + b - a) with b by ring end.
  apply Rsum_fmap_ext. intros r Hr.
  rewrite List.Forall_forall in Hall, HT. apply list_elem_of_In in Hr.
  rewrite <- (HT r Hr). apply conv_contrib_balance; [assumption|].
  by apply Hall.
Qed.

Lemma apply_convection_balanced_at_ambient_witness :
  ∃ Kv' fv',
    apply_convection 0%nat 1%nat unit_triangle_nodes unit_triangle_elems
      [(0%Z, 1%Z, 6, 10); (0%Z, 3%Z, 3, 10)]
      [Arr2 [[1; 2; 3]; [4; 5; 6]; [7; 8; 9]]; Arr1 [5; 6; 7]]
    = (Ok (length [Arr2 [[1; 2; 3]; [4; 5; 6]; [7; 8; 9]]; Arr1 [5; 6; 7]],
           S (length [Arr2 [[1; 2; 3]; [4; 5; 6]; [7; 8; 9]]; Arr1 [5; 6; 7]])),
       [Arr2 [[1; 2; 3]; [4; 5; 6]; [7; 8; 9]]; Arr1 [5; 6; 7]]
         ++ [Arr2 Kv'; Arr1 fv']) ∧
    ∀ i, (i < length unit_triangle_nodes)%nat →
      Rsum_upto (length unit_triangle_nodes)
        (λ j, (mget Kv' i j - mget [[1; 2; 3]; [4; 5; 6]; [7; 8; 9]] i j) * 10)
      = vget fv' i - vget [5; 6; 7] i.
Proof.
  apply (apply_convection_balanced_at_ambient unit_triangle_nodes
           unit_triangle_elems
           [Arr2 [[1; 2; 3]; [4; 5; 6]; [7; 8; 9]]; Arr1 [5; 6; 7]]
           0%nat 1%nat [[1; 2; 3]; [4; 5; 6]; [7; 8; 9]] [5; 6; 7]
           [(0%Z, 1%Z, 6, 10); (0%Z, 3%Z, 3, 10)] 10).
  - exact unit_triangle_valid.
  - reflexivity.
  - reflexivity.
  - split; [reflexivity|]. repeat constructor.
  - reflexivity.
  - repeat constructor; cbn; lia.
  - repeat constructor.
Defined.

(** ** Negative element ids *)

Lemma np_index_wrap n i : np_index n (wrap_index n i) = np_index n i.
Proof.
  unfold wrap_index. case_decide as Hneg; [|reflexivity].
  unfold np_index. rewrite decide_True by lia.
  rewrite (decide_False (P := (0 ≤ i < Z.of_nat n)%Z)) by lia.
  rewrite decide_True by lia. reflexivity.
Qed.

Lemma getitem_elem_wrap elems i :
  getitem_elem elems (wrap_index (length elems) i) = getitem_elem elems i.
Proof. unfold getitem_elem. by rewrite np_index_wrap. Qed.

Lemma for_each_fmap_ext {A B} (g : A → B) (body : B → M unit)
    (body' : A → M unit) (xs : list A) h :
  (∀ x h, body (g x) h = body' x h) →
  for_each (g <$> xs) body h = for_each xs body' h.
Proof.
  intros Hext. revert h. induction xs as [|x xs IH]; intros h; [reflexivity|].
  cbn [fmap list_fmap for_each]. unfold mbind, M_bind. rewrite Hext.
  destruct (body' x h) as [[[]|e] h1]; [apply IH | reflexivity].
Qed.

Lemma bind_cong {A B} (m m' : M A) (k k' : A → M B) h :
  m h = m' h → (∀ a h1, k a h1 = k' a h1) → (m ≫= k) h = (m' ≫= k') h.
Proof.
  intros Hm Hk. unfold mbind, M_bind. rewrite Hm.
  destruct (m' h) as [[a|e] h1]; [apply Hk | reflexivity].
Qed.

(** X11.  An element id from [-M] to [-1] names the element [M + e]: both
    appliers do with such a record exactly what they do with the record
    that names [M + e], and ids below [-M] are not changed by
    [wrap_index]. *)
Theorem appliers_read_negative_ids_from_the_end K f nodes elems
    (frecs : list flux_bc) (crecs : list conv_bc) h :
  apply_heat_flux f nodes elems
    ((λ r, (wrap_index (length elems) r.1.1, r.1.2, r.2)) <$> frecs) h
  = apply_heat_flux f nodes elems frecs h ∧
  apply_convection K f nodes elems
    ((λ r, (wrap_index (length elems) r.1.1.1, r.1.1.2, r.1.2, r.2)) <$> crecs) h
  = apply_convection K f nodes elems crecs h.
Proof.
  split.
  - unfold apply_heat_flux.
    apply bind_cong; [reflexivity|]. intros fmod h1.
    apply bind_cong; [|reflexivity].
    apply for_each_fmap_ext.
    intros [[elem_id edge_id] q] h0. cbn [fst snd].
    by rewrite getitem_elem_wrap.
  - unfold apply_convection.
    apply bind_cong; [reflexivity|]. intros Kmod h1.
    apply bind_cong; [reflexivity|]. intros fmod h2.
    apply bind_cong; [|reflexivity].
    apply for_each_fmap_ext.
    intros [[[elem_id edge_id] hc] Tinf] h0. cbn [fst snd].
    by rewrite getitem_elem_wrap.
Qed.

(** ** Assembly: when it succeeds, and how it fails *)

Lemma getitem_node_raise nodes g e :
  getitem_node nodes g = Raise e → e = IndexError ∧ ¬ in_range (length nodes) g.
Proof.
  intros E. split.
  - unfold getitem_node, np_index in E.
    repeat case_decide; cbn in E;
      repeat match type of E with
             | match ?x with _ => _ end = _ => destruct x
             end; congruence.
  - intros Hg. destruct (getitem_node_in_range _ _ Hg) as (p & _ & E').
    congruence.
Qed.

Lemma take_coords_raise nodes conn e :
  take_coords nodes conn = Raise e →
  e = IndexError ∧ ¬ conn_in_range (length nodes) conn.
Proof.
  unfold take_coords, conn_in_range. intros E.
  destruct (getitem_node nodes conn.1.1) as [p0|e0] eqn:E0.
  2: { cbn in E. injection E as <-.
       destruct (getitem_node_raise _ _ _ E0). split; [assumption|tauto]. }
  destruct (getitem_node nodes conn.1.2) as [p1|e1] eqn:E1.
  2: { cbn in E. injection E as <-.
       destruct (getitem_node_raise _ _ _ E1). split; [assumption|tauto]. }
  destruct (getitem_node nodes conn.2) as [p2|e2] eqn:E2.
  2: { cbn in E. injection E as <-.
       destruct (getitem_node_raise _ _ _ E2). split; [assumption|tauto]. }
  discriminate.
Qed.

Lemma Forall_cons_iff {A} (P : A → Prop) x l :
  Forall P (x :: l) ↔ P x ∧ Forall P l.
Proof.
  split; [apply Forall_cons_1 | intros [? ?]; by constructor].
Qed.

Lemma element_triplets_range n conn Ke :
  Forall (triplet_in_range n) (element_triplets conn Ke) ↔ conn_in_range n conn.
Proof.
  destruct conn as [[n0 n1] n2]. unfold conn_in_range, in_range. cbn [fst snd].
  split.
  - intros H. cbn in H. rewrite !Forall_cons_iff in H.
    unfold triplet_in_range in H. cbn [fst snd] in H. tauto.
  - intros (H0 & H1 & H2). repeat constructor; cbn; lia.
Qed.

(** The loop over the elements stops with [IndexError] at the first
    element with an index that numpy refuses; otherwise it gives the
    coordinate lists, which are in range exactly when all indices are. *)
Lemma assemble_triplets_cases nodes elems k :
  (∃ ts, assemble_triplets nodes elems k = Ok ts ∧
         (Forall (triplet_in_range (length nodes)) ts
          ↔ Forall (conn_in_range (length nodes)) elems)) ∨
  (assemble_triplets nodes elems k = Raise IndexError ∧
   ¬ Forall (conn_in_range (length nodes)) elems).
Proof.
  induction elems as [|conn elems IH].
  - left. exists []. split; [reflexivity|]. split; constructor.
  - cbn [assemble_triplets].
    destruct (take_coords nodes conn) as [coords|e] eqn:Ec.
    + unfold mbind, outcome_bind. cbv beta iota zeta.
      destruct IH as [(ts & -> & Hiff)|[-> Hnot]].
      * left. eexists. split; [reflexivity|].
        rewrite Forall_app, Forall_cons_iff, element_triplets_range, Hiff.
        reflexivity.
      * right. split; [reflexivity|]. rewrite Forall_cons_iff. tauto.
    + destruct (take_coords_raise _ _ _ Ec) as [-> Hnot].
      right. split; [reflexivity|]. rewrite Forall_cons_iff. tauto.
Qed.

(** X12.  [assemble_global] returns a matrix exactly when every connectivity
    index is a node index [0 .. N-1].  Otherwise it raises, [IndexError]
    from [nodes[conn, :2]] or [ValueError] from [coo_matrix] (a negative
    index that numpy accepted), and allocates nothing. *)
Theorem assemble_global_succeeds_iff_indices_valid nodes elems k h :
  (Forall (conn_in_range (length nodes)) elems ∧
   ∃ Kv, assemble_global nodes elems k h = (Ok (length h), h ++ [Arr2 Kv]) ∧
         has_shape (length nodes) (length nodes) Kv) ∨
  (¬ Forall (conn_in_range (length nodes)) elems ∧
   ∃ e, assemble_global nodes elems k h = (Raise e, h) ∧
        (e = IndexError ∨ e = ValueError)).
Proof.
  unfold assemble_global. cbv zeta.
  destruct (assemble_triplets_cases nodes elems k) as [(ts & Ets & Hiff)|[Ets Hnot]].
  - rewrite (run_lift _ _ _ _ Ets). unfold coo_toarray.
    destruct (decide (Forall (triplet_in_range (length nodes)) ts)) as [Hr|Hr].
    + left. split; [by apply Hiff|]. eexists. split; [reflexivity|].
      apply (foldl_add_triplet _ ts _ (has_shape_zeros2 _ _) Hr).
    + right. split; [by rewrite <- Hiff|]. exists ValueError. by split; [|right].
  - right. split; [assumption|]. exists IndexError.
    split; [|by left]. by rewrite (run_lift_raise _ _ _ _ Ets).
Qed.

(** A connectivity index [-1] is a valid numpy index into [nodes], and is
    refused only when the sparse matrix is built. *)
Example assemble_global_negative_index :
  assemble_global unit_triangle_nodes [(0, 1, -1)%Z] 1 [] = (Raise ValueError, []).
Proof. reflexivity. Qed.

Example assemble_global_index_too_large :
  assemble_global unit_triangle_nodes [(0, 1, 3)%Z] 1 [] = (Raise IndexError, []).
Proof. reflexivity. Qed.

(** ** Assembly: the quadratic form *)

Lemma dot_cons x (r : vector) y (u : vector) :
  dot (x :: r) (y :: u) = x * y + dot r u.
Proof. reflexivity. Qed.

Lemma dot_alter_add (row u : vector) c v :
  (c < length row)%nat → length row = length u →
  dot (alter (λ x, x + v) c row) u = dot row u + v * vget u c.
Proof.
  revert u c. induction row as [|x row IH]; intros [|y u] c Hc Hlen;
    try (cbn in *; lia).
  destruct c as [|c].
  - change (alter (λ x, x + v) 0%nat (x :: row)) with ((x + v) :: row).
    rewrite !dot_cons. change (vget (y :: u) 0) with y. lra.
  - change (alter (λ x, x + v) (S c) (x :: row))
      with (x :: alter (λ x, x + v) c row).
    rewrite !dot_cons, IH by (cbn in *; lia).
    change (vget (y :: u) (S c)) with (vget u c). lra.
Qed.

Lemma dot_alter_add_r (u y : vector) r w :
  (r < length y)%nat → length u = length y →
  dot u (alter (λ x, x + w) r y) = dot u y + vget u r * w.
Proof.
  revert y r. induction u as [|a u IH]; intros [|b y] r Hr Hlen;
    try (cbn in *; lia).
  destruct r as [|r].
  - change (alter (λ x, x + w) 0%nat (b :: y)) with ((b + w) :: y).
    rewrite !dot_cons. change (vget (a :: u) 0) with a. lra.
  - change (alter (λ x, x + w) (S r) (b :: y))
      with (b :: alter (λ x, x + w) r y).
    rewrite !dot_cons, IH by (cbn in *; lia).
    change (vget (a :: u) (S r)) with (vget u r). lra.
Qed.

Lemma mat_vec_entry_add n (m : matrix) (u : vector) r c v :
  has_shape n n m → length u = n → (c < n)%nat →
  mat_vec (alter (λ row : vector, alter (λ x, x + v) c row) r m) u
  = alter (λ x, x + v * vget u c) r (mat_vec m u).
Proof.
  intros [Hn Hrows] Hu Hc. unfold mat_vec. apply list_fmap_alter.
  eapply List.Forall_impl; [|exact Hrows].
  intros row Hrow. cbv beta in Hrow. apply dot_alter_add; lia.
Qed.

Lemma quad_form_entry_add n (m : matrix) (u : vector) r c v :
  has_shape n n m → length u = n → (r < n)%nat → (c < n)%nat →
  quad_form (alter (λ row : vector, alter (λ x, x + v) c row) r m) u
  = quad_form m u + v * vget u r * vget u c.
Proof.
  intros Hshape Hu Hr Hc. unfold quad_form.
  rewrite (mat_vec_entry_add n) by assumption.
  rewrite dot_alter_add_r.
  - lra.
  - unfold mat_vec. rewrite length_fmap. destruct Hshape as [-> _]. assumption.
  - unfold mat_vec. rewrite length_fmap. destruct Hshape as [-> _]. assumption.
Qed.

Lemma quad_form_foldl n (u : vector) (ts : list triplet) : ∀ m,
  has_shape n n m → length u = n → Forall (triplet_in_range n) ts →
  quad_form (foldl add_triplet m ts) u
  = quad_form m u + Rsum (triplet_quad u <$> ts).
Proof.
  induction ts as [|[[r c] v] ts IH]; intros m Hshape Hu Hall.
  - cbn. lra.
  - destruct (Forall_cons_1 _ _ _ Hall) as [[Hr Hc] Hrest].
    cbn [fst snd] in Hr, Hc. cbn [foldl].
    rewrite IH; [|by apply has_shape_entry_add|assumption..].
    unfold add_triplet. cbn [fst snd].
    rewrite (quad_form_entry_add n) by (assumption || lia).
    rewrite fmap_cons, Rsum_cons. unfold triplet_quad at 2. cbn [fst snd]. lra.
Qed.

Lemma dot_zeros_l (u : vector) n : dot (replicate n 0) u = 0.
Proof.
  revert u. induction n as [|n IH]; intros [|y u]; try reflexivity.
  change (replicate (S n) 0) with (0 :: replicate n 0).
  rewrite dot_cons, IH. lra.
Qed.

Lemma quad_form_zeros n (u : vector) : quad_form (zeros2 n n) u = 0.
Proof.
  unfold quad_form, mat_vec, zeros2. rewrite fmap_replicate, dot_zeros_l.
  generalize n at 1. intros m. revert u.
  induction m as [|m IH]; intros [|y u]; try reflexivity.
  change (replicate (S m) 0) with (0 :: replicate m 0).
  rewrite dot_cons, IH. lra.
Qed.

(** One element: its entries add the element's own quadratic form,
    [k area |B w|²], which is not negative. *)
Lemma element_quad_nonneg (c : coords_t) (k : R) conn (u : vector) :
  0 <= k →
  0 <= Rsum (triplet_quad u <$> element_triplets conn (element_stiffness_triangle c k)).
Proof.
  destruct c as [[[x1 y1] [x2 y2]] [x3 y3]], conn as [[n0 n1] n2]. intros Hk.
  rewrite element_stiffness_closed_form. cbv zeta.
  cbn. unfold triplet_quad. cbn [fst snd].
  set (d := det2 (x2 - x1) (x3 - x1) (y2 - y1) (y3 - y1)).
  set (w0 := vget u (Z.to_nat n0)). set (w1 := vget u (Z.to_nat n1)).
  set (w2 := vget u (Z.to_nat n2)).
  set (s := k * (0.5 * Rabs d) * (1 / d) * (1 / d)).
  assert (Hs : 0 <= s).
  { unfold s. rewrite half_eq.
    replace (k * (1 / 2 * Rabs d) * (1 / d) * (1 / d))
      with (k * (1 / 2) * Rabs d * ((1 / d) * (1 / d))) by ring.
    pose proof (Rabs_pos d). pose proof (Rle_0_sqr (1 / d)) as Hsq.
    unfold Rsqr in Hsq.
    apply Rmult_le_pos; [|assumption].
    apply Rmult_le_pos; [|assumption]. lra. }
  match goal with |- 0 <= ?e =>
    replace e with
      (s * (((y2 - y3) * w0 + (y3 - y1) * w1 + (y1 - y2) * w2)
              * ((y2 - y3) * w0 + (y3 - y1) * w1 + (y1 - y2) * w2)
            + ((x3 - x2) * w0 + (x1 - x3) * w1 + (x2 - x1) * w2)
              * ((x3 - x2) * w0 + (x1 - x3) * w1 + (x2 - x1) * w2))) by ring
  end.
  apply Rmult_le_pos; [assumption|].
  apply Rplus_le_le_0_compat; apply Rle_0_sqr.
Qed.

(** The coordinate lists of a mesh with valid indices, and the matrix made
    of them. *)
Lemma assemble_global_value nodes elems k h :
  Forall (conn_in_range (length nodes)) elems →
  ∃ ts,
    assemble_triplets nodes elems k = Ok ts ∧
    Forall (triplet_in_range (length nodes)) ts ∧
    assemble_global nodes elems k h
    = (Ok (length h),
       h ++ [Arr2 (foldl add_triplet (zeros2 (length nodes) (length nodes)) ts)]).
Proof.
  intros Hvalid.
  destruct (assemble_triplets_cases nodes elems k) as [(ts & Ets & Hiff)|[_ Hnot]];
    [|contradiction].
  exists ts. split; [assumption|]. split; [by apply Hiff|].
  unfold assemble_global. cbv zeta. rewrite (run_lift _ _ _ _ Ets).
  unfold coo_toarray. rewrite decide_True by (by apply Hiff). reflexivity.
Qed.

Lemma valid_mesh_indices nodes elems :
  valid_mesh nodes elems → Forall (conn_in_range (length nodes)) elems.
Proof.
  apply List.Forall_impl. intros conn (H0 & H1 & H2 & _).
  exact (conj H0 (conj H1 H2)).
Qed.

Lemma assemble_triplets_quad_nonneg nodes elems (k : R) (u : vector) : ∀ ts,
  0 <= k → assemble_triplets nodes elems k = Ok ts →
  0 <= Rsum (triplet_quad u <$> ts).
Proof.
  induction elems as [|conn elems IH]; intros ts Hk E.
  - injection E as <-. cbn. lra.
  - cbn [assemble_triplets] in E.
    destruct (take_coords nodes conn) as [coords|e]; [|discriminate].
    destruct (assemble_triplets nodes elems k) as [ts'|e]; [|discriminate].
    change (Ok (element_triplets conn (element_stiffness_triangle coords k) ++ ts')
            = Ok ts) in E.
    assert (Hts : element_triplets conn (element_stiffness_triangle coords k) ++ ts'
                  = ts) by congruence.
    rewrite <- Hts, fmap_app, Rsum_app.
    pose proof (element_quad_nonneg coords k conn u Hk).
    pose proof (IH ts' Hk eq_refl). lra.
Qed.

(** X13.  On a valid mesh with conductivity [k >= 0] the assembled matrix is
    positive semi-definite: [u . (K u) >= 0] for every nodal field [u]. *)
Theorem assemble_global_positive_semidefinite nodes elems (k : R) h
    (u : vector) :
  valid_mesh nodes elems → 0 <= k → length u = length nodes →
  ∃ Kv,
    assemble_global nodes elems k h = (Ok (length h), h ++ [Arr2 Kv]) ∧
    0 <= dot u (mat_vec Kv u).
Proof.
  intros Hmesh Hk Hu.
  destruct (assemble_global_value nodes elems k h (valid_mesh_indices _ _ Hmesh))
    as (ts & Ets & Hrange & Hrun).
  eexists. split; [exact Hrun|].
  fold (quad_form (foldl add_triplet (zeros2 (length nodes) (length nodes)) ts) u).
  rewrite (quad_form_foldl (length nodes))
    by (assumption || apply has_shape_zeros2).
  rewrite quad_form_zeros.
  pose proof (assemble_triplets_quad_nonneg nodes elems k u ts Hk Ets). lra.
Qed.

Lemma assemble_global_positive_semidefinite_witness :
  ∃ Kv,
    assemble_global unit_triangle_nodes unit_triangle_elems 2 []
    = (Ok (length ([] : heap)), [] ++ [Arr2 Kv]) ∧
    0 <= dot [3; -1; 4] (mat_vec Kv [3; -1; 4]).
Proof.
  apply (assemble_global_positive_semidefinite unit_triangle_nodes
           unit_triangle_elems 2 [] [3; -1; 4]).
  - exact unit_triangle_valid.
  - lra.
  - reflexivity.
Defined.

(** ** Conductivity and position *)

Lemma element_stiffness_scale (c : coords_t) (k : R) a b :
  (a < 3)%nat → (b < 3)%nat →
  mget (element_stiffness_triangle c k) a b
  = k * mget (element_stiffness_triangle c 1) a b.
Proof.
  destruct c as [[[x1 y1] [x2 y2]] [x3 y3]]. intros Ha Hb.
  rewrite !element_stiffness_closed_form. cbv zeta.
  destruct a as [|[|[|a]]]; [| | |lia];
    (destruct b as [|[|[|b]]]; [| | |lia]); cbn; ring.
Qed.

Lemma element_triplets_scale conn (Kek Ke1 : matrix) (k : R) i j :
  (∀ a b, (a < 3)%nat → (b < 3)%nat → mget Kek a b = k * mget Ke1 a b) →
  Rsum (triplet_at i j <$> element_triplets conn Kek)
  = k * Rsum (triplet_at i j <$> element_triplets conn Ke1).
Proof.
  destruct conn as [[n0 n1] n2]. intros H.
  cbn. unfold triplet_at. cbn [fst snd].
  rewrite (H 0%nat 0%nat), (H 0%nat 1%nat), (H 0%nat 2%nat),
    (H 1%nat 0%nat), (H 1%nat 1%nat), (H 1%nat 2%nat),
    (H 2%nat 0%nat), (H 2%nat 1%nat), (H 2%nat 2%nat) by lia.
  ring.
Qed.

Lemma assemble_triplets_scale nodes elems (k : R) i j : ∀ tsk ts1,
  assemble_triplets nodes elems k = Ok tsk →
  assemble_triplets nodes elems 1 = Ok ts1 →
  Rsum (triplet_at i j <$> tsk) = k * Rsum (triplet_at i j <$> ts1).
Proof.
  induction elems as [|conn elems IH]; intros tsk ts1 Ek E1.
  - injection Ek as <-. injection E1 as <-. cbn. lra.
  - cbn [assemble_triplets] in Ek, E1.
    destruct (take_coords nodes conn) as [coords|e]; [|discriminate].
    destruct (assemble_triplets nodes elems k) as [tk|e]; [|discriminate].
    destruct (assemble_triplets nodes elems 1) as [t1|e]; [|discriminate].
    change (Ok (element_triplets conn (element_stiffness_triangle coords k) ++ tk)
            = Ok tsk) in Ek.
    change (Ok (element_triplets conn (element_stiffness_triangle coords 1) ++ t1)
            = Ok ts1) in E1.
    assert (Hk : element_triplets conn (element_stiffness_triangle coords k) ++ tk
                 = tsk) by congruence.
    assert (H1 : element_triplets conn (element_stiffness_triangle coords 1) ++ t1
                 = ts1) by congruence.
    rewrite <- Hk, <- H1, !fmap_app, !Rsum_app.
    rewrite (IH tk t1 eq_refl eq_refl).
    rewrite (element_triplets_scale conn _ (element_stiffness_triangle coords 1) k).
    + ring.
    + intros a b. apply element_stiffness_scale.
Qed.

(** X14.  The assembled matrix is proportional to the conductivity: with [k]
    it is [k] times the matrix assembled with conductivity 1. *)
Theorem assemble_global_linear_in_conductivity nodes elems (k : R) h :
  valid_mesh nodes elems →
  ∃ K1 Kk,
    assemble_global nodes elems 1 h = (Ok (length h), h ++ [Arr2 K1]) ∧
    assemble_global nodes elems k h = (Ok (length h), h ++ [Arr2 Kk]) ∧
    ∀ i j, (i < length nodes)%nat → (j < length nodes)%nat →
      mget Kk i j = k * mget K1 i j.
Proof.
  intros Hmesh. pose proof (valid_mesh_indices _ _ Hmesh) as Hidx.
  destruct (assemble_global_value nodes elems 1 h Hidx) as (ts1 & E1 & R1 & Run1).
  destruct (assemble_global_value nodes elems k h Hidx) as (tsk & Ek & Rk & Runk).
  eexists _, _. split; [exact Run1|split; [exact Runk|]].
  intros i j Hi Hj.
  destruct (foldl_add_triplet (length nodes) ts1 _ (has_shape_zeros2 _ _) R1)
    as (_ & Hent1 & _).
  destruct (foldl_add_triplet (length nodes) tsk _ (has_shape_zeros2 _ _) Rk)
    as (_ & Hentk & _).
  rewrite Hent1, Hentk, !mget_zeros2 by assumption.
  rewrite (assemble_triplets_scale nodes elems k i j tsk ts1 Ek E1). ring.
Qed.

Lemma assemble_global_linear_in_conductivity_witness :
  ∃ K1 Kk,
    assemble_global unit_triangle_nodes unit_triangle_elems 1 []
    = (Ok (length ([] : heap)), [] ++ [Arr2 K1]) ∧
    assemble_global unit_triangle_nodes unit_triangle_elems 7 []
    = (Ok (length ([] : heap)), [] ++ [Arr2 Kk]) ∧
    ∀ i j, (i < length unit_triangle_nodes)%nat →
      (j < length unit_triangle_nodes)%nat →
      mget Kk i j = 7 * mget K1 i j.
Proof.
  apply (assemble_global_linear_in_conductivity unit_triangle_nodes
           unit_triangle_elems 7 []).
  exact unit_triangle_valid.
Defined.

(** X15.  The element matrix of a triangle of non-zero area depends on the
    shape of the triangle only: moving the three nodes by the same vector
    gives a triangle of non-zero area again, and does not change the
    matrix. *)
Theorem element_stiffness_translation_invariant
    (x1 y1 x2 y2 x3 y3 tx ty k : R) :
  jacobian_det ((x1, y1), (x2, y2), (x3, y3)) ≠ 0 →
  jacobian_det ((x1 + tx, y1 + ty), (x2 + tx, y2 + ty), (x3 + tx, y3 + ty)) ≠ 0 ∧
  element_stiffness_triangle
    ((x1 + tx, y1 + ty), (x2 + tx, y2 + ty), (x3 + tx, y3 + ty)) k
  = element_stiffness_triangle ((x1, y1), (x2, y2), (x3, y3)) k.
Proof.
  intros Hdet.
  assert (D : ∀ a b t, a + t - (b + t) = a - b) by (intros; ring).
  split.
  - unfold jacobian_det in *. rewrite !D. exact Hdet.
  - rewrite !element_stiffness_closed_form. cbv zeta.
    rewrite !D. reflexivity.
Qed.

Lemma element_stiffness_translation_invariant_witness :
  jacobian_det ((0 + 3, 0 + -2), (1 + 3, 0 + -2), (0 + 3, 1 + -2)) ≠ 0 ∧
  element_stiffness_triangle ((0 + 3, 0 + -2), (1 + 3, 0 + -2), (0 + 3, 1 + -2)) 5
  = element_stiffness_triangle ((0, 0), (1, 0), (0, 1)) 5.
Proof.
  apply (element_stiffness_translation_invariant 0 0 1 0 0 1 3 (-2) 5).
  unfold jacobian_det, det2. lra.
Defined.

(** ** The whole script on valid input *)

Lemma main_system_run_witness :
  ∃ Kv Kc Kd fd h',
    assemble_global unit_triangle_nodes unit_triangle_elems 1 []
    = (Ok (length ([] : heap)), [] ++ [Arr2 Kv]) ∧
    main_system unit_triangle_nodes unit_triangle_elems 1 robin_example_bcs []
    = (Ok (length ([] : heap), (length ([] : heap) + 5)%nat), h') ∧
    h' !! length ([] : heap) = Some (Arr2 Kd) ∧
    h' !! (length ([] : heap) + 3)%nat = Some (Arr2 Kc) ∧
    h' !! (length ([] : heap) + 5)%nat = Some (Arr1 fd) ∧
    (∀ i j, (i < length unit_triangle_nodes)%nat →
       (j < length unit_triangle_nodes)%nat →
       mget Kc i j
       = mget Kv i j
         + Rsum ((λ r, conv_contrib_K unit_triangle_nodes unit_triangle_elems r i j)
                   <$> convection robin_example_bcs)) ∧
    (∀ i j, (i < length unit_triangle_nodes)%nat →
       (j < length unit_triangle_nodes)%nat →
       Z.of_nat i ∈ (temperature robin_example_bcs).*1
       ∨ Z.of_nat j ∈ (temperature robin_example_bcs).*1 →
       mget Kd i j = indicator i j) ∧
    (∀ i j, (i < length unit_triangle_nodes)%nat →
       (j < length unit_triangle_nodes)%nat →
       Z.of_nat i ∉ (temperature robin_example_bcs).*1 →
       Z.of_nat j ∉ (temperature robin_example_bcs).*1 →
       mget Kd i j = mget Kv i j) ∧
    (∀ i, (i < length unit_triangle_nodes)%nat →
       vget fd i
       = default
           (0 + Rsum ((λ r, flux_contrib unit_triangle_nodes unit_triangle_elems r i)
                        <$> heat_flux robin_example_bcs)
              + Rsum ((λ r, conv_contrib_f unit_triangle_nodes unit_triangle_elems r i)
                        <$> convection robin_example_bcs))
           (last_value (Z.of_nat i) (temperature robin_example_bcs))).
Proof.
  apply (main_system_run unit_triangle_nodes unit_triangle_elems 1
           robin_example_bcs []).
  - exact unit_triangle_valid.
  - constructor.
  - repeat constructor; cbn; lia.
  - repeat constructor; unfold in_range; cbn; lia.
Defined.

(** ** Negative node ids in Dirichlet records *)

Lemma ncols_alter (g : vector → vector) r (m : matrix) :
  (∀ row, length (g row) = length row) → ncols (alter g r m) = ncols m.
Proof.
  intros Hg. destruct m as [|row m]; [reflexivity|].
  destruct r as [|r]; cbn; [apply Hg | reflexivity].
Qed.

Lemma ncols_fmap (g : vector → vector) (m : matrix) :
  (∀ row, length (g row) = length row) → ncols (g <$> m) = ncols m.
Proof. intros Hg. destruct m as [|row m]; [reflexivity | apply Hg]. Qed.

Lemma system_shaped_update_K n K f h (m' : matrix) :
  system_shaped n K f h → length m' = n → ncols m' = n →
  system_shaped n K f (<[K := Arr2 m']> h).
Proof.
  intros (m & v & HK & Hf & Lm & Cm & Lv) Lm' Cm'.
  pose proof (typed_distinct _ _ _ _ _ HK Hf).
  exists m', v. repeat split; try assumption.
  - apply list_lookup_insert_eq. by eapply lookup_lt_Some.
  - by rewrite list_lookup_insert_ne.
Qed.

Lemma system_shaped_update_f n K f h (v' : vector) :
  system_shaped n K f h → length v' = n →
  system_shaped n K f (<[f := Arr1 v']> h).
Proof.
  intros (m & v & HK & Hf & Lm & Cm & Lv) Lv'.
  pose proof (typed_distinct _ _ _ _ _ HK Hf).
  exists m, v'. repeat split; try assumption.
  - by rewrite list_lookup_insert_ne.
  - apply list_lookup_insert_eq. by eapply lookup_lt_Some.
Qed.

Lemma setitem_row_wraps n K f c :
  wraps_and_keeps_shape n K f (λ i, setitem_row K i c).
Proof.
  intros i h Hs. pose proof Hs as (m & v & HK & Hf & Lm & Cm & Lv).
  unfold setitem_row. rewrite !(run_bind _ _ _ _ _ (load2_run _ _ _ HK)).
  rewrite Lm, np_index_wrap. split; [reflexivity|].
  destruct (np_index n i) as [r|e]; [|discriminate].
  cbn. intros h' [= <-]. apply system_shaped_update_K; [assumption| |].
  - by rewrite length_alter.
  - rewrite ncols_alter; [assumption|]. intros. apply length_fmap.
Qed.

Lemma setitem_col_wraps n K f c :
  wraps_and_keeps_shape n K f (λ i, setitem_col K i c).
Proof.
  intros i h Hs. pose proof Hs as (m & v & HK & Hf & Lm & Cm & Lv).
  unfold setitem_col. rewrite !(run_bind _ _ _ _ _ (load2_run _ _ _ HK)).
  rewrite Cm, np_index_wrap. split; [reflexivity|].
  destruct (np_index n i) as [r|e]; [|discriminate].
  cbn. intros h' [= <-]. apply system_shaped_update_K; [assumption| |].
  - by rewrite length_fmap.
  - rewrite ncols_fmap; [assumption|]. intros. apply length_insert.
Qed.

Lemma setitem2_wraps n K f c :
  wraps_and_keeps_shape n K f (λ i, setitem2 K i i c).
Proof.
  intros i h Hs. pose proof Hs as (m & v & HK & Hf & Lm & Cm & Lv).
  unfold setitem2. rewrite !(run_bind _ _ _ _ _ (load2_run _ _ _ HK)).
  rewrite Lm, Cm, np_index_wrap. split; [reflexivity|].
  destruct (np_index n i) as [r|e]; [|discriminate].
  cbn. intros h' [= <-]. apply system_shaped_update_K; [assumption| |].
  - by rewrite length_alter.
  - rewrite ncols_alter; [assumption|]. intros. apply length_insert.
Qed.

Lemma setitem1_wraps n K f c :
  wraps_and_keeps_shape n K f (λ i, setitem1 f i c).
Proof.
  intros i h Hs. pose proof Hs as (m & v & HK & Hf & Lm & Cm & Lv).
  unfold setitem1. rewrite !(run_bind _ _ _ _ _ (load1_run _ _ _ Hf)).
  rewrite Lv, np_index_wrap. split; [reflexivity|].
  destruct (np_index n i) as [r|e]; [|discriminate].
  cbn. intros h' [= <-]. apply system_shaped_update_f; [assumption|].
  by rewrite length_insert.
Qed.

Lemma wraps_seq n K f (p q : Z → M unit) :
  wraps_and_keeps_shape n K f p → wraps_and_keeps_shape n K f q →
  wraps_and_keeps_shape n K f (λ i, p i;; q i).
Proof.
  intros Hp Hq i h Hs. destruct (Hp i h Hs) as [Ep Kp].
  unfold mbind, M_bind. rewrite Ep.
  destruct (p i h) as [[[]|e] h1]; [|by split].
  destruct (Hq i h1 (Kp h1 eq_refl)) as [Eq Kq]. split; [exact Eq|exact Kq].
Qed.

Lemma bind_cong_run {A B} (m m' : M A) (k k' : A → M B) h :
  m h = m' h →
  (∀ a h1, m' h = (Ok a, h1) → k a h1 = k' a h1) →
  (m ≫= k) h = (m' ≫= k') h.
Proof.
  intros Hm Hk. unfold mbind, M_bind. rewrite Hm.
  destruct (m' h) as [[a|e] h1]; [by apply Hk | reflexivity].
Qed.

Lemma dirichlet_loop_wraps n K f (recs : list (Z * R)) : ∀ h,
  system_shaped n K f h →
  for_each ((λ r, (wrap_index n r.1, r.2)) <$> recs) (λ '(node, val),
    setitem_row K node 0;; setitem_col K node 0;;
    setitem2 K node node 1;; setitem1 f node val) h
  = for_each recs (λ '(node, val),
      setitem_row K node 0;; setitem_col K node 0;;
      setitem2 K node node 1;; setitem1 f node val) h.
Proof.
  induction recs as [|[node val] recs IH]; intros h Hs; [reflexivity|].
  cbn [fmap list_fmap for_each fst snd].
  pose proof (wraps_seq n K f _ _ (setitem_row_wraps n K f 0)
    (wraps_seq n K f _ _ (setitem_col_wraps n K f 0)
       (wraps_seq n K f _ _ (setitem2_wraps n K f 1)
          (setitem1_wraps n K f val))) node h Hs) as [E Keep].
  cbv beta in E, Keep.
  apply bind_cong_run; [exact E|].
  intros [] h1 Eb. apply IH, Keep. exact Eb.
Qed.

(** X16.  A node id from [-n] to [-1] names node [n + id]: [apply_dirichlet]
    does with the list of ids exactly what it does with the list in which such
    ids are replaced by the nodes they stand for. *)
Theorem apply_dirichlet_reads_negative_nodes_from_the_end n h K f Kv fv
    (bc_nodes : list Z) (bc_values : list R) :
  h !! K = Some (Arr2 Kv) → h !! f = Some (Arr1 fv) →
  has_shape n n Kv → length fv = n →
  apply_dirichlet K f (wrap_index n <$> bc_nodes) bc_values h
  = apply_dirichlet K f bc_nodes bc_values h.
Proof.
  intros HK Hf Hshape Hlen.
  unfold apply_dirichlet.
  rewrite !(run_bind _ _ _ _ _ (copy1_run _ _ _ Hf)).
  apply bind_cong; [|reflexivity].
  assert (Hzip : zip (wrap_index n <$> bc_nodes) bc_values
                 = (λ r, (wrap_index n r.1, r.2)) <$> zip bc_nodes bc_values).
  { clear. revert bc_values.
    induction bc_nodes as [|x l IH]; intros [|y k]; try reflexivity.
    cbn. f_equal. apply IH. }
  rewrite Hzip. apply dirichlet_loop_wraps.
  pose proof (lookup_lt_Some _ _ _ HK).
  exists Kv, fv. split; [by rewrite lookup_app_l|].
  split; [apply lookup_fresh|].
  destruct Hshape as [Hn Hrows]. split; [assumption|]. split; [|assumption].
  destruct Kv as [|row Kv]; [cbn in *; lia|].
  cbn. by inversion Hrows.
Qed.

Lemma apply_dirichlet_reads_negative_nodes_from_the_end_witness :
  apply_dirichlet 0%nat 1%nat (wrap_index 3 <$> [(-1)%Z; 0%Z]) [9; 4]
    [Arr2 [[2; 3; 1]; [3; 6; 8]; [1; 8; 7]]; Arr1 [7; 8; 2]]
  = apply_dirichlet 0%nat 1%nat [(-1)%Z; 0%Z] [9; 4]
      [Arr2 [[2; 3; 1]; [3; 6; 8]; [1; 8; 7]]; Arr1 [7; 8; 2]].
Proof.
  apply (apply_dirichlet_reads_negative_nodes_from_the_end 3
           [Arr2 [[2; 3; 1]; [3; 6; 8]; [1; 8; 7]]; Arr1 [7; 8; 2]]
           0%nat 1%nat [[2; 3; 1]; [3; 6; 8]; [1; 8; 7]] [7; 8; 2]).
  - reflexivity.
  - reflexivity.
  - split; [reflexivity|]. repeat constructor.
  - reflexivity.
Defined.

(** Node [-1] of three is node 2. *)
Example apply_dirichlet_negative_node :
  apply_dirichlet 0%nat 1%nat [(-1)%Z] [9]
    [Arr2 [[2; 3; 1]; [3; 6; 8]; [1; 8; 7]]; Arr1 [7; 8; 2]]
  = (Ok (0%nat, 2%nat),
     [Arr2 [[2; 3; 0]; [3; 6; 0]; [0; 0; 1]]; Arr1 [7; 8; 2]; Arr1 [7; 8; 9]]).
Proof. reflexivity. Qed.

Lemma TOL_pos : 0 < TOL.
Proof.
  unfold TOL. apply Rdiv_lt_0_compat; [lra|]. apply IZR_lt. reflexivity.
Qed.

Lemma visit_edge_run nd W H w h eid bd k a b' xa ya xb yb :
  nd !! a = Some (xa, ya) → nd !! b' = Some (xb, yb) →
  ∃ bd', visit_edge nd W H w h eid bd (k, (a, b')) = Ok bd' ∧
    outer_left bd' = outer_left bd ++
      (if decide (Rabs (xa - - W / 2) < TOL ∧ Rabs (xb - - W / 2) < TOL)
       then [(eid, k)] else []) ∧
    outer_right bd' = outer_right bd ++
      (if decide (Rabs (xa - W / 2) < TOL ∧ Rabs (xb - W / 2) < TOL)
       then [(eid, k)] else []) ∧
    outer_bottom bd' = outer_bottom bd ++
      (if decide (Rabs (ya - - H / 2) < TOL ∧ Rabs (yb - - H / 2) < TOL)
       then [(eid, k)] else []) ∧
    outer_top bd' = outer_top bd ++
      (if decide (Rabs (ya - H / 2) < TOL ∧ Rabs (yb - H / 2) < TOL)
       then [(eid, k)] else []) ∧
    inner_hole_edges bd' = inner_hole_edges bd ∧
    outer_top_nodes bd' = outer_top_nodes bd ∪
      (if decide (Rabs (ya - H / 2) < TOL ∧ Rabs (yb - H / 2) < TOL)
       then {[a; b']} else ∅) ∧
    inner_hole_nodes bd' = inner_hole_nodes bd ∪
      (if decide (on_hole_outline w h xa ya) then {[a]} else ∅) ∪
      (if decide (on_hole_outline w h xb yb) then {[b']} else ∅).
Proof.
  intros Ha Hb. unfold visit_edge, getitem_dict. rewrite Ha, Hb. cbn.
  eexists. split; [reflexivity|].
  repeat case_decide; cbn; rewrite ?app_nil_r;
    rewrite ?(right_id_L ∅ (∪)), ?(assoc_L (∪));
    repeat split; reflexivity.
Qed.

Lemma fold_outcome_cons_ok {A S} (step : S → A → outcome S) x xs s s' :
  step s x = Ok s' → fold_outcome step (x :: xs) s = fold_outcome step xs s'.
Proof. intros E. cbn [fold_outcome]. rewrite E. reflexivity. Qed.

Lemma fold_outcome_cons_raise {A S} (step : S → A → outcome S) x xs s e :
  step s x = Raise e → fold_outcome step (x :: xs) s = Raise e.
Proof. intros E. cbn [fold_outcome]. rewrite E. reflexivity. Qed.

Lemma recorded_list_step (P : Z * Z * Z * Z → Prop) `{!∀ e, Decision (P e)}
    (Q : Prop) `{!Decision Q} es e l :
  (Q ↔ P e) → l = edge_label <$> filter P es →
  l ++ (if decide Q then [edge_label e] else []) =
  edge_label <$> filter P (es ++ [e]).
Proof.
  intros HQ ->. rewrite filter_app, fmap_app. f_equal.
  rewrite filter_cons, filter_nil.
  destruct (decide Q), (decide (P e)); try tauto; reflexivity.
Qed.

Lemma node_xy_lookup nd a p : nd !! a = Some p → node_xy nd a = p.
Proof. intros E. unfold node_xy. rewrite E. reflexivity. Qed.

Lemma records_edges_step nd W H w h es bd eid k a b' xa ya xb yb :
  nd !! a = Some (xa, ya) → nd !! b' = Some (xb, yb) →
  records_edges nd W H w h es bd →
  ∃ bd', visit_edge nd W H w h eid bd (k, (a, b')) = Ok bd' ∧
         records_edges nd W H w h (es ++ [(eid, k, a, b')]) bd'.
Proof.
  intros Ha Hb (IL & IR & IB & IT & IE & ITn & IHn).
  destruct (visit_edge_run nd W H w h eid bd k a b' xa ya xb yb Ha Hb)
    as (bd' & E & L & Rr & B & T & He & Tn & Hn).
  exists bd'. split; [exact E|].
  assert (Xa : node_xy nd a = (xa, ya)) by (apply node_xy_lookup; exact Ha).
  assert (Xb : node_xy nd b' = (xb, yb)) by (apply node_xy_lookup; exact Hb).
  assert (ET : ∀ y0, edge_on_y nd y0 (eid, k, a, b') ↔
                     Rabs (ya - y0) < TOL ∧ Rabs (yb - y0) < TOL).
  { intros y0. unfold edge_on_y. cbn. rewrite Xa, Xb. reflexivity. }
  assert (EX : ∀ x0, edge_on_x nd x0 (eid, k, a, b') ↔
                     Rabs (xa - x0) < TOL ∧ Rabs (xb - x0) < TOL).
  { intros x0. unfold edge_on_x. cbn. rewrite Xa, Xb. reflexivity. }
  split; [|split; [|split; [|split; [|split; [|split]]]]].
  - rewrite L. apply (recorded_list_step _ _ es (eid, k, a, b'));
      [symmetry; apply EX | exact IL].
  - rewrite Rr. apply (recorded_list_step _ _ es (eid, k, a, b'));
      [symmetry; apply EX | exact IR].
  - rewrite B. apply (recorded_list_step _ _ es (eid, k, a, b'));
      [symmetry; apply ET | exact IB].
  - rewrite T. apply (recorded_list_step _ _ es (eid, k, a, b'));
      [symmetry; apply ET | exact IT].
  - rewrite He. exact IE.
  - intros c. rewrite Tn, elem_of_union, ITn. split.
    + intros [(e & He1 & He2 & He3) | Hc].
      * exists e. rewrite elem_of_app. auto.
      * case_decide as D; [|apply elem_of_empty in Hc; contradiction].
        exists (eid, k, a, b'). rewrite elem_of_app, list_elem_of_singleton.
        split; [right; reflexivity|]. split; [apply ET; exact D|].
        apply elem_of_union in Hc as [Hc | Hc];
          apply elem_of_singleton in Hc; cbn; auto.
    + intros (e & He1 & He2 & He3).
      apply elem_of_app in He1 as [He1 | He1]; [left; eauto|].
      apply list_elem_of_singleton in He1 as ->. right.
      rewrite decide_True by (apply ET; exact He2).
      rewrite elem_of_union, !elem_of_singleton. exact He3.
  - intros c. rewrite Hn, !elem_of_union, IHn. split.
    + intros [[(e & He1 & He2 & He3) | Hc] | Hc].
      * exists e. rewrite elem_of_app. auto.
      * case_decide as D; [|apply elem_of_empty in Hc; contradiction].
        apply elem_of_singleton in Hc as ->.
        exists (eid, k, a, b'). rewrite elem_of_app, list_elem_of_singleton.
        split; [right; reflexivity|]. split; [left; reflexivity|].
        rewrite Xa. exact D.
      * case_decide as D; [|apply elem_of_empty in Hc; contradiction].
        apply elem_of_singleton in Hc as ->.
        exists (eid, k, a, b'). rewrite elem_of_app, list_elem_of_singleton.
        split; [right; reflexivity|]. split; [right; reflexivity|].
        rewrite Xb. exact D.
    + intros (e & He1 & He2 & He3).
      apply elem_of_app in He1 as [He1 | He1]; [left; left; eauto|].
      apply list_elem_of_singleton in He1 as ->. cbn in He2.
      destruct He2 as [-> | ->].
      * left. right. rewrite Xa in He3. rewrite decide_True by exact He3.
        apply elem_of_singleton. reflexivity.
      * right. rewrite Xb in He3. rewrite decide_True by exact He3.
        apply elem_of_singleton. reflexivity.
Qed.

Lemma records_edges_empty nd W H w h : records_edges nd W H w h [] empty_boundaries.
Proof.
  unfold records_edges, empty_boundaries. cbn.
  do 5 (split; [reflexivity|]). split; intros a; split.
  - intros Ha. apply elem_of_empty in Ha. contradiction.
  - intros (e & He & _). apply elem_of_nil in He. contradiction.
  - intros Ha. apply elem_of_empty in Ha. contradiction.
  - intros (e & He & _). apply elem_of_nil in He. contradiction.
Qed.

(** An element whose three node ids are keys of the dictionary. *)
Lemma visit_element_run nd W H w h es bd el :
  is_Some (nd !! el.1.1.2) → is_Some (nd !! el.1.2) → is_Some (nd !! el.2) →
  records_edges nd W H w h es bd →
  ∃ bd', visit_element nd W H w h bd el = Ok bd' ∧
         records_edges nd W H w h (es ++ element_edges el) bd'.
Proof.
  destruct el as [[[eid n1] n2] n3]. cbn [fst snd].
  intros [[x1 y1] E1] [[x2 y2] E2] [[x3 y3] E3] I0.
  unfold visit_element.
  destruct (records_edges_step nd W H w h es bd eid 1%Z n1 n2 _ _ _ _ E1 E2 I0)
    as (b1 & R1 & I1).
  destruct (records_edges_step nd W H w h _ b1 eid 2%Z n2 n3 _ _ _ _ E2 E3 I1)
    as (b2 & R2 & I2).
  destruct (records_edges_step nd W H w h _ b2 eid 3%Z n3 n1 _ _ _ _ E3 E1 I2)
    as (b3 & R3 & I3).
  exists b3.
  rewrite (fold_outcome_cons_ok _ _ _ _ _ R1), (fold_outcome_cons_ok _ _ _ _ _ R2),
    (fold_outcome_cons_ok _ _ _ _ _ R3).
  split; [reflexivity|]. rewrite <- !app_assoc in I3. exact I3.
Qed.

Lemma visit_element_ok nd W H w h bd el :
  is_Some (nd !! el.1.1.2) → is_Some (nd !! el.1.2) → is_Some (nd !! el.2) →
  ∃ bd', visit_element nd W H w h bd el = Ok bd'.
Proof.
  destruct el as [[[eid n1] n2] n3]. cbn [fst snd].
  intros [[x1 y1] E1] [[x2 y2] E2] [[x3 y3] E3].
  unfold visit_element.
  destruct (visit_edge_run nd W H w h eid bd 1%Z n1 n2 _ _ _ _ E1 E2)
    as (b1 & R1 & _).
  destruct (visit_edge_run nd W H w h eid b1 2%Z n2 n3 _ _ _ _ E2 E3)
    as (b2 & R2 & _).
  destruct (visit_edge_run nd W H w h eid b2 3%Z n3 n1 _ _ _ _ E3 E1)
    as (b3 & R3 & _).
  exists b3.
  rewrite (fold_outcome_cons_ok _ _ _ _ _ R1), (fold_outcome_cons_ok _ _ _ _ _ R2),
    (fold_outcome_cons_ok _ _ _ _ _ R3).
  reflexivity.
Qed.

(** An element with a node id that is no key of the dictionary. *)
Lemma visit_element_raise nd W H w h bd el :
  ¬ (is_Some (nd !! el.1.1.2) ∧ is_Some (nd !! el.1.2) ∧ is_Some (nd !! el.2)) →
  visit_element nd W H w h bd el = Raise KeyError.
Proof.
  destruct el as [[[eid n1] n2] n3]. cbn [fst snd]. intros Hn.
  unfold visit_element.
  destruct (nd !! n1) as [[x1 y1]|] eqn:E1.
  2: { apply fold_outcome_cons_raise. unfold visit_edge, getitem_dict.
       rewrite E1. reflexivity. }
  destruct (nd !! n2) as [[x2 y2]|] eqn:E2.
  2: { apply fold_outcome_cons_raise. unfold visit_edge, getitem_dict.
       rewrite E1, E2. reflexivity. }
  destruct (nd !! n3) as [[x3 y3]|] eqn:E3.
  1: { exfalso. apply Hn. eauto. }
  destruct (visit_edge_run nd W H w h eid bd 1%Z n1 n2 _ _ _ _ E1 E2)
    as (b1 & R1 & _).
  rewrite (fold_outcome_cons_ok _ _ _ _ _ R1).
  apply fold_outcome_cons_raise. unfold visit_edge, getitem_dict.
  rewrite E2, E3. reflexivity.
Qed.

Lemma all_edges_cons el els : all_edges (el :: els) = element_edges el ++ all_edges els.
Proof. destruct el as [[[eid n1] n2] n3]. reflexivity. Qed.

Lemma make_node_dict_keys_from (d : gmap Z (R * R)) (nodes : list node_t) n :
  is_Some (foldl (λ (d : gmap Z (R * R)) (nd : node_t),
                    <[nd.1.1 := (nd.1.2, nd.2)]> d) d nodes !! n) ↔
  is_Some (d !! n) ∨ n ∈ node_ids nodes.
Proof.
  revert d. induction nodes as [|nd nodes IH]; intros d; cbn [foldl].
  - unfold node_ids. cbn. rewrite elem_of_nil. tauto.
  - rewrite IH. unfold node_ids. rewrite fmap_cons, elem_of_cons.
    rewrite lookup_insert_is_Some'. split.
    + intros [[E|?]|?]; [right; left; symmetry; exact E|auto|auto].
    + intros [?|[E|?]]; [auto|left; left; symmetry; exact E|auto].
Qed.

Lemma make_node_dict_keys nodes n :
  is_Some (make_node_dict nodes !! n) ↔ n ∈ node_ids nodes.
Proof.
  unfold make_node_dict. rewrite make_node_dict_keys_from.
  rewrite lookup_empty. split; [intros [[? ?]|?]; [discriminate|assumption]|auto].
Qed.

Lemma element_refs_known_keys nodes el :
  element_refs_known (node_ids nodes) el ↔
  is_Some (make_node_dict nodes !! el.1.1.2) ∧
  is_Some (make_node_dict nodes !! el.1.2) ∧
  is_Some (make_node_dict nodes !! el.2).
Proof. unfold element_refs_known. rewrite !make_node_dict_keys. reflexivity. Qed.

Lemma element_loop_known nodes W H w h els : ∀ es bd,
  Forall (element_refs_known (node_ids nodes)) els →
  records_edges (make_node_dict nodes) W H w h es bd →
  ∃ bd', fold_outcome (visit_element (make_node_dict nodes) W H w h) els bd = Ok bd' ∧
         records_edges (make_node_dict nodes) W H w h (es ++ all_edges els) bd'.
Proof.
  induction els as [|el els IH]; intros es bd Hk I0.
  - exists bd. split; [reflexivity|]. cbn. rewrite app_nil_r. exact I0.
  - apply Forall_cons_1 in Hk as [Hel Hk].
    apply element_refs_known_keys in Hel as (K1 & K2 & K3).
    destruct (visit_element_run _ W H w h es bd el K1 K2 K3 I0) as (b1 & R1 & I1).
    destruct (IH _ b1 Hk I1) as (b2 & R2 & I2).
    exists b2. rewrite (fold_outcome_cons_ok _ _ _ _ _ R1). split; [exact R2|].
    rewrite all_edges_cons, app_assoc. exact I2.
Qed.

Lemma element_loop_unknown nodes W H w h els : ∀ bd,
  ¬ Forall (element_refs_known (node_ids nodes)) els →
  fold_outcome (visit_element (make_node_dict nodes) W H w h) els bd = Raise KeyError.
Proof.
  induction els as [|el els IH]; intros bd Hk.
  - exfalso. apply Hk. constructor.
  - destruct (decide (element_refs_known (node_ids nodes) el)) as [Hel|Hel].
    + pose proof Hel as Hel'.
      apply element_refs_known_keys in Hel' as (K1 & K2 & K3).
      destruct (visit_element_ok _ W H w h bd el K1 K2 K3) as (b1 & R1).
      rewrite (fold_outcome_cons_ok _ _ _ _ _ R1). apply IH.
      intros Hk'. apply Hk. constructor; assumption.
    + apply fold_outcome_cons_raise. apply visit_element_raise.
      rewrite <- element_refs_known_keys. exact Hel.
Qed.

Lemma find_boundaries_run nodes elements W H w h :
  Forall (element_refs_known (node_ids nodes)) elements →
  ∃ b, find_boundaries nodes elements W H w h = Ok b ∧
       records_edges (make_node_dict nodes) W H w h (all_edges elements) b.
Proof.
  intros Hk. unfold find_boundaries.
  exact (element_loop_known nodes W H w h elements [] empty_boundaries Hk
           (records_edges_empty _ W H w h)).
Qed.

Lemma all_edges_elem els e :
  e ∈ all_edges els ↔ ∃ el, el ∈ els ∧ e ∈ element_edges el.
Proof.
  induction els as [|el els IH].
  - cbn. rewrite elem_of_nil. split; [contradiction|].
    intros (el & Hel & _). apply elem_of_nil in Hel. contradiction.
  - rewrite all_edges_cons, elem_of_app, IH. split.
    + intros [He | (el' & Hel' & He)].
      * exists el. rewrite elem_of_cons. auto.
      * exists el'. rewrite elem_of_cons. auto.
    + intros (el' & Hel' & He). apply elem_of_cons in Hel' as [-> | Hel']; eauto.
Qed.

Lemma element_edges_elem el e :
  e ∈ element_edges el →
  e.1.1.1 = el.1.1.1 ∧
  ((e.1.1.2 = 1 ∧ e.1.2 = el.1.1.2 ∧ e.2 = el.1.2) ∨
   (e.1.1.2 = 2 ∧ e.1.2 = el.1.2 ∧ e.2 = el.2) ∨
   (e.1.1.2 = 3 ∧ e.1.2 = el.2 ∧ e.2 = el.1.1.2))%Z.
Proof.
  destruct el as [[[eid n1] n2] n3]. cbn [element_edges fst snd].
  rewrite !elem_of_cons, elem_of_nil.
  intros [-> | [-> | [-> | []]]]; cbn; auto 10.
Qed.

Lemma element_node_edges els a :
  element_node els a ↔ ∃ e, e ∈ all_edges els ∧ (a = e.1.2 ∨ a = e.2).
Proof.
  unfold element_node. split.
  - intros (el & Hel & Ha). destruct el as [[[eid n1] n2] n3]. cbn [fst snd] in Ha.
    destruct Ha as [-> | [-> | ->]].
    + exists (eid, 1%Z, n1, n2). split; [|cbn; auto].
      apply all_edges_elem. eexists. split; [exact Hel|]. cbn. rewrite !elem_of_cons. auto.
    + exists (eid, 2%Z, n2, n3). split; [|cbn; auto].
      apply all_edges_elem. eexists. split; [exact Hel|]. cbn. rewrite !elem_of_cons. auto.
    + exists (eid, 3%Z, n3, n1). split; [|cbn; auto].
      apply all_edges_elem. eexists. split; [exact Hel|]. cbn. rewrite !elem_of_cons. auto.
  - intros (e & He & Ha). apply all_edges_elem in He as (el & Hel & He).
    exists el. split; [exact Hel|].
    apply element_edges_elem in He as (_ & [(_ & E1 & E2) | [(_ & E1 & E2) | (_ & E1 & E2)]]);
      rewrite E1, E2 in Ha; tauto.
Qed.

(** X18.  [find_boundaries] returns exactly when every node id used by an
    element is the id of a node; otherwise the first missing id stops it
    with [KeyError]. *)
Theorem find_boundaries_succeeds_iff_node_ids_known nodes elements W H w h :
  (Forall (element_refs_known (node_ids nodes)) elements ∧
   ∃ b, find_boundaries nodes elements W H w h = Ok b) ∨
  (¬ Forall (element_refs_known (node_ids nodes)) elements ∧
   find_boundaries nodes elements W H w h = Raise KeyError).
Proof.
  destruct (decide (Forall (element_refs_known (node_ids nodes)) elements)) as [Hk|Hk].
  - left. split; [exact Hk|].
    destruct (find_boundaries_run nodes elements W H w h Hk) as (b & E & _). eauto.
  - right. split; [exact Hk|]. unfold find_boundaries.
    apply element_loop_unknown. exact Hk.
Qed.

(** X19.  The four outer lists hold, in the order of the loops, the pairs
    [(elem_id, e_id)] of exactly those edges whose two ends both lie within
    [TOL] of the left, right, bottom and top line of the rectangle. *)
Theorem find_boundaries_outer_edges nodes elements W H w h :
  Forall (element_refs_known (node_ids nodes)) elements →
  ∃ b, find_boundaries nodes elements W H w h = Ok b ∧
    outer_left b = edge_label <$>
      filter (edge_on_x (make_node_dict nodes) (- W / 2)) (all_edges elements) ∧
    outer_right b = edge_label <$>
      filter (edge_on_x (make_node_dict nodes) (W / 2)) (all_edges elements) ∧
    outer_bottom b = edge_label <$>
      filter (edge_on_y (make_node_dict nodes) (- H / 2)) (all_edges elements) ∧
    outer_top b = edge_label <$>
      filter (edge_on_y (make_node_dict nodes) (H / 2)) (all_edges elements).
Proof.
  intros Hk.
  destruct (find_boundaries_run nodes elements W H w h Hk)
    as (b & E & IL & IR & IB & IT & _).
  exists b. auto.
Qed.

(** X20.  The list [inner_hole_edges] of the result is always empty: the
    function collects the nodes of the hole, never its edges. *)
Theorem find_boundaries_reports_no_hole_edges nodes elements W H w h :
  (∃ b, find_boundaries nodes elements W H w h = Ok b ∧ inner_hole_edges b = []) ∨
  find_boundaries nodes elements W H w h = Raise KeyError.
Proof.
  destruct (decide (Forall (element_refs_known (node_ids nodes)) elements)) as [Hk|Hk].
  - left.
    destruct (find_boundaries_run nodes elements W H w h Hk)
      as (b & E & _ & _ & _ & _ & IE & _).
    eauto.
  - right. unfold find_boundaries. apply element_loop_unknown. exact Hk.
Qed.

(** X21.  [outer_top_nodes] is the set of the ends of the edges on the top
    line, and [inner_hole_nodes] is the set of the element nodes that pass
    the test for the outline of the hole. *)
Theorem find_boundaries_node_sets nodes elements W H w h :
  Forall (element_refs_known (node_ids nodes)) elements →
  ∃ b, find_boundaries nodes elements W H w h = Ok b ∧
    (∀ a, a ∈ outer_top_nodes b ↔
          ∃ e, e ∈ all_edges elements ∧
               edge_on_y (make_node_dict nodes) (H / 2) e ∧
               (a = e.1.2 ∨ a = e.2)) ∧
    (∀ a, a ∈ inner_hole_nodes b ↔
          element_node elements a ∧
          on_hole_outline w h (node_xy (make_node_dict nodes) a).1
                              (node_xy (make_node_dict nodes) a).2).
Proof.
  intros Hk.
  destruct (find_boundaries_run nodes elements W H w h Hk)
    as (b & E & _ & _ & _ & _ & _ & ITn & IHn).
  exists b. split; [exact E|]. split; [exact ITn|].
  intros a. rewrite IHn, element_node_edges. split.
  - intros (e & He & Ha & Ho). eauto.
  - intros ((e & He & Ha) & Ho). eauto.
Qed.

Lemma number_nodes_snoc points p :
  number_nodes (points ++ [p]) =
  number_nodes points ++ [(Z.of_nat (length points) + 1, p.1, p.2)%Z].
Proof.
  unfold number_nodes. rewrite imap_app. cbn. rewrite Nat.add_0_r. reflexivity.
Qed.

(** The dictionary of the numbered nodes maps [i + 1] to point [i]. *)
Lemma number_nodes_lookup points (i : nat) :
  make_node_dict (number_nodes points) !! (Z.of_nat i + 1)%Z = points !! i.
Proof.
  induction points as [|p points IH] using rev_ind.
  - cbn. rewrite lookup_empty. reflexivity.
  - rewrite number_nodes_snoc. unfold make_node_dict. rewrite foldl_app.
    cbn [foldl fst snd]. fold (make_node_dict (number_nodes points)).
    destruct (decide (i = length points)) as [->|Hne].
    + rewrite lookup_insert_eq. rewrite list_lookup_middle by reflexivity.
      destruct p; reflexivity.
    + rewrite lookup_insert_ne by lia. rewrite IH.
      destruct (decide (i < length points)%nat) as [Hlt|Hge].
      * rewrite lookup_app_l by exact Hlt. reflexivity.
      * rewrite !lookup_ge_None_2; [reflexivity| |lia].
        rewrite length_app. cbn. lia.
Qed.

Lemma number_nodes_ids points n :
  n ∈ node_ids (number_nodes points) ↔ (1 ≤ n ≤ Z.of_nat (length points))%Z.
Proof.
  unfold node_ids, number_nodes. rewrite list_elem_of_fmap. split.
  - intros (nd & -> & Hnd). apply elem_of_lookup_imap in Hnd as (i & p & -> & Hi).
    apply lookup_lt_Some in Hi. cbn. lia.
  - intros Hn. destruct (lookup_lt_is_Some_2 points (Z.to_nat (n - 1))) as [p Hp]; [lia|].
    exists (n, p.1, p.2). split; [reflexivity|].
    apply elem_of_lookup_imap. exists (Z.to_nat (n - 1)), p. split; [|exact Hp].
    f_equal. f_equal. lia.
Qed.

Lemma number_elements_elem tris el :
  el ∈ number_elements tris ↔
  ∃ (i : nat) tri, tris !! i = Some tri ∧
    el = (Z.of_nat i + 1, tri.1.1 + 1, tri.1.2 + 1, tri.2 + 1)%Z.
Proof.
  unfold number_elements. rewrite elem_of_lookup_imap. split.
  - intros (i & tri & -> & Hi). eauto.
  - intros (i & tri & Hi & ->). eauto.
Qed.

Lemma number_elements_known (points : list (R * R)) (tris : list conn_t) :
  Forall (conn_in_range (length points)) tris →
  Forall (element_refs_known (node_ids (number_nodes points))) (number_elements tris).
Proof.
  intros Hr. apply list.Forall_forall. intros el Hel.
  apply number_elements_elem in Hel as (i & tri & Hi & ->).
  rewrite list.Forall_forall in Hr.
  destruct (Hr tri) as (R1 & R2 & R3); [eapply list_elem_of_lookup_2; exact Hi|].
  unfold in_range in R1, R2, R3. unfold element_refs_known. cbn [fst snd].
  rewrite !number_nodes_ids. lia.
Qed.

Lemma number_elements_ids tris :
  element_ids (number_elements tris) =
  (λ i, Z.of_nat i + 1)%Z <$> seq 0 (length tris).
Proof.
  unfold element_ids, number_elements.
  induction tris as [|tri tris IH] using rev_ind; [reflexivity|].
  rewrite imap_app, fmap_app, IH, length_app. cbn. rewrite Nat.add_0_r.
  rewrite Nat.add_1_r, seq_S, fmap_app. reflexivity.
Qed.

Lemma number_elements_NoDup tris : NoDup (element_ids (number_elements tris)).
Proof.
  rewrite number_elements_ids. apply NoDup_fmap_2; [|apply NoDup_seq].
  intros i j Hij. lia.
Qed.

Lemma recorded_label (P : Z * Z * Z * Z → Prop) `{!∀ e, Decision (P e)}
    (es : list (Z * Z * Z * Z)) l :
  l ∈ edge_label <$> filter P es ↔ ∃ e, e ∈ es ∧ P e ∧ l = edge_label e.
Proof.
  rewrite list_elem_of_fmap. split.
  - intros (e & -> & He). apply list_elem_of_filter in He as [HP He]. eauto.
  - intros (e & He & HP & ->). exists e. split; [reflexivity|].
    apply list_elem_of_filter. auto.
Qed.

Lemma numbered_label_in_range (tris : list conn_t) e :
  e ∈ all_edges (number_elements tris) → label_in_range (length tris) (edge_label e).
Proof.
  intros He. apply all_edges_elem in He as (el & Hel & He).
  apply number_elements_elem in Hel as (i & tri & Hi & ->).
  apply lookup_lt_Some in Hi.
  apply element_edges_elem in He as (E1 & HE). cbn [fst snd] in E1.
  unfold label_in_range, edge_label. cbn [fst snd]. rewrite E1.
  split; [lia|]. destruct HE as [(-> & _) | [(-> & _) | (-> & _)]]; lia.
Qed.

Lemma numbered_node_in_range (points : list (R * R)) (tris : list conn_t) a :
  Forall (conn_in_range (length points)) tris →
  element_node (number_elements tris) a → (1 ≤ a ≤ Z.of_nat (length points))%Z.
Proof.
  intros Hr (el & Hel & Ha).
  apply number_elements_elem in Hel as (i & tri & Hi & ->).
  rewrite list.Forall_forall in Hr.
  destruct (Hr tri) as (R1 & R2 & R3); [eapply list_elem_of_lookup_2; exact Hi|].
  unfold in_range in R1, R2, R3. cbn [fst snd] in Ha. lia.
Qed.

(** X22.  The numbered output of the mesh generator is always accepted by
    [find_boundaries] when the triangles index the points, and every id it
    reports counts from 1: element ids are in [1..M], edge ids in [1..3]
    and node ids in [1..N]. *)
Theorem find_boundaries_accepts_numbered_mesh (points : list (R * R))
    (tris : list conn_t) W H w h :
  Forall (conn_in_range (length points)) tris →
  ∃ b, find_boundaries (number_nodes points) (number_elements tris) W H w h = Ok b ∧
    Forall (label_in_range (length tris))
      (outer_left b ++ outer_right b ++ outer_bottom b ++ outer_top b) ∧
    (∀ a, a ∈ inner_hole_nodes b ∨ a ∈ outer_top_nodes b →
          (1 ≤ a ≤ Z.of_nat (length points))%Z).
Proof.
  intros Hr.
  destruct (find_boundaries_run _ _ W H w h (number_elements_known points tris Hr))
    as (b & E & IL & IR & IB & IT & _ & ITn & IHn).
  exists b. split; [exact E|]. split.
  - rewrite IL, IR, IB, IT. rewrite !Forall_app.
    repeat split; apply list.Forall_forall; intros l Hl;
      apply recorded_label in Hl as (e & He & _ & ->);
      apply numbered_label_in_range; exact He.
  - intros a [Ha | Ha].
    + apply IHn in Ha as (e & He & Ha & _).
      apply (numbered_node_in_range points tris a Hr).
      apply element_node_edges. eauto.
    + apply ITn in Ha as (e & He & _ & Ha).
      apply (numbered_node_in_range points tris a Hr).
      apply element_node_edges. eauto.
Qed.

Lemma element_ids_inj els el el' :
  NoDup (element_ids els) → el ∈ els → el' ∈ els → el.1.1.1 = el'.1.1.1 → el = el'.
Proof.
  unfold element_ids. induction els as [|x els IH]; intros Hnd Hel Hel' Hid.
  - apply elem_of_nil in Hel. contradiction.
  - rewrite fmap_cons in Hnd. apply NoDup_cons in Hnd as [Hx Hnd].
    apply elem_of_cons in Hel as [-> | Hel]; apply elem_of_cons in Hel' as [-> | Hel'].
    + reflexivity.
    + exfalso. apply Hx. rewrite Hid. apply list_elem_of_fmap. eauto.
    + exfalso. apply Hx. rewrite <- Hid. apply list_elem_of_fmap. eauto.
    + apply IH; assumption.
Qed.

Lemma edge_label_inj els e e' :
  NoDup (element_ids els) → e ∈ all_edges els → e' ∈ all_edges els →
  edge_label e = edge_label e' → e = e'.
Proof.
  intros Hnd He He' Hl.
  apply all_edges_elem in He as (el & Hel & He).
  apply all_edges_elem in He' as (el' & Hel' & He').
  apply element_edges_elem in He as (E1 & HE).
  apply element_edges_elem in He' as (E1' & HE').
  unfold edge_label in Hl. injection Hl as Hid Hk.
  assert (el = el') as <-.
  { apply (element_ids_inj els); [assumption..|]. congruence. }
  destruct e as [[[i k] a] c], e' as [[[i' k'] a'] c']. cbn [fst snd] in *.
  subst i' k'. f_equal; [f_equal|];
    destruct HE as [(K & A & C) | [(K & A & C) | (K & A & C)]];
    destruct HE' as [(K' & A' & C') | [(K' & A' & C') | (K' & A' & C')]];
    congruence.
Qed.

Lemma not_on_both_lines x x0 x1 :
  2 * TOL <= x1 - x0 → Rabs (x - x0) < TOL → Rabs (x - x1) < TOL → False.
Proof.
  intros Hd H0 H1. apply Rabs_def2 in H0, H1. lra.
Qed.

(** X23.  On a mesh with distinct element ids, no edge is reported on two
    opposite sides of the rectangle, as long as the rectangle is at least
    [2 * TOL] wide (for left and right) or high (for bottom and top). *)
Theorem find_boundaries_opposite_sides_disjoint nodes elements W H w h :
  Forall (element_refs_known (node_ids nodes)) elements →
  NoDup (element_ids elements) →
  ∃ b, find_boundaries nodes elements W H w h = Ok b ∧
    (2 * TOL <= W → ∀ l, l ∈ outer_left b → l ∉ outer_right b) ∧
    (2 * TOL <= H → ∀ l, l ∈ outer_bottom b → l ∉ outer_top b).
Proof.
  intros Hk Hnd.
  destruct (find_boundaries_run nodes elements W H w h Hk)
    as (b & E & IL & IR & IB & IT & _).
  exists b. split; [exact E|]. split.
  - intros HW l Hl Hr. rewrite IL in Hl. rewrite IR in Hr.
    apply recorded_label in Hl as (e & He & [Pa _] & ->).
    apply recorded_label in Hr as (e' & He' & [Pa' _] & Hl).
    assert (e = e') as <- by (apply (edge_label_inj elements); assumption).
    eapply (not_on_both_lines _ (- W / 2) (W / 2)); [lra | exact Pa | exact Pa'].
  - intros HH l Hl Hr. rewrite IB in Hl. rewrite IT in Hr.
    apply recorded_label in Hl as (e & He & [Pa _] & ->).
    apply recorded_label in Hr as (e' & He' & [Pa' _] & Hl).
    assert (e = e') as <- by (apply (edge_label_inj elements); assumption).
    eapply (not_on_both_lines _ (- H / 2) (H / 2)); [lra | exact Pa | exact Pa'].
Qed.

Lemma frame_tris_in_range : Forall (conn_in_range (length frame_points)) frame_tris.
Proof.
  unfold frame_tris, frame_points.
  repeat (apply Forall_cons_2;
          [unfold conn_in_range, in_range; cbn [length fst snd]; lia|]).
  apply Forall_nil_2.
Qed.

Lemma frame_refs_known :
  Forall (element_refs_known (node_ids (number_nodes frame_points)))
         (number_elements frame_tris).
Proof. apply number_elements_known. exact frame_tris_in_range. Qed.

Lemma find_boundaries_outer_edges_witness :
  ∃ b, find_boundaries (number_nodes frame_points) (number_elements frame_tris) 2 2 1 1
       = Ok b ∧
    outer_left b = edge_label <$>
      filter (edge_on_x (make_node_dict (number_nodes frame_points)) (- 2 / 2))
             (all_edges (number_elements frame_tris)) ∧
    outer_right b = edge_label <$>
      filter (edge_on_x (make_node_dict (number_nodes frame_points)) (2 / 2))
             (all_edges (number_elements frame_tris)) ∧
    outer_bottom b = edge_label <$>
      filter (edge_on_y (make_node_dict (number_nodes frame_points)) (- 2 / 2))
             (all_edges (number_elements frame_tris)) ∧
    outer_top b = edge_label <$>
      filter (edge_on_y (make_node_dict (number_nodes frame_points)) (2 / 2))
             (all_edges (number_elements frame_tris)).
Proof.
  apply (find_boundaries_outer_edges (number_nodes frame_points)
           (number_elements frame_tris) 2 2 1 1).
  exact frame_refs_known.
Defined.

Lemma find_boundaries_node_sets_witness :
  ∃ b, find_boundaries (number_nodes frame_points) (number_elements frame_tris) 2 2 1 1
       = Ok b ∧
    (∀ a, a ∈ outer_top_nodes b ↔
          ∃ e, e ∈ all_edges (number_elements frame_tris) ∧
               edge_on_y (make_node_dict (number_nodes frame_points)) (2 / 2) e ∧
               (a = e.1.2 ∨ a = e.2)) ∧
    (∀ a, a ∈ inner_hole_nodes b ↔
          element_node (number_elements frame_tris) a ∧
          on_hole_outline 1 1
            (node_xy (make_node_dict (number_nodes frame_points)) a).1
            (node_xy (make_node_dict (number_nodes frame_points)) a).2).
Proof.
  apply (find_boundaries_node_sets (number_nodes frame_points)
           (number_elements frame_tris) 2 2 1 1).
  exact frame_refs_known.
Defined.

Lemma find_boundaries_accepts_numbered_mesh_witness :
  ∃ b, find_boundaries (number_nodes frame_points) (number_elements frame_tris) 2 2 1 1
       = Ok b ∧
    Forall (label_in_range (length frame_tris))
      (outer_left b ++ outer_right b ++ outer_bottom b ++ outer_top b) ∧
    (∀ a, a ∈ inner_hole_nodes b ∨ a ∈ outer_top_nodes b →
          (1 ≤ a ≤ Z.of_nat (length frame_points))%Z).
Proof.
  apply (find_boundaries_accepts_numbered_mesh frame_points frame_tris 2 2 1 1).
  exact frame_tris_in_range.
Defined.

Lemma find_boundaries_opposite_sides_disjoint_witness :
  ∃ b, find_boundaries (number_nodes frame_points) (number_elements frame_tris) 2 2 1 1
       = Ok b ∧
    (2 * TOL <= 2 → ∀ l, l ∈ outer_left b → l ∉ outer_right b) ∧
    (2 * TOL <= 2 → ∀ l, l ∈ outer_bottom b → l ∉ outer_top b).
Proof.
  apply (find_boundaries_opposite_sides_disjoint (number_nodes frame_points)
           (number_elements frame_tris) 2 2 1 1).
  - exact frame_refs_known.
  - apply number_elements_NoDup.
Defined.

Lemma TOL_lt_half : TOL < 1 / 2.
Proof.
  unfold TOL. apply Rmult_lt_reg_r with (r := IZR (Z.pow_pos 10 8)).
  - apply IZR_lt. reflexivity.
  - unfold Rdiv. rewrite Rmult_assoc, Rinv_l.
    + rewrite Rmult_1_r. apply Rmult_lt_reg_r with (r := 2); [lra|].
      replace (1 * / 2 * IZR (Z.pow_pos 10 8) * 2) with (IZR (Z.pow_pos 10 8)) by field.
      rewrite <- mult_IZR. apply IZR_lt. reflexivity.
    + apply not_0_IZR. discriminate.
Qed.

(** The two sets of the result, as sets of list elements. *)
Lemma records_edges_sets nd W H w h es b :
  records_edges nd W H w h es b →
  outer_top_nodes b =
    list_to_set (filter (edge_on_y nd (H / 2)) es ≫= λ e, [e.1.2; e.2]) ∧
  inner_hole_nodes b =
    list_to_set (filter (λ a, on_hole_outline w h (node_xy nd a).1 (node_xy nd a).2)
                        (es ≫= λ e, [e.1.2; e.2])).
Proof.
  intros (_ & _ & _ & _ & _ & ITn & IHn). split; apply set_eq; intros a.
  - rewrite ITn, elem_of_list_to_set, list_elem_of_bind. split.
    + intros (e & He & HP & Ha). exists e. rewrite list_elem_of_filter.
      split; [|auto]. rewrite !elem_of_cons. tauto.
    + intros (e & Ha & He). apply list_elem_of_filter in He as [HP He].
      exists e. rewrite !elem_of_cons, elem_of_nil in Ha. tauto.
  - rewrite IHn, elem_of_list_to_set, list_elem_of_filter, list_elem_of_bind. split.
    + intros (e & He & Ha & HP). split; [exact HP|]. exists e.
      rewrite !elem_of_cons. tauto.
    + intros (HP & e & Ha & He). exists e.
      rewrite !elem_of_cons, elem_of_nil in Ha. tauto.
Qed.

Lemma frame_node_xy (i : nat) p :
  frame_points !! i = Some p →
  node_xy (make_node_dict (number_nodes frame_points)) (Z.of_nat i + 1) = p.
Proof. intros Hi. apply node_xy_lookup. rewrite number_nodes_lookup. exact Hi. Qed.

(** Settles the tests of a [filter] over the edges of the frame mesh: [Hu]
    unfolds the test and [Fs] rewrites the coordinates of the nodes. *)
Ltac frame_filter Hu Fs :=
  repeat first
    [ rewrite filter_nil
    | rewrite filter_cons_True by
        (apply Hu; cbn [fst snd]; Fs; cbn [fst snd]; split; apply Rabs_def1; lra)
    | rewrite filter_cons_False by
        (rewrite Hu; cbn [fst snd]; Fs; cbn [fst snd];
         intros [A B]; apply Rabs_def2 in A, B; lra) ].

Ltac frame_outline_yes :=
  split; [apply Rabs_def1; lra | apply Rabs_le; lra].

Ltac frame_outline Fs :=
  repeat first
    [ rewrite filter_nil
    | rewrite filter_cons_True by
        (cbn beta; Fs; unfold on_hole_outline; cbn [fst snd];
         first [ left; frame_outline_yes
               | right; left; frame_outline_yes
               | right; right; left; frame_outline_yes
               | right; right; right; frame_outline_yes ])
    | rewrite filter_cons_False by
        (cbn beta; Fs; unfold on_hole_outline; cbn [fst snd];
         intros [[A _] | [[A _] | [[A _] | [A _]]]]; apply Rabs_def2 in A; lra) ].

(** The frame mesh, run through the numbering and the boundary
    detection. *)
Example find_boundaries_frame :
  ∃ b, find_boundaries (number_nodes frame_points) (number_elements frame_tris) 2 2 1 1
       = Ok b ∧
    outer_left b = [(7, 1)%Z] ∧ outer_right b = [(3, 1)%Z] ∧
    outer_bottom b = [(1, 1)%Z] ∧ outer_top b = [(5, 1)%Z] ∧
    inner_hole_edges b = [] ∧
    outer_top_nodes b = {[3%Z; 4%Z]} ∧
    inner_hole_nodes b = {[5%Z; 6%Z; 7%Z; 8%Z]}.
Proof.
  destruct (find_boundaries_run _ _ 2 2 1 1 frame_refs_known) as (b & E & I).
  exists b. split; [exact E|].
  destruct (records_edges_sets _ _ _ _ _ _ _ I) as [ST SH].
  destruct I as (IL & IR & IB & IT & IE & _).
  pose proof TOL_pos as Tp. pose proof TOL_lt_half as Th.
  pose proof (frame_node_xy 0 _ eq_refl) as F1.
  pose proof (frame_node_xy 1 _ eq_refl) as F2.
  pose proof (frame_node_xy 2 _ eq_refl) as F3.
  pose proof (frame_node_xy 3 _ eq_refl) as F4.
  pose proof (frame_node_xy 4 _ eq_refl) as F5.
  pose proof (frame_node_xy 5 _ eq_refl) as F6.
  pose proof (frame_node_xy 6 _ eq_refl) as F7.
  pose proof (frame_node_xy 7 _ eq_refl) as F8.
  change (Z.of_nat 0 + 1)%Z with 1%Z in F1. change (Z.of_nat 1 + 1)%Z with 2%Z in F2.
  change (Z.of_nat 2 + 1)%Z with 3%Z in F3. change (Z.of_nat 3 + 1)%Z with 4%Z in F4.
  change (Z.of_nat 4 + 1)%Z with 5%Z in F5. change (Z.of_nat 5 + 1)%Z with 6%Z in F6.
  change (Z.of_nat 6 + 1)%Z with 7%Z in F7. change (Z.of_nat 7 + 1)%Z with 8%Z in F8.
  set (nd := make_node_dict (number_nodes frame_points)) in *.
  assert (Hes : all_edges (number_elements frame_tris) =
    [(1, 1, 1, 2); (1, 2, 2, 6); (1, 3, 6, 1); (2, 1, 1, 6); (2, 2, 6, 5); (2, 3, 5, 1);
     (3, 1, 2, 3); (3, 2, 3, 7); (3, 3, 7, 2); (4, 1, 2, 7); (4, 2, 7, 6); (4, 3, 6, 2);
     (5, 1, 3, 4); (5, 2, 4, 8); (5, 3, 8, 3); (6, 1, 3, 8); (6, 2, 8, 7); (6, 3, 7, 3);
     (7, 1, 4, 1); (7, 2, 1, 5); (7, 3, 5, 4); (8, 1, 4, 5); (8, 2, 5, 8); (8, 3, 8, 4)]%Z)
    by reflexivity.
  rewrite Hes in *. clearbody nd. clear Hes E.
  assert (Hx : ∀ x0 e, (edge_on_x nd x0 e ↔
               Rabs ((node_xy nd e.1.2).1 - x0) < TOL ∧
               Rabs ((node_xy nd e.2).1 - x0) < TOL)) by reflexivity.
  assert (Hy : ∀ y0 e, (edge_on_y nd y0 e ↔
               Rabs ((node_xy nd e.1.2).2 - y0) < TOL ∧
               Rabs ((node_xy nd e.2).2 - y0) < TOL)) by reflexivity.
  repeat split.
  - rewrite IL.
    frame_filter Hx ltac:(rewrite ?F1, ?F2, ?F3, ?F4, ?F5, ?F6, ?F7, ?F8).
    reflexivity.
  - rewrite IR.
    frame_filter Hx ltac:(rewrite ?F1, ?F2, ?F3, ?F4, ?F5, ?F6, ?F7, ?F8).
    reflexivity.
  - rewrite IB.
    frame_filter Hy ltac:(rewrite ?F1, ?F2, ?F3, ?F4, ?F5, ?F6, ?F7, ?F8).
    reflexivity.
  - rewrite IT.
    frame_filter Hy ltac:(rewrite ?F1, ?F2, ?F3, ?F4, ?F5, ?F6, ?F7, ?F8).
    reflexivity.
  - exact IE.
  - rewrite ST.
    frame_filter Hy ltac:(rewrite ?F1, ?F2, ?F3, ?F4, ?F5, ?F6, ?F7, ?F8).
    reflexivity.
  - rewrite SH. cbn [mbind list_bind app fst snd].
    frame_outline ltac:(rewrite ?F1, ?F2, ?F3, ?F4, ?F5, ?F6, ?F7, ?F8).
    vm_compute. reflexivity.
Qed.
